(** * OpenChemIE reaction instantiation and reconciliation core

    A shallow embedding of [app/core/utils.py]: the subset enumerator, the
    regular expressions of the table expander and of the coreference parser,
    the molecular graph adapter, the graph substitution engine, the
    table-driven expander and the backout reconciler, with the properties
    the design document states about them. *)

From Stdlib Require Import ZArith Lia Sorted Ascii String Floats.
From stdpp Require Import base option list strings gmap sorting.

Set Warnings "-register-all".
Local Open Scope nat_scope.

(** ** Python values: exceptions, sequences, strings *)

Module Py.

(** The exceptions the modelled code can raise. *)
Inductive exn := IndexError | KeyError | TypeError | AttributeError.

(** The outcome of running a piece of Python: a value or a raised exception. *)
Inductive outcome (A : Type) : Type :=
| Ok (a : A)
| Raise (e : exn).
Arguments Ok {A} a.
Arguments Raise {A} e.

#[global] Instance outcome_ret : MRet outcome := fun A a => Ok a.
#[global] Instance outcome_bind : MBind outcome :=
  fun A B f m => match m with Ok a => f a | Raise e => Raise e end.
#[global] Instance outcome_fmap : FMap outcome :=
  fun A B f m => match m with Ok a => Ok (f a) | Raise e => Raise e end.

#[global] Instance exn_eq_dec : EqDecision exn.
Proof. solve_decision. Defined.

(** [d[k]] on a dictionary lookup that may miss. *)
Definition getitem {A} (o : option A) : outcome A :=
  match o with Some a => Ok a | None => Raise KeyError end.

(** [l[i]] for an index that is a natural number. *)
Definition index {A} (l : list A) (i : nat) : outcome A :=
  match l !! i with Some a => Ok a | None => Raise IndexError end.

(** Python's index normalisation: [-len <= i < len], negative indices count
    from the end. *)
Definition norm_index (len : nat) (i : Z) : outcome nat :=
  if decide (0 <= i < Z.of_nat len)%Z then Ok (Z.to_nat i)
  else if decide (- Z.of_nat len <= i < 0)%Z then Ok (Z.to_nat (Z.of_nat len + i))
  else Raise IndexError.

(** A [for] loop over [l] that threads a state and stops at the first
    exception. *)
Fixpoint for_ {S A : Type} (l : list A) (st : S) (body : S -> A -> outcome S) : outcome S :=
  match l with
  | [] => Ok st
  | a :: l' => st' ← body st a; for_ l' st' body
  end.

(** A list comprehension whose element expression may raise. *)
Fixpoint comprehension {A B : Type} (f : A -> outcome B) (l : list A) : outcome (list B) :=
  match l with
  | [] => Ok []
  | a :: l' => b ← f a; bs ← comprehension f l'; Ok (b :: bs)
  end.

(** [enumerate(l)] *)
Definition enumerate {A} (l : list A) : list (nat * A) := imap (fun i a => (i, a)) l.

(** [c in s] for a one-character string [c]. *)
Definition contains (c : ascii) (s : string) : bool :=
  existsb (Ascii.eqb c) (list_ascii_of_string s).

(** [s.replace(a, b)] for one-character strings [a] and [b]. *)
Definition replace (a b : ascii) (s : string) : string :=
  string_of_list_ascii
    (map (fun c => if Ascii.eqb c a then b else c) (list_ascii_of_string s)).

(** [s[1:-1]] *)
Definition strip_ends (s : string) : string :=
  string_of_list_ascii (removelast (tail (list_ascii_of_string s))).

End Py.
Import Py.

(** ** The regular expressions of the module *)

Module Re.

(** The fragment of Python's [re] syntax the two compiled patterns use:
    literals, character classes, greedy [+] over a class, greedy [?],
    concatenation, groups, [^] and [$]. *)
Inductive regex :=
| Lit (c : ascii)
| Class (p : ascii -> bool)
| Plus (p : ascii -> bool)
| Opt (r : regex)
| Seq (r1 r2 : regex)
| Group (name : string) (r : regex)
| Bol
| Eol.

Definition in_range (lo hi c : ascii) : bool :=
  (N_of_ascii lo <=? N_of_ascii c)%N && (N_of_ascii c <=? N_of_ascii hi)%N.

(** [\w] on ASCII text; [\d] is contained in it. *)
Definition word (c : ascii) : bool :=
  in_range "a" "z" c || in_range "A" "Z" c || in_range "0" "9" c || Ascii.eqb c "_".

Definition one_of (cs : list ascii) (c : ascii) : bool := existsb (Ascii.eqb c) cs.

(** The groups of a match: group name to matched text. *)
Abbreviation groups := (gmap string string).

Section Exec.
Context {R : Type}.

(** Greedy [p+] at [s]: take as many characters as possible, then give
    them back one at a time until the continuation succeeds. *)
Fixpoint plus (p : ascii -> bool) (pos : nat) (s : list ascii)
    (k : nat -> list ascii -> option R) : option R :=
  match s with
  | c :: s' =>
      if p c then
        match plus p (S pos) s' k with
        | Some r => Some r
        | None => k (S pos) s'
        end
      else None
  | [] => None
  end.

(** Backtracking matcher: [exec r pos s gs k] matches [r] at offset [pos],
    where [s] is the rest of the text, and hands the rest to [k]. *)
Fixpoint exec (r : regex) (pos : nat) (s : list ascii) (gs : groups)
    (k : nat -> list ascii -> groups -> option R) : option R :=
  match r with
  | Lit c =>
      match s with
      | c' :: s' => if Ascii.eqb c' c then k (S pos) s' gs else None
      | [] => None
      end
  | Class p =>
      match s with
      | c' :: s' => if p c' then k (S pos) s' gs else None
      | [] => None
      end
  | Plus p => plus p pos s (fun pos' s' => k pos' s' gs)
  | Opt r' =>
      match exec r' pos s gs k with
      | Some x => Some x
      | None => k pos s gs
      end
  | Seq r1 r2 => exec r1 pos s gs (fun pos' s' gs' => exec r2 pos' s' gs' k)
  | Group name r' =>
      exec r' pos s gs
        (fun pos' s' gs' =>
           k pos' s' (<[name := string_of_list_ascii (take (pos' - pos) s)]> gs'))
  | Bol => if decide (pos = 0) then k pos s gs else None
  | Eol =>
      match s with
      | [] => k pos s gs
      | [c] => if Ascii.eqb c "010" then k pos s gs else None
      | _ => None
      end
  end.
End Exec.

(** A match object: the end offset and the groups. *)
Definition accept (pos : nat) (s : list ascii) (gs : groups) : option (nat * groups) :=
  Some (pos, gs).

(** [pattern.match(text)] *)
Definition re_match (r : regex) (text : string) : option groups :=
  snd <$> exec r 0 (list_ascii_of_string text) ∅ accept.

(** The scan of [pattern.finditer(text)]: [pos] is the offset of [s] in the
    text and [resume] the end of the previous match; offsets before [resume]
    are skipped, so matches do not overlap. *)
Fixpoint scan (r : regex) (pos resume : nat) (s : list ascii) : list groups :=
  let here := if decide (pos < resume) then None else exec r pos s ∅ accept in
  match s with
  | [] => match here with Some (_, gs) => [gs] | None => [] end
  | _ :: s' =>
      match here with
      | Some (e, gs) => gs :: scan r (S pos) (Nat.max e (S pos)) s'
      | None => scan r (S pos) resume s'
      end
  end.

(** [pattern.finditer(text)] *)
Definition finditer (r : regex) (text : string) : list groups :=
  scan r 0 0 (list_ascii_of_string text).

Declare Scope regex_scope.
Delimit Scope regex_scope with re.
Infix "⋅" := Seq (at level 41, right associativity) : regex_scope.

(** [r_group_pattern] of [process_tables]:
    [^(\w+-)?(?P<group>[\w-]+)( \(\w+\))?$] *)
Definition r_group_pattern : regex :=
  (Bol
   ⋅ Opt (Group "1" (Plus word ⋅ Lit "-"))
   ⋅ Group "group" (Plus (fun c => word c || one_of ["-"%char] c))
   ⋅ Opt (Group "3" (Lit " " ⋅ Lit "(" ⋅ Plus word ⋅ Lit ")"))
   ⋅ Eol)%re.

(** [patt] of [clean_corefs]:
    [(?P<label>[\w\d\.]+[abc]?)[,:]?[ ]+(?P<group>[\[\]\w\d-]+)] *)
Definition coref_pattern : regex :=
  (Group "label"
     (Plus (fun c => word c || one_of ["."%char] c)
      ⋅ Opt (Class (one_of ["a"; "b"; "c"]%char)))
   ⋅ Opt (Class (one_of [","; ":"]%char))
   ⋅ Plus (one_of [" "%char])
   ⋅ Group "group" (Plus (fun c => one_of ["["; "]"; "-"]%char c || word c)))%re.

End Re.

(** ** Subset enumeration: [generate_subsets] *)

Module Subsets.

(** The two Python lists the closure [backtrack] works on: its argument
    [subset], mutated by [append] and [pop], and the captured [subsets]. *)
Record bt_state := BtState { subset : list nat; subsets : list (list nat) }.

(** [subsets.append(list(subset))] *)
Definition record_subset (st : bt_state) : bt_state :=
  BtState (subset st) (subsets st ++ [subset st]).

(** [subset.append(i)] *)
Definition push (i : nat) (st : bt_state) : bt_state :=
  BtState (subset st ++ [i]) (subsets st).

(** [subset.pop()] *)
Definition pop (st : bt_state) : bt_state :=
  BtState (removelast (subset st)) (subsets st).

(** A [for] loop whose body may run out of recursion depth. *)
Fixpoint for_each {S A : Type} (body : S -> A -> option S)
    (l : list A) (st : S) : option S :=
  match l with
  | [] => Some st
  | a :: l' => match body st a with
               | Some st' => for_each body l' st'
               | None => None
               end
  end.

(** [range(start, n)] *)
Definition range (start n : nat) : list nat := seq start (n - start).

(** [backtrack(start, subset)]; [depth] bounds the recursion depth and
    [None] means the bound was hit. *)
Fixpoint backtrack (depth n start : nat) (st : bt_state) : option bt_state :=
  match depth with
  | 0 => None
  | S depth' =>
      for_each
        (fun st i =>
           match backtrack depth' n (i + 1) (push i st) with
           | Some st' => Some (pop st')
           | None => None
           end)
        (range start n) (record_subset st)
  end.

(** [generate_subsets(n)]: the recursion is at most [n + 1] calls deep. *)
Definition generate_subsets (n : nat) : option (list (list nat)) :=
  subsets <$> backtrack (S n) n 0 (BtState [] []).

(** The subsets of [{start, ..., start + d - 1}] in the order the depth-first
    walk visits them. *)
Fixpoint enum (d start : nat) : list (list nat) :=
  match d with
  | 0 => [[]]
  | S d' => [] :: map (cons start) (enum d' (S start)) ++ tail (enum d' (S start))
  end.

End Subsets.

(** ** Data model *)

(** A dictionary whose iteration order the code relies on: the entries in
    insertion order, each key once. *)
Abbreviation pydict V := (list (string * V)).

(** [d.get(k)] as an option; [d[k]] is [getitem (dict_get k d)]. *)
Definition dict_get {V} (k : string) (d : pydict V) : option V :=
  snd <$> List.find (fun kv => bool_decide (kv.1 = k)) d.

(** [d[k] = v]: an existing key keeps its place, a new key goes last. *)
Fixpoint dict_set {V} (k : string) (v : V) (d : pydict V) : pydict V :=
  match d with
  | [] => [(k, v)]
  | (k', v') :: d' =>
      if decide (k' = k) then (k, v) :: d' else (k', v') :: dict_set k v d'
  end.

(** A bounding box [x1, y1, x2, y2] in image-relative coordinates. *)
Record bbox := BBox { bx1 : float; by1 : float; bx2 : float; by2 : float }.

(** A molecule, text or table entry of a reaction: the keys of the
    dictionary that the code reads or writes, [None] for an absent key. The
    value under ['smiles'] can itself be Python's [None]. *)
Record entity := Entity {
  e_category : option string;
  e_bbox : option bbox;
  e_smiles : option (option string);
  e_text : option string;
  e_tag : option string;
  e_header : option string;
}.

(** An element of a reactant, condition or product list: a dictionary or,
    once the expander has wrapped the conditions, a list. *)
Inductive item :=
| Dict (e : entity)
| List (l : list item).

(** A reaction: the dictionary with keys ['reactants'], ['conditions'] and
    ['products']. *)
Abbreviation reaction := (pydict (list item)).

(** The per-figure result: the reaction list and the page number. *)
Record figure_result := Result {
  reactions : list reaction;
  page : option nat;
}.

(** A molecule box of a coreference record; only ['smiles'] is read. *)
Record mol_bbox := MolBBox { mb_bbox : bbox; mb_smiles : option string }.

(** An identifier box of a coreference record; only ['text'] is read. *)
Record idt_bbox := IdtBBox { ib_bbox : bbox; ib_text : option string }.

(** The value under ['idt_bboxes']: absent, a list, or something else. *)
Inductive idt_field :=
| IdtAbsent
| IdtList (l : list idt_bbox)
| IdtOther.

(** A coreference record: [None] stands for an absent key. *)
Record coref_record := CorefRecord {
  cr_bboxes : option (list entity);
  cr_mol_bboxes : option (list mol_bbox);
  cr_idt_bboxes : idt_field;
}.

(** ** Coreference parser: [clean_corefs] *)

(** [f.group(name)]; both named groups take part in every match of
    [coref_pattern]. *)
Definition group (name : string) (f : Re.groups) : string := default "" (f !! name).

(** The label-to-group extraction of [clean_corefs]: the loop over the
    identifier texts that fills [coref_smiles]. *)
Definition parse_assignments (idt_bboxes_text : list string) : pydict string :=
  foldl
    (fun coref_smiles text =>
       foldl (fun coref_smiles f => dict_set (group "label" f) (group "group" f) coref_smiles)
         coref_smiles (Re.finditer Re.coref_pattern text))
    [] idt_bboxes_text.

Definition clean_corefs (coref_results_dict : list coref_record) (idx : nat)
    : outcome (option (list (mol_bbox * string) * pydict string * list entity)) :=
  if decide (length coref_results_dict <= idx) then Ok None else
  res ← index coref_results_dict idx;
  match cr_mol_bboxes res with
  | None => Ok None
  | Some mol_bboxes =>
      first ← index mol_bboxes 0;
      mol_bboxes_text ←
        (match mb_smiles first with
         | Some _ => comprehension (fun b => s ← getitem (mb_smiles b); Ok (b, s)) mol_bboxes
         | None => Ok []
         end);
      match cr_idt_bboxes res with
      | IdtList idt_bboxes =>
          idt_bboxes_text ← comprehension (fun b => getitem (ib_text b)) idt_bboxes;
          let coref_smiles := parse_assignments idt_bboxes_text in
          bboxes ← getitem (cr_bboxes res);
          Ok (Some (mol_bboxes_text, coref_smiles, bboxes))
      | _ => Ok None
      end
  end.

(** ** Backout reconciler: [backout] *)

(** [v == text] in [backout], where [v] is a [str] (a group of the parsed
    assignments) and [text] is the first component of a [mol_bboxes_text]
    pair, the box dictionary itself: a [str] and a [dict] never compare
    equal. *)
Definition str_eq_dict (v : string) (text : mol_bbox) : bool := false.

(** The loop that fills [coref_smiles_to_graphs]. *)
Definition build_coref_smiles_to_graphs (coref_smiles : pydict string)
    (mol_bboxes_text : list (mol_bbox * string)) : gmap string string :=
  foldl
    (fun csg kv =>
       foldl (fun csg ts => if str_eq_dict kv.2 ts.1 then <[ts.2 := kv.1]> csg else csg)
         csg mol_bboxes_text)
    ∅ coref_smiles.

(** [rxn['products'][0]]'s value under ['smiles']: [None] when the key is
    absent (the guard ['smiles' in ....keys()] fails). *)
Definition first_product_smiles (rxn : reaction) : outcome (option (option string)) :=
  products ← getitem (dict_get "products" rxn);
  p ← index products 0;
  match p with
  | Dict e => Ok (e_smiles e)
  | List _ => Raise AttributeError
  end.

(** The test of the first loop: the product has a structure string with
    neither ["*"] nor ["R"] in it. *)
Definition no_rgroup (rxn : reaction) : outcome bool :=
  s ← first_product_smiles rxn;
  Ok match s with
     | Some (Some prod_smiles) =>
         negb (contains "*" prod_smiles) && negb (contains "R" prod_smiles)
     | _ => false
     end.

(** The dictionary [{'smiles': label}]. *)
Definition smiles_only (label : string) : entity :=
  Entity None None (Some (Some label)) None None None.

(** [new_res['reactions'].append(rxn)] on a result. *)
Definition add_reaction (rxn : reaction) (r : figure_result) : figure_result :=
  Result (reactions r ++ [rxn]) (page r).

(** [new_res['reactions'].append(new_rxn)] in the second loop of [backout]:
    [new_res] still names the dictionary the first loop created last, the
    final element of [final_results]. *)
Definition append_to_new_res (new_rxn : reaction) (final_results : list figure_result)
    : list figure_result :=
  alter (add_reaction new_rxn) (length final_results - 1) final_results.

Section Backout.
(** The cheminformatics toolkit: parsed molecules, [Chem.MolFromSmiles]
    ([None] for a string it cannot parse) and [mol.HasSubstructMatch(query)]. *)
Context {Mol : Type}.
Variable MolFromSmiles : string -> option Mol.
Variable HasSubstructMatch : Mol -> Mol -> bool.

(** The first loop: one fresh result per input result, holding the
    reactions without R-group. *)
Definition without_rgroups (res : figure_result) : outcome figure_result :=
  for_ (reactions res) (Result [] None)
    (fun new_res rxn =>
       b ← no_rgroup rxn;
       Ok (if b : bool then add_reaction rxn new_res else new_res)).

(** The similarity test of the second loop. *)
Definition similar (prod_smiles other_prod_smiles : string) : bool :=
  match MolFromSmiles (replace "*" "C" prod_smiles), MolFromSmiles other_prod_smiles with
  | Some prod_mol, Some other_prod_mol => HasSubstructMatch prod_mol other_prod_mol
  | _, _ => false
  end.

(** One step of the loop over [rxn['reactants']]. *)
Definition relabel (csg : gmap string string) (reactant : item) : outcome item :=
  match reactant with
  | Dict e =>
      match e_smiles e with
      | Some (Some s) =>
          match csg !! s with
          | Some label => Ok (Dict (smiles_only label))
          | None => Ok reactant
          end
      | _ => Ok reactant
      end
  | List _ => Raise AttributeError
  end.

(** The construction of [new_rxn] from [rxn]. *)
Definition build_new_rxn (csg : gmap string string) (rxn : reaction) : outcome reaction :=
  products ← getitem (dict_get "products" rxn);
  let new_rxn := [("reactants", []); ("products", products)] in
  reactants ← getitem (dict_get "reactants" rxn);
  for_ reactants new_rxn
    (fun new_rxn reactant =>
       r ← relabel csg reactant;
       old ← getitem (dict_get "reactants" new_rxn);
       Ok (dict_set "reactants" (old ++ [r]) new_rxn)).

(** The body of the loop over [other_res['reactions']]. *)
Definition backout_other (csg : gmap string string) (rxn : reaction)
    (prod_smiles : string) (final_results : list figure_result)
    (other_rxn : reaction) : outcome (list figure_result) :=
  o ← first_product_smiles other_rxn;
  match o with
  | Some (Some other_prod_smiles) =>
      if negb (contains "*" other_prod_smiles) && similar prod_smiles other_prod_smiles
      then new_rxn ← build_new_rxn csg rxn;
           Ok (append_to_new_res new_rxn final_results)
      else Ok final_results
  | _ => Ok final_results
  end.

(** The body of the loop over [res['reactions']] in the second pass. *)
Definition backout_rxn (csg : gmap string string) (results : list figure_result)
    (final_results : list figure_result) (rxn : reaction) : outcome (list figure_result) :=
  s ← first_product_smiles rxn;
  match s with
  | Some (Some prod_smiles) =>
      if contains "*" prod_smiles then
        for_ results final_results
          (fun final_results other_res =>
             for_ (reactions other_res) final_results
               (backout_other csg rxn prod_smiles))
      else Ok final_results
  | _ => Ok final_results
  end.

(** The body of the second loop over [enumerate(results)]. *)
Definition backout_res (results : list figure_result) (coref_results : list coref_record)
    (final_results : list figure_result) (ires : nat * figure_result)
    : outcome (list figure_result) :=
  coref_res ← clean_corefs coref_results ires.1;
  match coref_res with
  | None => Ok final_results
  | Some (mol_bboxes_text, coref_smiles, bboxes) =>
      let csg := build_coref_smiles_to_graphs coref_smiles mol_bboxes_text in
      for_ (reactions ires.2) final_results (backout_rxn csg results)
  end.

(** [backout(results, coref_results, molscribe)]; the recogniser argument
    is not used. *)
Definition backout (results : list figure_result) (coref_results : list coref_record)
    : outcome (list figure_result) :=
  final_results ← comprehension without_rgroups results;
  for_ (enumerate results) final_results (backout_res results coref_results).

End Backout.


(** ** Molecular graph adapter: [get_atoms_and_bonds] *)

Definition BOND_TO_INT : pydict Z :=
  [("", 0); ("single", 1); ("double", 2); ("triple", 3); ("aromatic", 4);
   ("solid wedge", 5); ("dashed wedge", 6)]%Z.

(** What the recogniser returns for one molecule image: the atoms with
    their coordinates and the bonds with their two endpoint indices. *)
Record atom := Atom { a_x : float; a_y : float; a_symbol : string }.
Record bond := Bond { b_endpoints : Z * Z; b_type : string }.
Record mol_output := MolOutput { o_atoms : list atom; o_bonds : list bond }.

(** A molecular graph: the dictionary with keys ['image'],
    ['chartok_coords'] (holding ['coords'] and ['symbols']), ['edges'] and
    ['key']. *)
Record graph (Image : Type) := Graph {
  g_image : Image;
  g_coords : list (float * float);
  g_symbols : list string;
  g_edges : list (list Z);
  g_key : string * nat;
}.
Arguments Graph {Image}.
Arguments g_image {Image}.
Arguments g_coords {Image}.
Arguments g_symbols {Image}.
Arguments g_edges {Image}.
Arguments g_key {Image}.

(** [[[0] * n for _ in range(n)]]: [n] distinct rows of [n] zeros. *)
Definition zeros (n : nat) : list (list Z) := replicate n (replicate n 0%Z).

(** [edges[i][j] = v] with Python's index rules on both subscripts. *)
Definition set_edge (edges : list (list Z)) (i j : Z) (v : Z) : outcome (list (list Z)) :=
  i' ← norm_index (length edges) i;
  row ← index edges i';
  j' ← norm_index (length row) j;
  Ok (<[i' := <[j' := v]> row]> edges).

(** The body of the loop over [mol['bonds']]. *)
Definition add_bond (edges : list (list Z)) (b : bond) : outcome (list (list Z)) :=
  let '(i, j) := b_endpoints b in
  v ← getitem (dict_get (b_type b) BOND_TO_INT);
  edges ← set_edge edges i j v;
  v ← getitem (dict_get (b_type b) BOND_TO_INT);
  set_edge edges j i v.

(** The entry [edges[i][j]] when both indices are in range. *)
Definition entry (edges : list (list Z)) (i j : nat) : option Z :=
  row ← edges !! i; row !! j.

Section Adapter.
Context {Image : Type}.
(** [crop image bbox]: the image converted to an array and sliced by the
    box scaled with the image's height and width. *)
Variable crop : Image -> bbox -> Image.
(** [molscribe.predict_images(cropped_images, return_atoms_bonds=True)] *)
Variable predict_images : list Image -> list mol_output.

(** The body of the loop over [enumerate(molecules)]. *)
Definition collect_molecule (image : Image) (key : string)
    (acc : list Image * list (graph Image)) (ielt : nat * item)
    : outcome (list Image * list (graph Image)) :=
  match ielt.2 with
  | List _ => Ok acc
  | Dict elt =>
      category ← getitem (e_category elt);
      if decide (category = "[Mol]") then
        b ← getitem (e_bbox elt);
        let cropped := crop image b in
        Ok (acc.1 ++ [cropped], acc.2 ++ [Graph cropped [] [] [] (key, ielt.1)])
      else Ok acc
  end.

(** The body of the loop over [zip(outputs, results)]. *)
Definition fill (mol : mol_output) (result : graph Image) : outcome (graph Image) :=
  let coords := g_coords result ++ ((fun a => (a_x a, a_y a)) <$> o_atoms mol) in
  let symbols := g_symbols result ++ (a_symbol <$> o_atoms mol) in
  edges ← for_ (o_bonds mol) (zeros (length (o_atoms mol))) add_bond;
  Ok (Graph (g_image result) coords symbols edges (g_key result)).

(** The loop over [zip(outputs, results)]: results beyond the outputs stay
    as they were created. *)
Fixpoint fill_all (outputs : list mol_output) (results : list (graph Image))
    : outcome (list (graph Image)) :=
  match outputs, results with
  | mol :: outputs', result :: results' =>
      r ← fill mol result; rs ← fill_all outputs' results'; Ok (r :: rs)
  | _, _ => Ok results
  end.

Definition get_atoms_and_bonds (image : Image) (reaction : reaction)
    : outcome (list (graph Image)) :=
  acc ← for_ reaction ([], [])
           (fun acc kv => for_ (enumerate kv.2) acc (collect_molecule image kv.1));
  fill_all (predict_images acc.1) acc.2.

End Adapter.

(** ** R-group locator: [find_relevant_groups] *)

(** A table column: its header text and its semantic tag. *)
Record column := Column { col_text : string; col_tag : string }.

(** A table cell. *)
Record cell := Cell { cell_text : string }.

(** The table content: the columns and the rows of cells. *)
Record table_content := TableContent {
  columns : list column;
  rows : list (list cell);
}.

(** The located positions: graph index to the list of (symbol, atom index). *)
Abbreviation located := (list (nat * list (string * nat))).

Definition find_relevant_groups {Image} (graphs : list (graph Image))
    (columns : list column) : located :=
  let r_groups : gset string :=
    list_to_set ((fun col => "[" +:+ col_text col +:+ "]")
                   <$> filter (fun col => col_tag col = "alkyl group") columns) in
  imap
    (fun i graph =>
       (i, omap (fun ja => if decide (ja.2 ∈ r_groups)
                           then Some (strip_ends ja.2, ja.1) else None)
             (enumerate (g_symbols graph))))
    graphs.

(** ** Graph substitution engine: [get_replaced_reaction] *)

(** The lists a graph dictionary points to are Python objects that copies
    can share; they live in a store, under locations. The outer list of
    ['edges'] holds the locations of its rows. *)
Abbreviation loc := nat.

Inductive obj :=
| OCoords (l : list (float * float))
| OSymbols (l : list string)
| OEdges (rows : list loc)
| ORow (row : list Z).

Abbreviation store := (gmap loc obj).

(** A graph dictionary whose lists are given by their locations. *)
Record graph_ref (Image : Type) := GraphRef {
  r_image : Image;
  r_coords : loc;
  r_symbols : loc;
  r_edges : loc;
  r_key : string * nat;
}.
Arguments GraphRef {Image}.
Arguments r_image {Image}.
Arguments r_coords {Image}.
Arguments r_symbols {Image}.
Arguments r_edges {Image}.
Arguments r_key {Image}.

(** A new object at a location not in use. *)
Definition alloc (o : obj) (σ : store) : loc * store :=
  let l := fresh (dom σ) in (l, <[l := o]> σ).

Definition read_coords (σ : store) (l : loc) : outcome (list (float * float)) :=
  match σ !! l with Some (OCoords cs) => Ok cs | _ => Raise TypeError end.

Definition read_symbols (σ : store) (l : loc) : outcome (list string) :=
  match σ !! l with Some (OSymbols ss) => Ok ss | _ => Raise TypeError end.

Definition read_edges (σ : store) (l : loc) : outcome (list loc) :=
  match σ !! l with Some (OEdges rows) => Ok rows | _ => Raise TypeError end.

Definition read_row (σ : store) (l : loc) : outcome (list Z) :=
  match σ !! l with Some (ORow row) => Ok row | _ => Raise TypeError end.

(** The graph a reference stands for in a store. *)
Definition read_graph {Image} (σ : store) (g : graph_ref Image) : outcome (graph Image) :=
  coords ← read_coords σ (r_coords g);
  symbols ← read_symbols σ (r_symbols g);
  rows ← read_edges σ (r_edges g);
  edges ← comprehension (read_row σ) rows;
  Ok (Graph (r_image g) coords symbols edges (r_key g)).

(** The objects of a freshly built graph, put into the store. *)
Definition alloc_graph {Image} (σ : store) (g : graph Image) : graph_ref Image * store :=
  let '(lc, σ) := alloc (OCoords (g_coords g)) σ in
  let '(ls, σ) := alloc (OSymbols (g_symbols g)) σ in
  let '(rows, σ) :=
    foldl (fun acc row => let '(l, σ) := alloc (ORow row) acc.2 in (acc.1 ++ [l], σ))
      ([], σ) (g_edges g) in
  let '(le, σ) := alloc (OEdges rows) σ in
  (GraphRef (g_image g) lc ls le (g_key g), σ).

Definition alloc_graphs {Image} (σ : store) (graphs : list (graph Image))
    : list (graph_ref Image) * store :=
  foldl (fun acc g => let '(r, σ) := alloc_graph acc.2 g in (acc.1 ++ [r], σ))
    ([], σ) graphs.

(** The body of the first loop: a new graph dictionary with new lists for
    ['coords'], ['symbols'] and the outer list of ['edges'] (the slices
    [[:]]); the rows of ['edges'] are shared with the original. *)
Definition copy_graph {Image} (acc : list (graph_ref Image) * store)
    (graph : graph_ref Image) : outcome (list (graph_ref Image) * store) :=
  let σ := acc.2 in
  coords ← read_coords σ (r_coords graph);
  let '(lc, σ) := alloc (OCoords coords) σ in
  symbols ← read_symbols σ (r_symbols graph);
  let '(ls, σ) := alloc (OSymbols symbols) σ in
  rows ← read_edges σ (r_edges graph);
  let '(le, σ) := alloc (OEdges rows) σ in
  Ok (acc.1 ++ [GraphRef (r_image graph) lc ls le (r_key graph)], σ).

(** The body of the loop over the located atoms of one graph:
    [graph_copy[graph_idx]['chartok_coords']['symbols'][atom_idx] = mappings[atom]]
    when [atom in mappings]. *)
Definition relabel_atom {Image} (mappings : gmap string string)
    (graph_copy : list (graph_ref Image)) (graph_idx : nat)
    (σ : store) (a : string * nat) : outcome store :=
  match mappings !! a.1 with
  | None => Ok σ
  | Some value =>
      g ← index graph_copy graph_idx;
      symbols ← read_symbols σ (r_symbols g);
      if decide (a.2 < length symbols)
      then Ok (<[r_symbols g := OSymbols (<[a.2 := value]> symbols)]> σ)
      else Raise IndexError
  end.

(** The first two loops of [get_replaced_reaction]: the graph copies with
    the located atoms relabelled. *)
Definition replaced_graphs {Image} (graphs : list (graph_ref Image))
    (relevant_locs : located) (mappings : gmap string string) (σ : store)
    : outcome (list (graph_ref Image) * store) :=
  acc ← for_ graphs ([], σ) copy_graph;
  σ' ← for_ relevant_locs acc.2
         (fun σ kv => for_ kv.2 σ (relabel_atom mappings acc.1 kv.1));
  Ok (acc.1, σ').

(** [append_copy(copy_list, entity)]: a ['[Mol]'] dictionary is copied key
    by key, any other entity is appended as it is. *)
Definition append_copy (copy_list : list item) (entity : item) : outcome (list item) :=
  match entity with
  | Dict e => category ← getitem (e_category e); Ok (copy_list ++ [Dict e])
  | List _ => Raise TypeError
  end.

(** The loop that fills [reaction_copy]. *)
Definition copy_reaction (orig_reaction : reaction) : outcome reaction :=
  for_ orig_reaction []
    (fun reaction_copy kv =>
       items ← for_ kv.2 []
                 (fun copy_list entity =>
                    match entity with
                    | List l => sub_list ← for_ l [] append_copy;
                                Ok (copy_list ++ [List sub_list])
                    | Dict _ => append_copy copy_list entity
                    end);
       Ok (dict_set kv.1 items reaction_copy)).

(** [e] with ['smiles'] set to a string. *)
Definition set_smiles (s : string) (e : entity) : entity :=
  Entity (e_category e) (e_bbox e) (Some (Some s)) (e_text e) (e_tag e) (e_header e).

Section Substitution.
Context {Image : Type}.
(** [molscribe.convert_graph_to_output([graph], [graph['image']])[0]['smiles']] *)
Variable convert_graph_to_output : graph Image -> string.

(** The body of the last loop: the structure string of the graph copy is
    written into the entity of [reaction_copy] the graph's key points to.
    A ['[Mol]'] dictionary there is the copy made by [append_copy]. Any other
    dictionary is the object of the original reaction itself, which the
    assignment changes along with the copy; that effect on the original is
    outside the returned value and is not modelled. It does not arise for
    graphs built by [get_atoms_and_bonds], whose keys point to ['[Mol]']
    dictionaries. *)
Definition write_smiles (σ : store) (reaction_copy : reaction)
    (graph : graph_ref Image) : outcome reaction :=
  g ← read_graph σ graph;
  let smiles := convert_graph_to_output g in
  molecules ← getitem (dict_get (r_key graph).1 reaction_copy);
  molecule ← index molecules (r_key graph).2;
  match molecule with
  | Dict e =>
      Ok (dict_set (r_key graph).1
            (<[(r_key graph).2 := Dict (set_smiles smiles e)]> molecules) reaction_copy)
  | List _ => Raise TypeError
  end.

Definition get_replaced_reaction (orig_reaction : reaction)
    (graphs : list (graph_ref Image)) (relevant_locs : located)
    (mappings : gmap string string) (σ : store) : outcome (reaction * store) :=
  acc ← replaced_graphs graphs relevant_locs mappings σ;
  reaction_copy ← copy_reaction orig_reaction;
  reaction_copy ← for_ acc.1 reaction_copy (write_smiles acc.2);
  Ok (reaction_copy, acc.2).

End Substitution.

(** ** Table-driven expander: [process_tables] *)

(** A figure: the image, the table content ([None] if the figure has no
    table) and the page. *)
Record figure (Image : Type) := Figure {
  fig_image : Image;
  fig_table_content : option table_content;
  fig_page : nat;
}.
Arguments Figure {Image}.
Arguments fig_image {Image}.
Arguments fig_table_content {Image}.
Arguments fig_page {Image}.

(** The condition record built from a cell of a column that is not an
    alkyl group column. *)
Definition table_condition (col : column) (entry : cell) : item :=
  Dict (Entity (Some "[Table]") None None
          (Some (cell_text entry)) (Some (col_tag col)) (Some (col_text col))).

(** What the loop over [zip(content['columns'], row)] computes. *)
Record row_scan := RowScan {
  r_groups : gmap string string;
  expanded_conditions : list item;
  replaced : bool;
}.

(** The body of that loop. *)
Definition scan_cell (st : row_scan) (ce : column * cell) : row_scan :=
  let '(col, entry) := ce in
  if decide (col_tag col ≠ "alkyl group") then
    RowScan (r_groups st) (expanded_conditions st ++ [table_condition col entry])
      (replaced st)
  else
    match Re.re_match Re.r_group_pattern (cell_text entry) with
    | Some found =>
        RowScan (<[col_text col := group "group" found]> (r_groups st))
          (expanded_conditions st) true
    | None => st
    end.

(** The loop, started from the conditions of the original reaction. *)
Definition scan_row (conditions : list item) (columns : list column) (row : list cell)
    : row_scan :=
  foldl scan_cell (RowScan ∅ conditions false) (zip columns row).

(** The state of the loop over [content['rows']]: the reactions appended
    to [result['reactions']], the list [conditions_to_extend], and the store
    of the graph objects. *)
Record rows_state := RowsState {
  appended : list reaction;
  conditions_to_extend : list (list item);
  graph_store : store;
}.

Section Expander.
Context {Image : Type}.
Variable crop : Image -> bbox -> Image.
Variable predict_images : list Image -> list mol_output.
Variable convert_graph_to_output : graph Image -> string.

(** The body of the loop over [content['rows']]. *)
Definition process_row (orig_reaction : reaction) (graphs : list (graph_ref Image))
    (relevant_locs : located) (columns : list column)
    (st : rows_state) (row : list cell) : outcome rows_state :=
  conditions ← getitem (dict_get "conditions" orig_reaction);
  let scan := scan_row conditions columns row in
  rs ← get_replaced_reaction convert_graph_to_output orig_reaction graphs
         relevant_locs (r_groups scan) (graph_store st);
  let '(reaction, σ) := rs in
  if replaced scan then
    reactants ← getitem (dict_get "reactants" reaction);
    products ← getitem (dict_get "products" reaction);
    let to_add := [("reactants", reactants);
                   ("conditions", expanded_conditions scan);
                   ("products", products)] in
    Ok (RowsState (appended st ++ [to_add]) (conditions_to_extend st) σ)
  else
    Ok (RowsState (appended st) (conditions_to_extend st ++ [expanded_conditions scan]) σ).

(** The body of the loop over [zip(figures, results)]. The graphs built by
    [get_atoms_and_bonds] are the objects every row's call of
    [get_replaced_reaction] receives; they are put into a store first. *)
Definition process_table (figure : figure Image) (result : figure_result)
    : outcome figure_result :=
  let page := Some (fig_page figure) in
  match fig_table_content figure with
  | None => Ok (Result (reactions result) page)
  | Some content =>
      match reactions result with
      | [] => Ok (Result [] page)
      | orig_reaction :: others =>
          graphs ← get_atoms_and_bonds crop predict_images (fig_image figure) orig_reaction;
          let relevant_locs := find_relevant_groups graphs (columns content) in
          let '(graph_refs, σ) := alloc_graphs ∅ graphs in
          st ← for_ (rows content) (RowsState [] [] σ)
                 (process_row orig_reaction graph_refs relevant_locs (columns content));
          conditions ← getitem (dict_get "conditions" orig_reaction);
          let wrapped := List conditions :: (List <$> conditions_to_extend st) in
          Ok (Result (dict_set "conditions" wrapped orig_reaction :: others ++ appended st)
                page)
      end
  end.

(** [process_tables(figures, results, molscribe)]: the results, updated in
    place, are returned. *)
Fixpoint process_tables (figures : list (figure Image)) (results : list figure_result)
    : outcome (list figure_result) :=
  match figures, results with
  | figure :: figures', result :: results' =>
      r ← process_table figure result;
      rs ← process_tables figures' results';
      Ok (r :: rs)
  | _, _ => Ok results
  end.

End Expander.

(** ** Vocabulary of the properties *)

(** What the second loop maintains: each result only grows at its end. *)
Definition grows (final0 final : list figure_result) : Prop :=
  Forall2 (fun f0 f => reactions f0 `prefix_of` reactions f) final0 final.

(** The candidates in the order the two inner loops visit them: result by
    result, and within a result reaction by reaction. *)
Definition candidates (results : list figure_result) : list reaction :=
  concat (reactions <$> results).

(** What [relabel] does to a reactant, in the words of the design: a
    reactant whose structure string is a key of the map is replaced by the
    dictionary holding the mapped label, any other is kept as it is. *)
Definition relabelled_as (csg : gmap string string) (r r' : item) : Prop :=
  (exists e s label,
      r = Dict e /\ e_smiles e = Some (Some s) /\ csg !! s = Some label /\
      r' = Dict (smiles_only label))
  \/ (r' = r /\
      forall e s, r = Dict e -> e_smiles e = Some (Some s) -> csg !! s = None).

Section Passing.
Context {Mol : Type}.
Variable MolFromSmiles : string -> option Mol.
Variable HasSubstructMatch : Mol -> Mol -> bool.

(** The test a candidate has to pass for an instance to be emitted. *)
Definition passes (prod_smiles : string) (other_rxn : reaction) : bool :=
  match first_product_smiles other_rxn with
  | Ok (Some (Some other_prod_smiles)) =>
      negb (contains "*" other_prod_smiles)
      && similar MolFromSmiles HasSubstructMatch prod_smiles other_prod_smiles
  | _ => false
  end.

End Passing.

(** An [n] by [n] matrix. *)
Definition square (n : nat) (edges : list (list Z)) : Prop :=
  length edges = n /\ Forall (fun row => length row = n) edges.

(** [bond(i, j) == bond(j, i)] for all indices. *)
Definition symmetric (edges : list (list Z)) : Prop :=
  forall i j, entry edges i j = entry edges j i.

(** The invariant of a molecular graph: the adjacency matrix is square,
    its side is the number of atoms, and it is symmetric. *)
Definition adjacency_ok {Image} (g : graph Image) : Prop :=
  square (length (g_symbols g)) (g_edges g) /\ symmetric (g_edges g).

(** A graph as the first loop creates it. *)
Definition blank {Image} (g : graph Image) : Prop :=
  g_symbols g = [] /\ g_edges g = [].

(** A graph key that points to a ['[Mol]'] dictionary of the reaction. *)
Definition points_to_mol (reaction : reaction) (key : string * nat) : Prop :=
  exists molecules e,
    dict_get key.1 reaction = Some molecules /\
    molecules !! key.2 = Some (Dict e) /\
    e_category e = Some "[Mol]".

(** The located positions leave index [idx] of graph [gi] alone: every
    entry that names it carries a symbol that is not a key of the mapping
    (in particular when no entry names it). *)
Definition unmapped (relevant_locs : located) (mappings : gmap string string)
    (gi idx : nat) : Prop :=
  forall atoms sym, (gi, atoms) ∈ relevant_locs -> (sym, idx) ∈ atoms ->
                    mappings !! sym = None.

(** What the relabelling loops maintain, relative to the store [σ1] they
    start in. *)
Definition relabel_inv {Image} (mappings : gmap string string)
    (relevant_locs : located) (graph_copy : list (graph_ref Image))
    (σ1 σ : store) : Prop :=
  (forall l, l ∉ r_symbols <$> graph_copy -> σ !! l = σ1 !! l) /\
  forall gi gc syms1,
    graph_copy !! gi = Some gc -> σ1 !! r_symbols gc = Some (OSymbols syms1) ->
    exists syms,
      σ !! r_symbols gc = Some (OSymbols syms) /\
      length syms = length syms1 /\
      forall idx, unmapped relevant_locs mappings gi idx -> syms !! idx = syms1 !! idx.

(** Whether a row yields a substitution: some alkyl group cell matches the
    pattern. *)
Definition substitutes (columns : list column) (row : list cell) : bool :=
  replaced (scan_row [] columns row).

(** The instance appended for a row that yields a substitution carries
    the row's extended condition list. *)
Definition instance_of_row (conditions : list item) (columns : list column)
    (row : list cell) (to_add : reaction) : Prop :=
  exists reactants products,
    to_add = [("reactants", reactants);
              ("conditions", expanded_conditions (scan_row conditions columns row));
              ("products", products)].


(** ** Stand-ins for the external services, and example data *)

(** A deterministic stand-in for the toolkit: a molecule is its structure
    string, every string parses, and a molecule contains a query when the
    query occurs in it as a contiguous piece. *)
Definition stub_MolFromSmiles (s : string) : option string := Some s.

Fixpoint is_prefix (q m : list ascii) : bool :=
  match q, m with
  | [], _ => true
  | x :: q', y :: m' => Ascii.eqb x y && is_prefix q' m'
  | _ :: _, [] => false
  end.

Fixpoint occurs (q m : list ascii) : bool :=
  is_prefix q m || match m with [] => false | _ :: m' => occurs q m' end.

Definition stub_HasSubstructMatch (mol query : string) : bool :=
  occurs (list_ascii_of_string query) (list_ascii_of_string mol).

Abbreviation stub_backout := (backout stub_MolFromSmiles stub_HasSubstructMatch).

(** A molecule entity with the given structure string. *)
Definition mol (s : string) : item :=
  Dict (Entity (Some "[Mol]") (Some (BBox 0 0 1 1)) (Some (Some s)) None None None).

(** A text condition. *)
Definition txt (s : string) : item :=
  Dict (Entity (Some "[Txt]") (Some (BBox 0 0 1 1)) None (Some s) None None).

(** A reaction with one reactant, one condition and one product. *)
Definition rxn_of (reactant cond product : string) : reaction :=
  [("reactants", [mol reactant]); ("conditions", [txt cond]); ("products", [mol product])].

(** A coreference record with one molecule box and one identifier box. *)
Definition coref_of (smi text : string) : coref_record :=
  CorefRecord (Some [])
    (Some [MolBBox (BBox 0 0 1 1) (Some smi)])
    (IdtList [IdtBBox (BBox 0 0 1 1) (Some text)]).

(** A deterministic stand-in for the recogniser: an image is the list of
    boxes it was cropped by, every molecule image is read as the chain
    C, [R], O with a single and a double bond (the second given with a
    negative index), and a graph is written back as its symbols in a row. *)
Definition stub_crop (image : list bbox) (b : bbox) : list bbox := image ++ [b].

Definition stub_predict_images (images : list (list bbox)) : list mol_output :=
  (fun _ => MolOutput [Atom 0 0 "C"; Atom 1 0 "[R]"; Atom 2 0 "O"]
              [Bond (0, 1)%Z "single"; Bond (-1, 1)%Z "double"]) <$> images.

Definition stub_convert (g : graph (list bbox)) : string :=
  String.concat "" (g_symbols g).

Abbreviation stub_process_tables :=
  (process_tables stub_crop stub_predict_images stub_convert).

(** A table with an alkyl group column and a result column. *)
Definition table_of (rows : list (list cell)) : table_content :=
  TableContent [Column "R" "alkyl group"; Column "Yield" "result"] rows.

Definition figure_of (rows : list (list cell)) : figure (list bbox) :=
  Figure [] (Some (table_of rows)) 3.

(** The graph the stand-in recogniser produces, under a given key. *)
Definition graph_of (key : string * nat) : graph (list bbox) :=
  Graph [] [(0, 0); (1, 0); (2, 0)]%float ["C"; "[R]"; "O"]
    [[0; 1; 0]; [1; 0; 2]; [0; 2; 0]]%Z key.


(** Equality of outcomes is decidable. *)
#[global] Instance outcome_eq_dec {A} `{EqDecision A} : EqDecision (outcome A).
Proof. solve_decision. Defined.


(** ** Further vocabulary *)

(** The lexicographic order on lists of numbers, a proper prefix being
    smaller. *)
Fixpoint lex_lt (l m : list nat) : Prop :=
  match l, m with
  | [], [] => False
  | [], _ :: _ => True
  | _ :: _, [] => False
  | x :: l', y :: m' => x < y \/ (x = y /\ lex_lt l' m')
  end.

(** The characters a regular expression can consume. *)
Fixpoint accepts (r : Re.regex) (c : ascii) : bool :=
  match r with
  | Re.Lit c' => Ascii.eqb c c'
  | Re.Class p => p c
  | Re.Plus p => p c
  | Re.Opt r' => accepts r' c
  | Re.Seq r1 r2 => accepts r1 c || accepts r2 c
  | Re.Group _ r' => accepts r' c
  | Re.Bol => false
  | Re.Eol => false
  end.

(** The characters a table cell can hold for [r_group_pattern] to match:
    word characters, the dash, the blank and the two parentheses. *)
Definition cell_char (c : ascii) : bool :=
  Re.word c || Re.one_of ["-"; " "; "("; ")"]%char c.

(** Whether an element of a reaction list is a ['[Mol]'] dictionary. *)
Definition is_mol (elt : item) : bool :=
  match elt with
  | Dict e => bool_decide (e_category e = Some "[Mol]")
  | List _ => false
  end.

(** The positions of the ['[Mol]'] dictionaries of a reaction, key by key
    and within a key by index. *)
Definition mol_positions (reaction : reaction) : list (string * nat) :=
  kv ← reaction;
  omap (fun ielt : nat * item => if is_mol ielt.2 then Some (kv.1, ielt.1) else None)
    (enumerate kv.2).

(** A bond the adapter can enter into a matrix of side [n]: its type is a
    key of [BOND_TO_INT] and both endpoints are indices of a list of length
    [n], counted from the start or, negative, from the end. *)
Definition valid_bond (n : nat) (b : bond) : Prop :=
  is_Some (dict_get (b_type b) BOND_TO_INT) /\
  (- Z.of_nat n <= (b_endpoints b).1 < Z.of_nat n)%Z /\
  (- Z.of_nat n <= (b_endpoints b).2 < Z.of_nat n)%Z.

(** A graph as the first loop of the adapter creates it: no coordinates,
    no symbols, no edges yet. *)
Definition fresh_graph {Image} (g : graph Image) : Prop :=
  g_coords g = [] /\ g_symbols g = [] /\ g_edges g = [].

(** The symbol list of the graph copy [gc] holds [value] at [idx]. *)
Definition written {Image} (gc : graph_ref Image) (idx : nat) (value : string)
    (σ : store) : Prop :=
  exists syms, σ !! r_symbols gc = Some (OSymbols syms) /\ syms !! idx = Some value.

(** An element that [get_replaced_reaction] can copy: a dictionary, or a
    list of dictionaries. *)
Definition copyable (entity : item) : Prop :=
  match entity with
  | Dict _ => True
  | List l => Forall (fun e => exists d, e = Dict d) l
  end.

(** The cells of a row paired with their columns, as [zip] pairs them. *)
Definition row_cells (columns : list column) (row : list cell) : list (column * cell) :=
  zip columns row.

(** How [get_replaced_reaction] may change the element at index [j] under
    key [k]: not at all, or, where a graph's key names the place, a
    dictionary gets a new ['smiles']. *)
Definition smiles_written (keys : list (string * nat)) (k : string) (j : nat)
    (old new : option item) : Prop :=
  new = old \/
  ((k, j) ∈ keys /\ exists e s, old = Some (Dict e) /\ new = Some (Dict (set_smiles s e))).

(** The relation between the original reaction and the copy that the loop
    over the graph copies keeps. *)
Definition only_smiles (keys : list (string * nat)) (orig rc : reaction) : Prop :=
  rc.*1 = orig.*1 /\
  forall k items, dict_get k orig = Some items ->
    exists items',
      dict_get k rc = Some items' /\ length items' = length items /\
      forall j, smiles_written keys k j (items !! j) (items' !! j).

(** The reactions [emitted] appended to the last of the results. *)
Definition extend_last (emitted : list reaction) (final_results : list figure_result)
    : list figure_result :=
  alter (fun r => Result (reactions r ++ emitted) (page r))
    (length final_results - 1) final_results.

(** What the first loop of [backout] makes of a result. *)
Definition kept (res : figure_result) : figure_result :=
  Result (filter (fun rxn => no_rgroup rxn = Ok true) (reactions res)) None.

Section Emission.
Context {Mol : Type}.
Variable MolFromSmiles : string -> option Mol.
Variable HasSubstructMatch : Mol -> Mol -> bool.

(** Where an instance emitted by [backout] comes from: a reaction of a
    result with usable coreference data whose first product has a ["*"],
    for which some candidate passes the test. The instance has that
    reaction's reactants and products and nothing else. *)
Definition emitted_from (results : list figure_result) (coref_results : list coref_record)
    (new_rxn : reaction) : Prop :=
  exists i res c rxn prod_smiles other_rxn reactants products,
    results !! i = Some res /\ clean_corefs coref_results i = Ok (Some c) /\
    rxn ∈ reactions res /\
    first_product_smiles rxn = Ok (Some (Some prod_smiles)) /\
    contains "*" prod_smiles = true /\
    other_rxn ∈ candidates results /\
    passes MolFromSmiles HasSubstructMatch prod_smiles other_rxn = true /\
    dict_get "reactants" rxn = Some reactants /\
    dict_get "products" rxn = Some products /\
    new_rxn = [("reactants", reactants); ("products", products)].

End Emission.

(** A regular expression without groups. *)
Fixpoint group_free (r : Re.regex) : bool :=
  match r with
  | Re.Opt r' => group_free r'
  | Re.Seq r1 r2 => group_free r1 && group_free r2
  | Re.Group _ _ => false
  | _ => true
  end.

(** The characters of a label that [clean_corefs] extracts. *)
Definition label_char (c : ascii) : bool := Re.word c || Re.one_of ["."%char] c.

(** The characters of a group that [clean_corefs] extracts. *)
Definition group_char (c : ascii) : bool := Re.one_of ["["; "]"; "-"]%char c || Re.word c.

(** The names of the groups of a regular expression. *)
Fixpoint group_names (r : Re.regex) : list string :=
  match r with
  | Re.Opt r' => group_names r'
  | Re.Seq r1 r2 => group_names r1 ++ group_names r2
  | Re.Group name r' => name :: group_names r'
  | _ => []
  end.

(** The characters of a substituent that [process_tables] reads from a
    table cell. *)
Definition substituent_char (c : ascii) : bool := Re.word c || Re.one_of ["-"%char] c.

(** What the table expansion makes of an atom symbol: the symbol of an atom
    whose symbol is the bracketed header of an alkyl group column is replaced
    by the value the mapping has for the header, if it has one. *)
Definition substituted (columns : list column) (mappings : gmap string string)
    (atom : string) : string :=
  if decide (atom ∈ (fun col => "[" +:+ col_text col +:+ "]")
                      <$> filter (fun col => col_tag col = "alkyl group") columns)
  then default atom (mappings !! strip_ends atom)
  else atom.

(** ** R-groups named in a figure: [replace_rgroups_in_figure] *)

Module FigureRGroups.

(** ['text'] of a coreference box. The function iterates over it, which
    gives the elements of a list and the characters of a string. *)
Inductive text_field :=
| Str (s : string)
| Lines (l : list string).

(** [for text in bbox['text']] *)
Definition iterate (t : text_field) : list string :=
  match t with
  | Str s => (fun c => String c EmptyString) <$> list_ascii_of_string s
  | Lines l => l
  end.

(** A box of [corefs['bboxes']], with the two keys the function reads. *)
Record coref_bbox := CorefBBox {
  category : option string;
  text : option text_field;
}.

(** An element of [coref_results]. *)
Record corefs := Corefs { bboxes : option (list coref_bbox) }.

(** [\d] on ASCII text. *)
Definition digit (c : ascii) : bool := Re.in_range "0" "9" c.

(** [pattern]: [(?P<name>[RXY]\d?)[ ]*=[ ]*(?P<group>\w+)]. The greedy
    [[ ]*] is written as an optional greedy [[ ]+], which tries the same
    numbers of blanks in the same order. *)
Definition pattern : Re.regex :=
  Re.Seq (Re.Group "name"
            (Re.Seq (Re.Class (Re.one_of ["R"; "X"; "Y"]%char)) (Re.Opt (Re.Class digit))))
    (Re.Seq (Re.Opt (Re.Plus (Re.one_of [" "%char])))
       (Re.Seq (Re.Lit "=")
          (Re.Seq (Re.Opt (Re.Plus (Re.one_of [" "%char])))
             (Re.Group "group" (Re.Plus Re.word))))).

(** The scan of [pattern.search(text)]: the first offset, from the left,
    at which the pattern matches. *)
Fixpoint search_from (r : Re.regex) (pos : nat) (s : list ascii) : option Re.groups :=
  match Re.exec r pos s ∅ Re.accept with
  | Some (_, gs) => Some gs
  | None =>
      match s with
      | [] => None
      | _ :: s' => search_from r (S pos) s'
      end
  end.

(** [pattern.search(text)] *)
Definition search (r : Re.regex) (text : string) : option Re.groups :=
  search_from r 0 (list_ascii_of_string text).

(** The state of the loop over the boxes: the one-entry dictionaries
    [{name: group}] of [r_groups], as pairs, and the set of pairs seen. *)
Record found := Found {
  r_groups : list (string * string);
  seen_r_groups : gset (string * string);
}.

(** The body of the loop over [bbox['text']]. *)
Definition scan_text (st : found) (text : string) : found :=
  match search pattern text with
  | None => st
  | Some res =>
      let name := group "name" res in
      let group := group "group" res in
      if decide ((name, group) ∈ seen_r_groups st) then st
      else Found (r_groups st ++ [(name, group)]) ({[(name, group)]} ∪ seen_r_groups st)
  end.

(** The body of the loop over [corefs['bboxes']]. *)
Definition scan_bbox (st : found) (bbox : coref_bbox) : outcome found :=
  category ← getitem (category bbox);
  if decide (category = "[Idt]") then
    text ← getitem (text bbox);
    Ok (foldl scan_text st (iterate text))
  else Ok st.

(** The located positions the function builds itself: the atoms whose
    symbol without its first and last character is a name of [names]. *)
Definition locate {Image} (names : gset string) (graphs : list (graph Image)) : located :=
  imap
    (fun i graph =>
       (i, omap (fun ja => if decide (strip_ends ja.2 ∈ names)
                           then Some (strip_ends ja.2, ja.1) else None)
             (enumerate (g_symbols graph))))
    graphs.

Section Expander.
Context {Image : Type}.
Variable crop : Image -> bbox -> Image.
Variable predict_images : list Image -> list mol_output.
Variable convert_graph_to_output : graph Image -> string.

(** The body of the loop over [r_groups]; the state holds the instances
    appended so far and the store of the graph objects. *)
Definition add_instance (orig_reaction : reaction) (graphs : list (graph_ref Image))
    (relevant_locs : located) (st : list reaction * store) (r_group : string * string)
    : outcome (list reaction * store) :=
  rs ← get_replaced_reaction convert_graph_to_output orig_reaction graphs
         relevant_locs {[r_group.1 := r_group.2]} st.2;
  reactants ← getitem (dict_get "reactants" rs.1);
  conditions ← getitem (dict_get "conditions" orig_reaction);
  products ← getitem (dict_get "products" rs.1);
  let to_add := [("reactants", reactants);
                 ("conditions", conditions);
                 ("products", products)] in
  Ok (st.1 ++ [to_add], rs.2).

(** The body of the loop over [zip(figures, results, coref_results)]. *)
Definition replace_in_figure (figure : figure Image) (result : figure_result)
    (corefs : corefs) : outcome figure_result :=
  boxes ← getitem (bboxes corefs);
  st ← for_ boxes (Found [] ∅) scan_bbox;
  match r_groups st, reactions result with
  | _ :: _, orig_reaction :: _ =>
      let names : gset string := set_map fst (seen_r_groups st) in
      graphs ← get_atoms_and_bonds crop predict_images (fig_image figure) orig_reaction;
      let relevant_locs := locate names graphs in
      let '(graph_refs, σ) := alloc_graphs ∅ graphs in
      out ← for_ (r_groups st) ([], σ) (add_instance orig_reaction graph_refs relevant_locs);
      Ok (Result (reactions result ++ out.1) (page result))
  | _, _ => Ok result
  end.

(** [replace_rgroups_in_figure(figures, results, coref_results, molscribe)]:
    the results, updated in place, are returned. *)
Fixpoint replace_rgroups_in_figure (figures : list (figure Image))
    (results : list figure_result) (coref_results : list corefs)
    : outcome (list figure_result) :=
  match figures, results, coref_results with
  | figure :: figures', result :: results', corefs :: coref_results' =>
      r ← replace_in_figure figure result corefs;
      rs ← replace_rgroups_in_figure figures' results' coref_results';
      Ok (r :: rs)
  | _, _, _ => Ok results
  end.

End Expander.

(** A text in which the pattern can be found: it has an equals sign and
    at least three characters. *)
Definition can_assign (text : string) : bool :=
  contains "=" text && (3 <=? String.length text).

(** The pair [(name, group)] is what the pattern finds in a text of an
    identifier box of [boxes]. *)
Definition named_in (boxes : list coref_bbox) (pair : string * string) : Prop :=
  exists bbox t text res,
    bbox ∈ boxes /\ category bbox = Some "[Idt]" /\ FigureRGroups.text bbox = Some t /\
    text ∈ iterate t /\ search pattern text = Some res /\
    pair = (group "name" res, group "group" res).

(** A box none of whose texts can hold an assignment. *)
Definition silent (bbox : coref_bbox) : Prop :=
  forall t, text bbox = Some t -> Forall (fun text => can_assign text = false) (iterate t).

(** The pairs found are distinct and [seen_r_groups] is their set. *)
Definition found_ok (st : found) : Prop :=
  NoDup (r_groups st) /\ forall pair, pair ∈ seen_r_groups st <-> pair ∈ r_groups st.

(** An instance appended for an R-group assignment: the reactants and
    products of a substituted copy, and the conditions of the original. *)
Definition instance_of (orig_reaction : reaction) (to_add : reaction) : Prop :=
  exists reactants conditions products,
    dict_get "conditions" orig_reaction = Some conditions /\
    to_add = [("reactants", reactants); ("conditions", conditions); ("products", products)].

(** A box the scan reads without exception: it has a category and, if it
    is an identifier box, a text. *)
Definition readable (bbox : coref_bbox) : Prop :=
  exists c, category bbox = Some c /\ (c = "[Idt]" -> is_Some (text bbox)).

End FigureRGroups.

(** ** Query enumeration: [query_enumeration] *)

Module Enumeration.
Section Toolkit.
(** The toolkit's editable molecules. *)
Context {Mol : Type}.
(** [Chem.RWMol(mol)] *)
Variable RWMol : Mol -> Mol.
(** [query.GetAtomWithIdx(idx).SetAtomicNum(6)] followed by
    [query.GetAtomWithIdx(idx).SetNoImplicit(True)]; the toolkit raises for
    an index that names no atom. *)
Variable set_carbon : Mol -> nat -> outcome Mol.
(** [Chem.MolToSmiles(query)] *)
Variable MolToSmiles : Mol -> string.

(** [r_sites_reversed_new[i]], which raises for an [i] the container does
    not hold. *)
Variable r_sites_reversed_new : nat -> outcome nat.

(** The loop that fills [r_group_indices]. *)
Definition r_group_indices (num_r_groups : nat) (subset : list nat) : outcome (list nat) :=
  for_ (seq 0 num_r_groups) []
    (fun r_group_indices i =>
       if decide (i ∈ subset) then Ok r_group_indices
       else idx ← r_sites_reversed_new i; Ok (r_group_indices ++ [idx])).

(** [results[subset] = smiles]: [subset] is a list, as [generate_subsets]
    makes it, and a list cannot be a key of a dictionary. *)
Definition setitem (results : list (list nat * string)) (subset : list nat)
    (smiles : string) : outcome (list (list nat * string)) :=
  Raise TypeError.

(** The body of the loop over [subsets]. *)
Definition enumerate_subset (prod_template_mol_query : Mol) (num_r_groups : nat)
    (results : list (list nat * string)) (subset : list nat)
    : outcome (list (list nat * string)) :=
  let query := RWMol prod_template_mol_query in
  indices ← r_group_indices num_r_groups subset;
  query ← for_ indices query set_carbon;
  setitem results subset (MolToSmiles query).

(** [query_enumeration(prod_template_mol_query, r_sites_reversed_new,
    num_r_groups)]; [None] stands for a recursion depth exceeded in
    [generate_subsets]. *)
Definition query_enumeration (prod_template_mol_query : Mol) (num_r_groups : nat)
    : option (outcome (list (list nat * string))) :=
  subsets ← Subsets.generate_subsets num_r_groups;
  Some (for_ subsets [] (enumerate_subset prod_template_mol_query num_r_groups)).

End Toolkit.
End Enumeration.

(** ** Detected molecule boxes: [clean_bbox_output] *)

Module BBoxOutput.

(** An element of a figure's detector output, with the three keys the
    function reads. *)
Record detection := Detection {
  d_category : option string;
  d_bbox : option bbox;
  d_score : option float;
}.

(** [cur_mol]: the dictionary made for a detected molecule. *)
Record molecule (Image : Type) := Molecule {
  m_bbox : bbox;
  m_score : float;
  m_image : Image;
}.
Arguments Molecule {Image}.
Arguments m_bbox {Image}.
Arguments m_score {Image}.
Arguments m_image {Image}.

(** [data]: the dictionary made for a figure. *)
Record data (Image : Type) := Data {
  image : Image;
  molecules : list (molecule Image);
}.
Arguments Data {Image}.
Arguments image {Image}.
Arguments molecules {Image}.

(** [[elt[field] for elt in output if elt['category'] == '[Mol]']] *)
Definition mol_values {A} (field : detection -> option A) (output : list detection)
    : outcome (list A) :=
  for_ output []
    (fun values elt =>
       category ← getitem (d_category elt);
       if decide (category = "[Mol]") then
         value ← getitem (field elt); Ok (values ++ [value])
       else Ok values).

Section Cleaner.
Context {Image : Type}.
(** [crop figure bbox]: the figure's array sliced by the box scaled with
    the figure's height and width. *)
Variable crop : Image -> bbox -> Image.

(** The three lists the function fills. *)
Record cleaned := Cleaned {
  results : list (data Image);
  cropped : list Image;
  references : list (molecule Image);
}.

(** The body of the loop over [enumerate(bboxes)]. *)
Definition clean_output (figures : list Image) (st : cleaned)
    (ioutput : nat * list detection) : outcome cleaned :=
  mol_bboxes ← mol_values d_bbox ioutput.2;
  mol_scores ← mol_values d_score ioutput.2;
  figure ← index figures ioutput.1;
  let new := (fun bs : bbox * float => Molecule bs.1 bs.2 (crop figure bs.1))
               <$> zip mol_bboxes mol_scores in
  Ok (Cleaned (results st ++ [Data figure new])
        (cropped st ++ (m_image <$> new))
        (references st ++ new)).

(** [clean_bbox_output(figures, bboxes)] *)
Definition clean_bbox_output (figures : list Image) (bboxes : list (list detection))
    : outcome cleaned :=
  for_ (enumerate bboxes) (Cleaned [] [] []) (clean_output figures).

End Cleaner.

Arguments Cleaned {Image}.
Arguments results {Image}.
Arguments cropped {Image}.
Arguments references {Image}.

(** The molecule made for a detected box of a figure. *)
Definition molecule_of {Image} (crop : Image -> bbox -> Image) (figure : Image)
    (elt : detection) (m : molecule Image) : Prop :=
  d_bbox elt = Some (m_bbox m) /\ d_score elt = Some (m_score m) /\
  m_image m = crop figure (m_bbox m).

End BBoxOutput.

(** ** Expansion within a figure: [expand_reactions_with_backout] *)

Section ExpandWithBackout.
Context {Mol : Type}.
Variable MolFromSmiles : string -> option Mol.
Variable HasSubstructMatch : Mol -> Mol -> bool.
(** [expand_r_group_label_helper(res, coref_smiles_to_graphs, other_prod,
    molscribe)], called with the pair [(None, prod_smiles_no_r)] for
    [other_prod], of which it reads the second component; it works on a deep
    copy of [res] and returns [None] or the changed copy. *)
Variable expand_r_group_label_helper :
  reaction -> pydict string -> string -> outcome (option reaction).

(** The body of the loop over the candidates [other_rxn]. The toolkit
    rejects [None] as the argument of [HasSubstructMatch]. *)
Definition expand_other (coref_smiles : pydict string) (prod_smiles_with_r : string)
    (reactions_to_add : list reaction) (other_rxn : reaction) : outcome (list reaction) :=
  s ← first_product_smiles other_rxn;
  match s with
  | Some (Some prod_smiles_no_r) =>
      if contains "*" prod_smiles_no_r then Ok reactions_to_add else
      match MolFromSmiles prod_smiles_no_r with
      | None => Ok reactions_to_add
      | Some prod_mol_no_r =>
          match MolFromSmiles (replace "*" "C" prod_smiles_with_r) with
          | None => Raise TypeError
          | Some prod_mol_with_r_no_r =>
              if HasSubstructMatch prod_mol_no_r prod_mol_with_r_no_r then
                new_rxn ← expand_r_group_label_helper other_rxn coref_smiles
                            prod_smiles_no_r;
                match new_rxn with
                | Some new_rxn => Ok (reactions_to_add ++ [new_rxn])
                | None => Ok reactions_to_add
                end
              else Ok reactions_to_add
          end
      end
  | _ => Ok reactions_to_add
  end.

(** The body of the loop over [res['reactions']]. *)
Definition expand_rxn (coref_smiles : pydict string) (res : figure_result)
    (reactions_to_add : list reaction) (rxn : reaction) : outcome (list reaction) :=
  s ← first_product_smiles rxn;
  match s with
  | Some (Some prod_smiles_with_r) =>
      if contains "*" prod_smiles_with_r then
        match MolFromSmiles prod_smiles_with_r with
        | None => Ok reactions_to_add
        | Some _ =>
            for_ (reactions res) reactions_to_add
              (expand_other coref_smiles prod_smiles_with_r)
        end
      else Ok reactions_to_add
  | _ => Ok reactions_to_add
  end.

(** The body of the first loop: the list [res['reactions_to_add']]. *)
Definition reactions_to_add (results_coref : list coref_record)
    (ires : nat * figure_result) : outcome (list reaction) :=
  coref_res ← clean_corefs results_coref ires.1;
  match coref_res with
  | None => Ok []
  | Some (mol_bboxes_text, coref_smiles, bboxes) =>
      for_ (reactions ires.2) [] (expand_rxn coref_smiles ires.2)
  end.

(** The body of the second loop. *)
Definition extend (res : figure_result) (to_add : list reaction) : figure_result :=
  Result (reactions res ++ to_add) (page res).

(** [expand_reactions_with_backout(initial_results, results_coref,
    molscribe)]: the function works on a deep copy of [initial_results]; the
    recogniser argument is only handed on. *)
Definition expand_reactions_with_backout (initial_results : list figure_result)
    (results_coref : list coref_record) : outcome (list figure_result) :=
  to_add ← comprehension (reactions_to_add results_coref) (enumerate initial_results);
  Ok (zip_with extend initial_results to_add).

(** Where an instance added to the result [res] at index [i] comes from:
    the helper made it from a reaction of the same result whose first product
    has a structure string without ["*"], for a reaction of the same result
    whose first product has one with ["*"]. *)
Definition expanded_from (results_coref : list coref_record) (i : nat)
    (res : figure_result) (new_rxn : reaction) : Prop :=
  exists mol_bboxes_text coref_smiles bboxes rxn prod_smiles_with_r other_rxn
         prod_smiles_no_r,
    clean_corefs results_coref i = Ok (Some (mol_bboxes_text, coref_smiles, bboxes)) /\
    rxn ∈ reactions res /\
    first_product_smiles rxn = Ok (Some (Some prod_smiles_with_r)) /\
    contains "*" prod_smiles_with_r = true /\
    other_rxn ∈ reactions res /\
    first_product_smiles other_rxn = Ok (Some (Some prod_smiles_no_r)) /\
    contains "*" prod_smiles_no_r = false /\
    expand_r_group_label_helper other_rxn coref_smiles prod_smiles_no_r
      = Ok (Some new_rxn).

End ExpandWithBackout.

(** ** Stores that hold the lists of a graph *)

(** Two objects of the same shape: symbol lists of the same length, or
    the same object. *)
Definition same_shape (o o' : obj) : Prop :=
  match o with
  | OSymbols syms => exists syms', o' = OSymbols syms' /\ length syms' = length syms
  | _ => o' = o
  end.

(** Every object of [σ] is in [σ'] with the same shape. *)
Definition shape_le (σ σ' : store) : Prop :=
  forall l o, σ !! l = Some o -> exists o', σ' !! l = Some o' /\ same_shape o o'.

(** The lists of the graph [g] are in the store, and the graph has [n]
    symbols. *)
Definition graph_in {Image} (σ : store) (g : graph_ref Image) (n : nat) : Prop :=
  (exists coords, σ !! r_coords g = Some (OCoords coords)) /\
  (exists syms, σ !! r_symbols g = Some (OSymbols syms) /\ length syms = n) /\
  exists rows, σ !! r_edges g = Some (OEdges rows) /\
               Forall (fun l => exists row, σ !! l = Some (ORow row)) rows.

(** A dictionary with a ['category']. *)
Definition has_category (entity : item) : Prop :=
  match entity with
  | Dict e => is_Some (e_category e)
  | List _ => False
  end.

(** An element of a reaction that [get_replaced_reaction] copies without
    exception: a dictionary with a category, or a list of such. *)
Definition can_copy (entity : item) : Prop :=
  match entity with
  | Dict e => is_Some (e_category e)
  | List l => Forall has_category l
  end.

(** A reaction that the expander can work on: a dictionary with the three
    keys whose elements can be copied. *)
Definition well_formed (orig_reaction : reaction) : Prop :=
  NoDup orig_reaction.*1 /\
  is_Some (dict_get "reactants" orig_reaction) /\
  is_Some (dict_get "conditions" orig_reaction) /\
  is_Some (dict_get "products" orig_reaction) /\
  forall k v, (k, v) ∈ orig_reaction -> Forall can_copy v.

(** The located positions are within the graphs, whose numbers of symbols
    are [ns]. *)
Definition within (relevant_locs : located) (ns : list nat) : Prop :=
  forall gi atoms sym idx,
    (gi, atoms) ∈ relevant_locs -> (sym, idx) ∈ atoms ->
    exists n, ns !! gi = Some n /\ idx < n.

(** The key of a graph names a dictionary of the reaction. *)
Definition names_dict {Image} (orig_reaction : reaction) (g : graph_ref Image) : Prop :=
  exists molecules e,
    dict_get (r_key g).1 orig_reaction = Some molecules /\
    molecules !! (r_key g).2 = Some (Dict e).

(** ** What [backout] reads *)

(** A reaction [backout] reads without exception: its first product and
    all its reactants are dictionaries. *)
Definition readable_reaction (rxn : reaction) : Prop :=
  (exists p rest, dict_get "products" rxn = Some (Dict p :: rest)) /\
  exists reactants,
    dict_get "reactants" rxn = Some reactants /\
    Forall (fun r => exists e, r = Dict e) reactants.

(** A coreference record [clean_corefs] reads without exception: if it has
    molecule boxes, there is a first one, all have a structure string unless
    the first has none, and, if the identifier boxes are a list, each has a
    text and the record has its boxes. *)
Definition usable_record (res : coref_record) : Prop :=
  match cr_mol_bboxes res with
  | None => True
  | Some mol_bboxes =>
      (exists first rest,
         mol_bboxes = first :: rest /\
         (mb_smiles first = None \/ Forall (fun b => is_Some (mb_smiles b)) mol_bboxes)) /\
      match cr_idt_bboxes res with
      | IdtList idt_bboxes =>
          Forall (fun b => is_Some (ib_text b)) idt_bboxes /\ is_Some (cr_bboxes res)
      | _ => True
      end
  end.

(** ** The walk over a molecule that collects a fragment *)

(** [expand_r_group_label_helper] and [get_r_group_frags_and_substitute]
    hold the same loop: a queue [q] that starts with one atom, a set of the
    atoms seen, and a [head] that runs through the queue; the neighbours of
    the atom at [head] that are neither seen nor excluded join the queue.
    The excluded atoms are [seen_idx] in the first function and the keys of
    [other_prod_to_query] in the second. *)
Module Component.
Section Walk.
(** The indices of [other_prod_mol.GetAtomWithIdx(cur).GetNeighbors()]. *)
Variable neighbors : nat -> list nat.
Variable excluded : gset nat.

(** The body of the loop over the neighbours: the state is [q] and the
    set of the atoms seen. *)
Definition visit (st : list nat * gset nat) (n : nat) : list nat * gset nat :=
  if decide ((n ∉ st.2) /\ (n ∉ excluded)) then (st.1 ++ [n], {[n]} ∪ st.2) else st.

(** [while head < len(q)]; [fuel] bounds the number of passes and [None]
    means the bound was hit. *)
Fixpoint while (fuel : nat) (q : list nat) (seen : gset nat) (head : nat)
    : option (list nat) :=
  match fuel with
  | 0 => None
  | S fuel' =>
      match q !! head with
      | None => Some q
      | Some cur =>
          let st := foldl visit (q, seen) (neighbors cur) in
          while fuel' st.1 st.2 (S head)
      end
  end.

(** The queue after the loop, for the start atom [start]. *)
Definition component (fuel : nat) (start : nat) : option (list nat) :=
  while fuel [start] {[start]} 0.

(** One step from an atom to a neighbour that is not excluded. *)
Definition step (a b : nat) : Prop := b ∈ neighbors a /\ b ∉ excluded.

(** The atoms that can be reached from [start] by such steps. *)
Definition reachable (start : nat) : nat -> Prop := rtc step start.

(** What holds of the queue and the set at every point of the walk, in a
    molecule whose atoms are numbered below [bound]. *)
Definition queue_ok (start bound : nat) (st : list nat * gset nat) : Prop :=
  NoDup st.1 /\
  (forall x, x ∈ st.2 <-> x ∈ st.1) /\
  forall x, x ∈ st.1 -> reachable start x /\ x < bound.

(** The atoms before [head] have all their steps within the queue. *)
Definition closed_below (q : list nat) (head : nat) : Prop :=
  forall i a b, i < head -> q !! i = Some a -> step a b -> b ∈ q.

End Walk.
End Component.

(** ** Coreference association: [associate_corefs] *)

Module Associate.

(** A reaction dictionary: the lists under ['reactants'] and ['products'],
    whose elements are objects of the store; [None] stands for an absent
    key. *)
Record rxn := Rxn {
  reactants : option (list loc);
  products : option (list loc);
}.

(** The objects the function changes or reads through a reference: the
    list under ['reactions'] of a result, to which it appends while it runs
    through it; a dictionary of a reactant or product, of which only
    ['smiles'] matters (absent, [None] or a string); and any other element of
    a reactant or product list. *)
Inductive obj :=
| OReactions (l : list rxn)
| OEntity (smiles : option (option string))
| OList.

Abbreviation store := (gmap loc obj).

(** [entity.keys()] and [entity['smiles']] for the element at [l]. *)
Definition entity_smiles (σ : store) (l : loc) : outcome (option (option string)) :=
  match σ !! l with
  | Some (OEntity smiles) => Ok smiles
  | Some _ => Raise AttributeError
  | None => Raise TypeError
  end.

(** The value of [rxn['products'][0]] under ['smiles']. *)
Definition first_product (σ : store) (rxn : rxn) : outcome (option (option string)) :=
  products ← getitem (products rxn);
  p ← index products 0;
  entity_smiles σ p.

(** The body of the loop over [new_rxn['reactants']]. *)
Definition rewrite_reactant (r_label smiles : string) (σ : store) (reactant : loc)
    : outcome store :=
  old ← entity_smiles σ reactant;
  match old with
  | Some (Some old) =>
      if decide (old = "[" +:+ r_label +:+ "]")
      then Ok (<[reactant := OEntity (Some (Some smiles))]> σ)
      else Ok σ
  | _ => Ok σ
  end.

(** [res['reactions'].append(new_rxn)] on the list at [l]. *)
Definition append (l : loc) (new_rxn : rxn) (σ : store) : outcome store :=
  match σ !! l with
  | Some (OReactions rs) => Ok (<[l := OReactions (rs ++ [new_rxn])]> σ)
  | _ => Raise TypeError
  end.

(** The loop that fills [r_group_smiles]. *)
Definition collect (coref_smiles : pydict string) (r_labels : list string)
    : pydict string :=
  foldl (fun r_group_smiles r_label =>
           match dict_get r_label coref_smiles with
           | Some smiles => dict_set r_label smiles r_group_smiles
           | None => r_group_smiles
           end)
    [] r_labels.

Section Toolkit.
Context {Mol : Type}.
Variable MolFromSmiles : string -> option Mol.
(** The ['dummyLabel'] of every atom of atomic number 0, in the order of
    [GetAtoms()]; the toolkit raises for such an atom without the property. *)
Variable dummy_labels : Mol -> outcome (list string).

(** The body of the loop over [res['reactions']], the list at [l]. *)
Definition associate_rxn (coref_smiles : pydict string) (l : loc) (σ : store)
    (rxn : rxn) : outcome store :=
  s ← first_product σ rxn;
  match s with
  | Some (Some prod_smiles) =>
      if contains "*" prod_smiles then
        match MolFromSmiles prod_smiles with
        | None => Raise AttributeError
        | Some prod_mol =>
            r_labels ← dummy_labels prod_mol;
            let r_group_smiles := collect coref_smiles r_labels in
            reactants ← getitem (reactants rxn);
            products ← getitem (products rxn);
            σ ← for_ r_group_smiles σ
                  (fun σ kv => for_ reactants σ (rewrite_reactant kv.1 kv.2));
            append l (Rxn (Some reactants) (Some products)) σ
        end
      else Ok σ
  | _ => Ok σ
  end.

(** [for rxn in res['reactions']], for the list at [l]: the loop takes
    the element at the next index as long as the list, which may have grown,
    has one. [fuel] bounds the number of passes and [None] means the bound
    was hit. *)
Fixpoint reactions_loop (fuel : nat) (coref_smiles : pydict string) (l : loc)
    (k : nat) (σ : store) : option (outcome store) :=
  match fuel with
  | 0 => None
  | S fuel' =>
      match σ !! l with
      | Some (OReactions rs) =>
          match rs !! k with
          | None => Some (Ok σ)
          | Some rxn =>
              match associate_rxn coref_smiles l σ rxn with
              | Ok σ' => reactions_loop fuel' coref_smiles l (S k) σ'
              | Raise e => Some (Raise e)
              end
          end
      | _ => Some (Raise TypeError)
      end
  end.

(** The loop over [enumerate(results)], from index [i] on; a result is
    given by the location of its ['reactions'] list, [None] if it has
    none. *)
Fixpoint associate_results (fuel : nat) (results_coref : list coref_record) (i : nat)
    (results : list (option loc)) (σ : store) : option (outcome store) :=
  match results with
  | [] => Some (Ok σ)
  | res :: results' =>
      match clean_corefs results_coref i with
      | Raise e => Some (Raise e)
      | Ok None => associate_results fuel results_coref (S i) results' σ
      | Ok (Some (mol_bboxes_text, coref_smiles, bboxes)) =>
          match res with
          | None => Some (Raise KeyError)
          | Some l =>
              match reactions_loop fuel coref_smiles l 0 σ with
              | Some (Ok σ') => associate_results fuel results_coref (S i) results' σ'
              | stopped => stopped
              end
          end
      end
  end.

(** [associate_corefs(results, results_coref)]: the store it leaves when
    it returns. *)
Definition associate_corefs (fuel : nat) (results : list (option loc))
    (results_coref : list coref_record) (σ : store) : option (outcome store) :=
  associate_results fuel results_coref 0 results σ.

End Toolkit.

(** The element at [p] is a dictionary whose ['smiles'] holds a ["*"]. *)
Definition wild (σ : store) (p : loc) : Prop :=
  exists s, σ !! p = Some (OEntity (Some (Some s))) /\ contains "*" s = true.

(** The list at [l] holds, at index [k] or later, a reaction whose first
    product is such a dictionary. *)
Definition pending (σ : store) (l : loc) (k : nat) : Prop :=
  exists rs k' rxn p ps,
    σ !! l = Some (OReactions rs) /\ k <= k' /\ rs !! k' = Some rxn /\
    products rxn = Some (p :: ps) /\ wild σ p.

(** What every step of the function keeps: a dictionary with a ["*"] in
    its ['smiles'] stays as it is, and a list of reactions only grows at its
    end. *)
Definition keeps (σ σ' : store) : Prop :=
  (forall p, wild σ p -> wild σ' p) /\
  forall l rs, σ !! l = Some (OReactions rs) ->
               exists rs', σ' !! l = Some (OReactions (rs ++ rs')).

(** No label of the dictionary holds a ["*"]. *)
Definition plain_labels (coref_smiles : pydict string) : Prop :=
  forall label smiles, (label, smiles) ∈ coref_smiles -> contains "*" label = false.

End Associate.

(** ** Figure extraction from pages: [get_figures_from_pages] *)

Module PageFigures.

(** A figure of a document: [{'image': ..., 'page': ...}]. *)
Record page_figure (Picture : Type) := PageFigure { image : Picture; page : nat }.
Arguments PageFigure {Picture}.
Arguments image {Picture}.
Arguments page {Picture}.

Section Extractor.
(** The page images, the arrays, the layout blocks and the figure images;
    [np.asarray], [pdfparser.detect], a block's [type] and [crop_image], and
    [Image.fromarray]. *)
Context {Page Array Block Picture : Type}.
Variable asarray : Page -> Array.
Variable detect : Array -> list Block.
Variable block_type : Block -> string.
Variable crop_image : Block -> Array -> Array.
Variable fromarray : Array -> Picture.

Definition get_figures_from_pages (pages : list Page) : outcome (list (page_figure Picture)) :=
  for_ (seq 0 (length pages)) []
    (fun figures i =>
       page_i ← index pages i;
       let img := asarray page_i in
       let layout := detect img in
       let blocks := filter (fun b => block_type b = "Figure") layout in
       Ok (foldl (fun figures block =>
                    let figure := fromarray (crop_image block img) in
                    figures ++ [PageFigure figure i])
             figures blocks)).

(** The figure images of one page: the crops of its blocks of type
    ["Figure"], in the order of the layout. *)
Definition crops (p : Page) : list Picture :=
  (fun b => fromarray (crop_image b (asarray p)))
    <$> filter (fun b => block_type b = "Figure") (detect (asarray p)).

End Extractor.

End PageFigures.
(** ** Reasoning about loops *)

Lemma bind_Ok {A B} (m : outcome A) (f : A -> outcome B) b :
  m ≫= f = Ok b -> exists a, m = Ok a /\ f a = Ok b.
Proof. destruct m as [a|e]; simpl; [eauto|discriminate]. Qed.

(** Takes a successful bind in hypothesis [H] apart. *)
Tactic Notation "ok_bind" ident(H) :=
  let a := fresh "v" in
  let Ha := fresh "Hv" in
  apply bind_Ok in H as (a & Ha & H).
Tactic Notation "ok_bind" ident(H) "as" ident(a) ident(Ha) :=
  apply bind_Ok in H as (a & Ha & H).

(** A loop invariant holds after a loop that ends normally. *)
Lemma for_inv {S A} (I : S -> Prop) (l : list A) body (st st' : S) :
  (forall st a st', a ∈ l -> I st -> body st a = Ok st' -> I st') ->
  I st -> for_ l st body = Ok st' -> I st'.
Proof.
  revert st; induction l as [|a l IH]; intros st Hbody HI Hfor; simpl in Hfor.
  - by injection Hfor as <-.
  - ok_bind Hfor. eapply IH; [| |exact Hfor].
    + intros ? ? ? ?; apply Hbody. by apply elem_of_cons; right.
    + eapply Hbody; [|exact HI|exact Hv]. by apply elem_of_cons; left.
Qed.

Lemma comprehension_Forall2 {A B} (f : A -> outcome B) l out :
  comprehension f l = Ok out -> Forall2 (fun a b => f a = Ok b) l out.
Proof.
  revert out; induction l as [|a l IH]; intros out H; simpl in H.
  - injection H as <-. constructor.
  - ok_bind H. ok_bind H. injection H as <-. constructor; auto.
Qed.

(** ** Properties of the subset enumeration *)

Section SubsetsFacts.
Import Subsets.

Lemma enum_head d start : exists t, enum d start = [] :: t.
Proof. destruct d; simpl; eauto. Qed.

Lemma enum_length d start : length (enum d start) = 2 ^ d.
Proof.
revert start; induction d as [|d IH]; intros start; simpl; [done|].
rewrite length_app, length_map.
destruct (enum_head d (S start)) as [t Ht].
specialize (IH (S start)). rewrite Ht in *. simpl in *. lia.
Qed.

Lemma enum_sound d start l :
l ∈ enum d start ->
StronglySorted lt l /\ Forall (fun x => start <= x < start + d) l.
Proof.
revert start l; induction d as [|d IH]; intros start l; simpl.
- intros ->%list_elem_of_singleton. split; constructor.
- rewrite elem_of_cons, elem_of_app, list_elem_of_fmap.
  intros [-> | [(l' & -> & Hl') | Hl]].
  + split; constructor.
  + destruct (IH _ _ Hl') as [Hs Hr]. split.
    * constructor; [done|]. eapply Forall_impl; [exact Hr|]. simpl; lia.
    * constructor; [lia|]. eapply Forall_impl; [exact Hr|]. simpl; lia.
  + assert (Hl' : l ∈ enum d (S start)).
    { destruct (enum_head d (S start)) as [t Ht]. rewrite Ht in *.
      simpl in Hl. by apply elem_of_cons; right. }
    destruct (IH _ _ Hl') as [Hs Hr]. split; [done|].
    eapply Forall_impl; [exact Hr|]. simpl; lia.
Qed.

Lemma enum_complete d start l :
StronglySorted lt l -> Forall (fun x => start <= x < start + d) l ->
l ∈ enum d start.
Proof.
revert start l; induction d as [|d IH]; intros start l Hs Hr; simpl.
- destruct l as [|x l]; [by apply list_elem_of_singleton|].
  apply Forall_cons in Hr as [? _]. lia.
- destruct l as [|x l]; [by apply elem_of_cons; left|].
  apply elem_of_cons; right. apply elem_of_app.
  apply StronglySorted_inv in Hs as [Hs Hx].
  apply Forall_cons in Hr as [Hx0 Hr].
  destruct (decide (x = start)) as [->|Hne].
  + left. apply list_elem_of_fmap. exists l. split; [done|].
    apply IH; [done|].
    apply Forall_forall. intros y Hy.
    rewrite Forall_forall in Hx, Hr. specialize (Hx y Hy). specialize (Hr y Hy). lia.
  + right.
    assert (Hin : x :: l ∈ enum d (S start)).
    { apply IH; [by constructor|].
      constructor; [lia|].
      apply Forall_forall. intros y Hy.
      rewrite Forall_forall in Hx, Hr. specialize (Hx y Hy). specialize (Hr y Hy). lia. }
    destruct (enum_head d (S start)) as [t Ht]. rewrite Ht in *.
    simpl. by apply elem_of_cons in Hin as [?|?].
Qed.

Lemma enum_NoDup d start : NoDup (enum d start).
Proof.
revert start; induction d as [|d IH]; intros start; simpl.
- apply NoDup_singleton.
- specialize (IH (S start)).
  pose proof (enum_sound d (S start)) as Hsound.
  destruct (enum_head d (S start)) as [t Ht]. rewrite Ht in *. cbn [tail].
  apply NoDup_cons in IH as [Hnil Ht'].
  apply NoDup_cons. split.
  + rewrite elem_of_app, list_elem_of_fmap.
    intros [(l & Hl & _) | Hl]; [done|]. by apply Hnil.
  + apply NoDup_app. split; [|split; [|done]].
    * apply (NoDup_fmap_2 _). by apply NoDup_cons.
    * intros l (l' & -> & _)%list_elem_of_fmap Hl.
      destruct (Hsound (start :: l')) as [_ Hr].
      { by apply elem_of_cons; right. }
      apply Forall_cons in Hr as [? _]. lia.
Qed.

(** The loop of [backtrack] from index [start] on produces the non-empty
  subsets, grouped by their least element. *)
Lemma enum_tail_range n start :
tail (enum (n - start) start)
= flat_map (fun i => map (cons i) (enum (n - (i + 1)) (i + 1))) (range start n).
Proof.
unfold range. remember (n - start) as d eqn:Hd.
revert start Hd; induction d as [|d IH]; intros start Hd; simpl; [done|].
replace (n - (start + 1)) with d by lia.
replace (start + 1) with (S start) by lia.
f_equal. apply IH. lia.
Qed.

Lemma for_each_backtrack depth n (idxs : list nat) st :
(forall fuel start st, fuel <= depth -> n - start < fuel ->
   backtrack fuel n start st
   = Some (BtState (subset st)
             (subsets st ++ map (app (subset st)) (enum (n - start) start)))) ->
Forall (fun i => n - (i + 1) < depth) idxs ->
for_each
  (fun st i =>
     match backtrack depth n (i + 1) (push i st) with
     | Some st' => Some (pop st')
     | None => None
     end) idxs st
= Some (BtState (subset st)
          (subsets st ++
           map (app (subset st))
             (flat_map (fun i => map (cons i) (enum (n - (i + 1)) (i + 1))) idxs))).
Proof.
intros IH. revert st. induction idxs as [|i idxs IHis]; intros st Hall; simpl.
- by rewrite app_nil_r; destruct st.
- apply Forall_cons in Hall as [Hi Hall].
  rewrite IH by (done || lia). simpl.
  rewrite IHis by done. unfold pop; simpl.
  rewrite removelast_last. f_equal. f_equal.
  rewrite <- app_assoc. f_equal.
  rewrite map_app, map_map. f_equal.
  apply map_ext. intros l. by rewrite <- app_assoc.
Qed.

Lemma backtrack_spec depth : forall fuel n start st,
fuel <= depth -> n - start < fuel ->
backtrack fuel n start st
= Some (BtState (subset st)
          (subsets st ++ map (app (subset st)) (enum (n - start) start))).
Proof.
induction depth as [|depth IH]; intros fuel n start st Hle Hlt; [lia|].
destruct fuel as [|fuel]; [lia|]. simpl.
rewrite for_each_backtrack.
- simpl. f_equal. f_equal. rewrite <- app_assoc. f_equal.
  destruct (enum_head (n - start) start) as [t Ht].
  rewrite <- enum_tail_range, Ht. simpl. by rewrite app_nil_r.
- intros fuel' start' st' Hle' Hlt'. apply IH; lia.
- apply Forall_forall. intros i Hi. apply list_elem_of_In in Hi.
  unfold range in Hi. apply in_seq in Hi. lia.
Qed.

Lemma generate_subsets_enum n : generate_subsets n = Some (enum n 0).
Proof.
unfold generate_subsets.
rewrite (backtrack_spec (S n)) by lia. simpl.
f_equal. rewrite Nat.sub_0_r. rewrite <- (map_id (enum n 0)) at 2.
by apply map_ext.
Qed.

(** C10: for every natural [n], [generate_subsets n] returns a list of
  exactly [2 ^ n] pairwise distinct lists, the empty list first; each of them
  is strictly increasing with elements below [n], and every strictly
  increasing list with elements below [n] occurs in it (once, since the
  entries are pairwise distinct). *)
Theorem generate_subsets_powerset (n : nat) :
exists out,
  generate_subsets n = Some out /\
  length out = 2 ^ n /\
  NoDup out /\
  head out = Some [] /\
  (forall l, l ∈ out <-> StronglySorted lt l /\ Forall (fun x => x < n) l).
Proof.
exists (enum n 0). split; [apply generate_subsets_enum|].
split; [apply enum_length|]. split; [apply enum_NoDup|]. split.
- by destruct (enum_head n 0) as [t ->].
- intros l. split.
  + intros [Hs Hr]%enum_sound. split; [done|].
    eapply Forall_impl; [exact Hr|]. simpl; lia.
  + intros [Hs Hr]. apply enum_complete; [done|].
    eapply Forall_impl; [exact Hr|]. simpl; lia.
Qed.

End SubsetsFacts.

(** ** Properties of the backout reconciler *)

(** The comparison [v == text] never holds, so no entry is ever written
    into [coref_smiles_to_graphs]. *)
Lemma build_coref_smiles_to_graphs_empty coref_smiles mol_bboxes_text :
  build_coref_smiles_to_graphs coref_smiles mol_bboxes_text = ∅.
Proof.
  unfold build_coref_smiles_to_graphs. generalize (∅ : gmap string string).
  induction coref_smiles as [|kv l IH]; intros csg; cbn [foldl]; [done|].
  rewrite IH. clear IH.
  revert csg. induction mol_bboxes_text as [|ts mbt IH]; intros csg; cbn [foldl]; [done|].
  by rewrite IH.
Qed.

Section BackoutFacts.
Context {Mol : Type}.
Variable MolFromSmiles : string -> option Mol.
Variable HasSubstructMatch : Mol -> Mol -> bool.

Abbreviation backout' := (backout MolFromSmiles HasSubstructMatch).

(** The first loop keeps, in order, the reactions that pass [no_rgroup]. *)
Lemma without_rgroups_loop l acc f :
  for_ l acc
    (fun new_res rxn =>
       b ← no_rgroup rxn;
       Ok (if b : bool then add_reaction rxn new_res else new_res)) = Ok f ->
  reactions f = reactions acc ++ filter (fun rxn => no_rgroup rxn = Ok true) l
  /\ page f = page acc.
Proof.
  revert acc; induction l as [|rxn l IH]; intros acc H; simpl in H.
  - injection H as <-. by rewrite filter_nil, app_nil_r.
  - ok_bind H. ok_bind Hv. injection Hv as <-.
    apply IH in H as [-> ->]. rewrite filter_cons.
    destruct v0; simpl.
    + rewrite decide_True by done. by rewrite <- app_assoc.
    + rewrite decide_False; [done|]. rewrite Hv0. discriminate.
Qed.

Lemma without_rgroups_spec res f :
  without_rgroups res = Ok f ->
  reactions f = filter (fun rxn => no_rgroup rxn = Ok true) (reactions res).
Proof. intros H. by apply without_rgroups_loop in H as [-> _]. Qed.

Lemma grows_refl final : grows final final.
Proof. unfold grows. induction final; constructor; done. Qed.

Lemma grows_append new_rxn final0 final :
  grows final0 final -> grows final0 (append_to_new_res new_rxn final).
Proof.
  intros H. apply Forall2_alter_r; [done|].
  intros f0 f _ _ Hpre. simpl. by apply prefix_app_r.
Qed.

Lemma backout_rxn_grows csg results final0 final final' rxn :
  grows final0 final ->
  backout_rxn MolFromSmiles HasSubstructMatch csg results final rxn = Ok final' ->
  grows final0 final'.
Proof.
  intros Hg H. unfold backout_rxn in H. ok_bind H.
  destruct v as [[prod_smiles|]|]; [|by injection H as <-..].
  destruct (contains "*" prod_smiles); [|by injection H as <-].
  revert H. apply for_inv; [|done].
  intros st other_res st' _ Hst. apply for_inv; [|done].
  clear. intros st other_rxn st' _ Hst H. unfold backout_other in H.
  ok_bind H. destruct v as [[other|]|]; [|by injection H as <-..].
  destruct (negb _ && _); [|by injection H as <-].
  ok_bind H. injection H as <-. by apply grows_append.
Qed.

Lemma backout_res_grows results corefs final0 final final' ires :
  grows final0 final ->
  backout_res MolFromSmiles HasSubstructMatch results corefs final ires = Ok final' ->
  grows final0 final'.
Proof.
  intros Hg H. unfold backout_res in H. ok_bind H.
  destruct v as [[[mol_bboxes_text coref_smiles] bboxes]|]; [|by injection H as <-].
  revert H. apply for_inv; [|done].
  intros st rxn st' _ Hst. by apply backout_rxn_grows.
Qed.


End BackoutFacts.

Section BackoutEmission.
Context {Mol : Type}.
Variable MolFromSmiles : string -> option Mol.
Variable HasSubstructMatch : Mol -> Mol -> bool.

Abbreviation passes' := (passes MolFromSmiles HasSubstructMatch).

Lemma relabel_relabelled_as csg r r' :
  relabel csg r = Ok r' -> relabelled_as csg r r'.
Proof.
  destruct r as [e|l]; simpl; [|discriminate].
  destruct (e_smiles e) as [[s|]|] eqn:Hs.
  - destruct (csg !! s) as [label|] eqn:Hl; intros [= <-].
    + left. by exists e, s, label.
    + right. split; [done|]. intros e' s' [= <-]. rewrite Hs. by intros [= <-].
  - intros [= <-]. right. split; [done|]. intros e' s' [= <-]. by rewrite Hs.
  - intros [= <-]. right. split; [done|]. intros e' s' [= <-]. by rewrite Hs.
Qed.

Lemma build_new_rxn_loop csg reactants acc products new_rxn :
  for_ reactants [("reactants", acc); ("products", products)]
    (fun new_rxn reactant =>
       r ← relabel csg reactant;
       old ← getitem (dict_get "reactants" new_rxn);
       Ok (dict_set "reactants" (old ++ [r]) new_rxn)) = Ok new_rxn ->
  exists relabelled,
    new_rxn = [("reactants", acc ++ relabelled); ("products", products)] /\
    Forall2 (relabelled_as csg) reactants relabelled.
Proof.
  revert acc; induction reactants as [|r reactants IH]; intros acc H; simpl in H.
  - injection H as <-. exists []. by rewrite app_nil_r.
  - ok_bind H. ok_bind Hv. injection Hv as <-.
    apply relabel_relabelled_as in Hv0.
    apply IH in H as (relabelled & -> & Hall).
    exists (v0 :: relabelled). split; [by rewrite <- app_assoc|by constructor].
Qed.

Lemma build_new_rxn_spec csg rxn new_rxn :
  build_new_rxn csg rxn = Ok new_rxn ->
  exists reactants products relabelled,
    dict_get "reactants" rxn = Some reactants /\
    dict_get "products" rxn = Some products /\
    new_rxn = [("reactants", relabelled); ("products", products)] /\
    Forall2 (relabelled_as csg) reactants relabelled.
Proof.
  intros H. unfold build_new_rxn in H. ok_bind H. ok_bind H.
  apply build_new_rxn_loop in H as (relabelled & -> & Hall).
  exists v0, v, relabelled.
  destruct (dict_get "reactants" rxn); [|discriminate].
  destruct (dict_get "products" rxn); [|discriminate].
  by injection Hv as <-; injection Hv0 as <-.
Qed.

Lemma backout_other_spec csg rxn prod_smiles final other_rxn final' :
  backout_other MolFromSmiles HasSubstructMatch csg rxn prod_smiles final other_rxn
    = Ok final' ->
  if passes' prod_smiles other_rxn
  then exists new_rxn, build_new_rxn csg rxn = Ok new_rxn /\
                       final' = append_to_new_res new_rxn final
  else final' = final.
Proof.
  intros H. unfold backout_other in H. unfold passes. ok_bind H. rewrite Hv.
  destruct v as [[other|]|]; [|by injection H as <-..].
  destruct (negb _ && _); [|by injection H as <-].
  ok_bind H. injection H as <-. eauto.
Qed.

(** C2, as the code has it: the instance emitted for an ambiguous
    reaction [rxn] on a candidate that passes the test is the dictionary with
    the two keys ['reactants'] and ['products'] and no ['conditions']: its
    reactants are those of [rxn], position by position, a reactant whose
    structure string is a key of [coref_smiles_to_graphs] replaced by the
    dictionary holding the mapped label and every other one unchanged; its
    products are the products of [rxn] itself. *)
Theorem backout_emitted_instance csg rxn prod_smiles final other_rxn final' :
  passes' prod_smiles other_rxn = true ->
  backout_other MolFromSmiles HasSubstructMatch csg rxn prod_smiles final other_rxn
    = Ok final' ->
  exists reactants products relabelled,
    dict_get "reactants" rxn = Some reactants /\
    dict_get "products" rxn = Some products /\
    final' = append_to_new_res [("reactants", relabelled); ("products", products)] final /\
    dict_get "conditions" [("reactants", relabelled); ("products", products)] = None /\
    length relabelled = length reactants /\
    forall j r, reactants !! j = Some r ->
      exists r', relabelled !! j = Some r' /\ relabelled_as csg r r'.
Proof.
  intros Hp H. apply backout_other_spec in H. rewrite Hp in H.
  destruct H as (new_rxn & Hnew & ->).
  apply build_new_rxn_spec in Hnew as (reactants & products & relabelled & Hr & Hpr & -> & Hall).
  exists reactants, products, relabelled. repeat split; try done.
  - symmetry. by eapply Forall2_length.
  - intros j r Hj. by eapply Forall2_lookup_l.
Qed.

Lemma backout_inner_loop csg rxn prod_smiles l final final' :
  for_ l final (backout_other MolFromSmiles HasSubstructMatch csg rxn prod_smiles)
    = Ok final' ->
  exists emitted,
    Forall2 (fun _ new_rxn => build_new_rxn csg rxn = Ok new_rxn)
      (filter (fun c => passes' prod_smiles c = true) l) emitted /\
    final' = foldl (fun f new_rxn => append_to_new_res new_rxn f) final emitted.
Proof.
  revert final; induction l as [|c l IH]; intros final H; simpl in H.
  - injection H as <-. exists []. split; [constructor|done].
  - ok_bind H. apply backout_other_spec in Hv.
    apply IH in H as (emitted & Hall & ->). rewrite filter_cons.
    destruct (passes' prod_smiles c) eqn:Hp.
    + destruct Hv as (new_rxn & Hnew & ->). rewrite decide_True by done.
      exists (new_rxn :: emitted). split; [by constructor|done].
    + subst v. rewrite decide_False by done. by exists emitted.
Qed.

Lemma backout_outer_loop csg rxn prod_smiles results final final' :
  for_ results final
    (fun final other_res =>
       for_ (reactions other_res) final
         (backout_other MolFromSmiles HasSubstructMatch csg rxn prod_smiles))
    = Ok final' ->
  exists emitted,
    Forall2 (fun _ new_rxn => build_new_rxn csg rxn = Ok new_rxn)
      (filter (fun c => passes' prod_smiles c = true) (candidates results)) emitted /\
    final' = foldl (fun f new_rxn => append_to_new_res new_rxn f) final emitted.
Proof.
  revert final; induction results as [|other_res results IH]; intros final H; simpl in H.
  - injection H as <-. exists []. split; [constructor|done].
  - ok_bind H. apply backout_inner_loop in Hv as (em1 & Hall1 & ->).
    apply IH in H as (em2 & Hall2 & ->).
    exists (em1 ++ em2). unfold candidates; simpl. rewrite filter_app, foldl_app.
    split; [by apply Forall2_app|done].
Qed.


End BackoutEmission.

(** ** Properties of the molecular graph adapter *)

Lemma norm_index_lt len i i' : norm_index len i = Ok i' -> i' < len.
Proof.
  unfold norm_index. repeat case_decide; intros [= <-]; lia.
Qed.

Lemma square_lookup n edges i row :
  square n edges -> edges !! i = Some row -> length row = n.
Proof.
  intros [_ Hrows] Hi. rewrite Forall_forall in Hrows.
  apply Hrows. by eapply list_elem_of_lookup_2.
Qed.

Lemma zeros_square n : square n (zeros n).
Proof.
  split; [apply length_replicate|].
  apply Forall_forall. intros row ->%elem_of_replicate_inv. apply length_replicate.
Qed.

Lemma entry_zeros n i j :
  entry (zeros n) i j = if decide (i < n /\ j < n) then Some 0%Z else None.
Proof.
  unfold entry, zeros. destruct (decide (i < n)) as [Hi|Hi].
  - rewrite lookup_replicate_2 by done. simpl.
    destruct (decide (j < n)) as [Hj|Hj].
    + rewrite lookup_replicate_2 by done. by rewrite decide_True.
    + rewrite decide_False by tauto. apply lookup_replicate_None. lia.
  - rewrite decide_False by tauto.
    assert (replicate n (replicate n 0%Z) !! i = None) as ->; [|done].
    apply lookup_replicate_None. lia.
Qed.

Lemma zeros_symmetric n : symmetric (zeros n).
Proof.
  intros i j. rewrite !entry_zeros. repeat case_decide; done || tauto.
Qed.

(** An assignment [edges[i][j] = v] on a square matrix keeps it square and
    changes the one entry. *)
Lemma set_edge_spec n edges i j v edges' :
  square n edges -> set_edge edges i j v = Ok edges' ->
  exists i' j',
    norm_index n i = Ok i' /\ norm_index n j = Ok j' /\
    square n edges' /\
    forall a b, entry edges' a b
                = if decide (a = i' /\ b = j') then Some v else entry edges a b.
Proof.
  intros Hsq H. unfold set_edge in H.
  ok_bind H as i' Hi. ok_bind H as row Hr. ok_bind H as j' Hj.
  injection H as <-.
  unfold index in Hr. destruct (edges !! i') as [row'|] eqn:Hrow; [|discriminate].
  injection Hr as ->.
  pose proof (square_lookup _ _ _ _ Hsq Hrow) as Hlen.
  destruct Hsq as [Hn Hrows]. rewrite Hn in Hi. rewrite Hlen in Hj.
  pose proof (norm_index_lt _ _ _ Hi) as Hi'.
  pose proof (norm_index_lt _ _ _ Hj) as Hj'.
  exists i', j'. split; [done|]. split; [done|]. split.
  - split; [by rewrite length_insert|].
    apply Forall_insert; [done|]. by rewrite length_insert.
  - intros a b. unfold entry.
    destruct (decide (a = i')) as [->|Ha].
    + rewrite list_lookup_insert_eq by lia. simpl. rewrite Hrow. simpl.
      destruct (decide (b = j')) as [->|Hb].
      * rewrite list_lookup_insert_eq by lia. by rewrite decide_True.
      * rewrite list_lookup_insert_ne by done. rewrite decide_False; [done|]. tauto.
    + rewrite list_lookup_insert_ne by done. rewrite decide_False; [done|]. tauto.
Qed.

Lemma add_bond_spec n edges b edges' :
  square n edges -> symmetric edges -> add_bond edges b = Ok edges' ->
  square n edges' /\ symmetric edges'.
Proof.
  intros Hsq Hsym H. unfold add_bond in H.
  destruct (b_endpoints b) as [i j].
  ok_bind H as v Hv. ok_bind H as edges1 H1. ok_bind H as v' Hv'.
  assert (v' = v) as -> by congruence.
  destruct (set_edge_spec _ _ _ _ _ _ Hsq H1) as (i' & j' & Hi & Hj & Hsq1 & He1).
  destruct (set_edge_spec _ _ _ _ _ _ Hsq1 H) as (j'' & i'' & Hj2 & Hi2 & Hsq2 & He2).
  assert (i'' = i') as -> by congruence. assert (j'' = j') as -> by congruence.
  split; [done|]. intros a c. rewrite !He2, !He1.
  repeat case_decide; try done; exfalso; lia.
Qed.

Section AdapterFacts.
Context {Image : Type}.
Variable crop : Image -> bbox -> Image.
Variable predict_images : list Image -> list mol_output.

Lemma blank_adjacency_ok (g : graph Image) : blank g -> adjacency_ok g.
Proof.
  intros [Hs He]. unfold adjacency_ok. rewrite Hs, He. split; [by split|done].
Qed.

Lemma fill_adjacency_ok mol (result g : graph Image) :
  blank result -> fill mol result = Ok g -> adjacency_ok g.
Proof.
  intros [Hs _] H. unfold fill in H. ok_bind H. injection H as <-.
  unfold adjacency_ok; simpl. rewrite Hs, app_nil_l, length_fmap.
  revert Hv.
  apply (for_inv (fun edges => square (length (o_atoms mol)) edges /\ symmetric edges)).
  - intros edges b edges' _ [Hsq Hsym]. by apply add_bond_spec.
  - split; [apply zeros_square|apply zeros_symmetric].
Qed.

Lemma fill_all_adjacency_ok outputs results graphs :
  Forall blank results -> fill_all outputs results = Ok graphs ->
  Forall (adjacency_ok (Image:=Image)) graphs.
Proof.
  revert results graphs; induction outputs as [|mol outputs IH];
    intros results graphs Hblank H.
  - destruct results; injection H as <-;
      (eapply Forall_impl; [exact Hblank|apply blank_adjacency_ok]).
  - destruct results as [|result results]; simpl in H.
    + injection H as <-. constructor.
    + apply Forall_cons in Hblank as [Hb Hblank].
      ok_bind H. ok_bind H. injection H as <-. constructor.
      * by eapply fill_adjacency_ok.
      * by eapply IH.
Qed.

Lemma collect_molecule_blank image key acc ielt acc' :
  Forall blank acc.2 -> collect_molecule crop image key acc ielt = Ok acc' ->
  Forall blank acc'.2.
Proof.
  intros Hb H. unfold collect_molecule in H.
  destruct (ielt.2) as [elt|l]; [|by injection H as <-].
  ok_bind H. case_decide; [|by injection H as <-].
  ok_bind H. injection H as <-. simpl.
  apply Forall_app. split; [done|]. by repeat constructor.
Qed.

(** C9: every graph that [get_atoms_and_bonds] returns has a square
    adjacency matrix whose side is the number of its atoms (one row per atom
    symbol, each row as long), and the matrix is symmetric: the entries at
    [(i, j)] and at [(j, i)] agree for all indices. *)
Theorem get_atoms_and_bonds_adjacency image reaction graphs :
  get_atoms_and_bonds crop predict_images image reaction = Ok graphs ->
  forall g, g ∈ graphs ->
    length (g_edges g) = length (g_symbols g) /\
    Forall (fun row => length row = length (g_symbols g)) (g_edges g) /\
    forall i j, entry (g_edges g) i j = entry (g_edges g) j i.
Proof.
  intros H. unfold get_atoms_and_bonds in H. ok_bind H.
  assert (Hblank : Forall blank v.2).
  { revert Hv. apply (for_inv (fun acc => Forall blank acc.2)); [|constructor].
    intros acc kv acc' _ Hacc.
    apply (for_inv (fun acc => Forall blank acc.2)); [|done].
    intros ? ? ? _. apply collect_molecule_blank. }
  pose proof (fill_all_adjacency_ok _ _ _ Hblank H) as Hall.
  intros g Hg. rewrite Forall_forall in Hall.
  destruct (Hall g Hg) as [[Hlen Hrows] Hsym]. done.
Qed.

End AdapterFacts.

Lemma dict_get_elem_of {V} (d : pydict V) k v :
  NoDup d.*1 -> (k, v) ∈ d -> dict_get k d = Some v.
Proof.
  unfold dict_get. induction d as [|[k' v'] d IH]; intros Hnd Hin.
  - by apply elem_of_nil in Hin.
  - simpl in *. apply NoDup_cons in Hnd as [Hk' Hnd].
    apply elem_of_cons in Hin as [[= <- <-]|Hin].
    + by rewrite bool_decide_true.
    + rewrite bool_decide_false; [by apply IH|].
      intros ->. apply Hk'. apply list_elem_of_fmap. by exists (k, v).
Qed.

Section AdapterKeys.
Context {Image : Type}.
Variable crop : Image -> bbox -> Image.
Variable predict_images : list Image -> list mol_output.

Lemma fill_all_keys outputs : forall (results graphs : list (graph Image)),
  fill_all outputs results = Ok graphs ->
  Forall2 (fun result g => g_key g = g_key result) results graphs.
Proof.
  induction outputs as [|mol outputs IH]; intros results graphs H.
  - assert (graphs = results) as -> by (destruct results; by injection H).
    apply Forall_Forall2_diag. by apply Forall_forall.
  - destruct results as [|result results]; simpl in H.
    + injection H as <-. constructor.
    + ok_bind H as g Hg. ok_bind H as gs Hgs. injection H as <-.
      constructor; [|by apply IH].
      unfold fill in Hg. ok_bind Hg as edges He. by injection Hg as <-.
Qed.

(** The key of every graph of [get_atoms_and_bonds] points to a ['[Mol]']
    dictionary of the reaction, the entity that [append_copy] copies. *)
Lemma get_atoms_and_bonds_keys image (reaction : reaction) graphs :
  NoDup reaction.*1 ->
  get_atoms_and_bonds crop predict_images image reaction = Ok graphs ->
  forall g, g ∈ graphs -> points_to_mol reaction (g_key g).
Proof.
  intros Hnd H. unfold get_atoms_and_bonds in H. ok_bind H as acc Hacc.
  assert (Hkeys : Forall (fun g => points_to_mol reaction (g_key g)) acc.2).
  { revert Hacc.
    apply (for_inv (fun acc : list Image * list (graph Image) =>
                      Forall (fun g => points_to_mol reaction (g_key g)) acc.2));
      [|constructor].
    intros acc0 [key molecules] acc1 Hkv Hinv. simpl.
    apply (for_inv (fun acc : list Image * list (graph Image) =>
                      Forall (fun g => points_to_mol reaction (g_key g)) acc.2));
      [|done].
    intros acc2 [i elt] acc3 Hi Hinv2 Hc.
    apply elem_of_lookup_imap in Hi as (i' & elt' & [= -> ->] & Hlook).
    unfold collect_molecule in Hc. simpl in Hc.
    destruct elt' as [e|l]; [|by injection Hc as <-].
    ok_bind Hc as category Hcat. case_decide as Hmol; [|by injection Hc as <-].
    ok_bind Hc as b Hb. injection Hc as <-. simpl.
    apply Forall_app. split; [done|]. constructor; [|done]. simpl.
    exists molecules, e. split; [by apply dict_get_elem_of|]. split; [done|].
    destruct (e_category e); [|discriminate]. injection Hcat as ->. by rewrite Hmol. }
  apply fill_all_keys in H.
  intros g Hg. apply list_elem_of_lookup in Hg as [k Hk].
  destruct (Forall2_lookup_r _ _ _ _ _ H Hk) as (result & Hres & ->).
  rewrite Forall_forall in Hkeys. apply Hkeys. by eapply list_elem_of_lookup_2.
Qed.

End AdapterKeys.

(** ** Properties of the graph substitution engine *)

Section SubstitutionFacts.
Context {Image : Type}.

Lemma alloc_spec o (σ : store) :
  σ !! (alloc o σ).1 = None /\ (alloc o σ).2 = <[(alloc o σ).1 := o]> σ.
Proof.
  unfold alloc; simpl. split; [|done].
  apply not_elem_of_dom. apply is_fresh.
Qed.

Lemma alloc_subseteq o (σ : store) : σ ⊆ (alloc o σ).2.
Proof.
  destruct (alloc_spec o σ) as [Hfresh ->]. by apply insert_subseteq.
Qed.

Lemma copy_graph_spec (acc out : list (graph_ref Image) * store) graph :
  copy_graph acc graph = Ok out ->
  exists gc,
    out.1 = acc.1 ++ [gc] /\ acc.2 ⊆ out.2 /\
    acc.2 !! r_symbols gc = None /\
    (exists syms, out.2 !! r_symbols gc = Some (OSymbols syms)) /\
    (forall s0, acc.2 !! r_symbols graph = Some (OSymbols s0) ->
                out.2 !! r_symbols gc = Some (OSymbols s0)).
Proof.
  intros H. unfold copy_graph in H.
  ok_bind H as coords Hc.
  destruct (alloc (OCoords coords) acc.2) as [lc σ1] eqn:E1.
  ok_bind H as symbols Hs.
  destruct (alloc (OSymbols symbols) σ1) as [ls σ2] eqn:E2.
  ok_bind H as rows Hr.
  destruct (alloc (OEdges rows) σ2) as [le σ3] eqn:E3.
  injection H as <-.
  pose proof (alloc_subseteq (OCoords coords) acc.2) as S1. rewrite E1 in S1; simpl in S1.
  pose proof (alloc_subseteq (OSymbols symbols) σ1) as S2. rewrite E2 in S2; simpl in S2.
  pose proof (alloc_subseteq (OEdges rows) σ2) as S3. rewrite E3 in S3; simpl in S3.
  pose proof (alloc_spec (OSymbols symbols) σ1) as [F2 I2]. rewrite E2 in F2, I2; simpl in F2, I2.
  assert (Hls : σ3 !! ls = Some (OSymbols symbols)).
  { eapply lookup_weaken; [|exact S3]. rewrite I2. apply lookup_insert_eq. }
  eexists. simpl. split; [done|]. split; [by etrans; [|etrans]|].
  split.
  { destruct (acc.2 !! ls) eqn:E; [|done].
    eapply lookup_weaken in E; [|exact S1]. congruence. }
  split; [eauto|].
  intros s0 Hs0. eapply lookup_weaken in Hs0; [|exact S1].
  unfold read_symbols in Hs. rewrite Hs0 in Hs. by injection Hs as <-.
Qed.

Lemma copy_loop_spec graphs : forall (acc out : list (graph_ref Image) * store),
  for_ graphs acc copy_graph = Ok out ->
  acc.2 ⊆ out.2 /\
  exists new,
    out.1 = acc.1 ++ new /\
    Forall2
      (fun g gc =>
         acc.2 !! r_symbols gc = None /\
         (exists syms, out.2 !! r_symbols gc = Some (OSymbols syms)) /\
         (forall s0, acc.2 !! r_symbols g = Some (OSymbols s0) ->
                     out.2 !! r_symbols gc = Some (OSymbols s0)))
      graphs new /\
    NoDup (r_symbols <$> new).
Proof.
  induction graphs as [|g graphs IH]; intros acc out H; simpl in H.
  - injection H as <-. split; [done|]. exists []. rewrite app_nil_r.
    split; [done|]. split; constructor.
  - ok_bind H as acc1 H1.
    apply copy_graph_spec in H1 as (gc & Hgc & S1 & Fgc & (syms & Igc) & Cgc).
    apply IH in H as (S2 & new & Hnew & Hall & Hnd).
    split; [by etrans|]. exists (gc :: new).
    split; [by rewrite Hnew, Hgc, <- app_assoc|]. split.
    + constructor.
      * split; [done|]. split.
        -- exists syms. by eapply lookup_weaken.
        -- intros s0 Hs0. eapply lookup_weaken; [|exact S2]. by apply Cgc.
      * eapply Forall2_impl; [exact Hall|]. simpl.
        intros g' gc' (F' & I' & C'). split; [|split; [done|]].
        -- destruct (acc.2 !! r_symbols gc') eqn:E; [|done].
           eapply lookup_weaken in E; [|exact S1]. congruence.
        -- intros s0 Hs0. apply C'. by eapply lookup_weaken.
    + simpl. apply NoDup_cons. split; [|done].
      intros (gc' & Heq & Hin)%list_elem_of_fmap.
      apply list_elem_of_lookup in Hin as [k Hk].
      destruct (Forall2_lookup_r _ _ _ _ _ Hall Hk) as (g' & _ & F' & _).
      rewrite <- Heq in F'. congruence.
Qed.

Section Relabel.
Variable mappings : gmap string string.
Variable relevant_locs : located.
Variable graph_copy : list (graph_ref Image).
Variable σ1 : store.
Hypothesis copies_distinct : NoDup (r_symbols <$> graph_copy).

Abbreviation relabel_inv' := (relabel_inv mappings relevant_locs graph_copy σ1).

Lemma relabel_inv_init : relabel_inv' σ1.
Proof. split; [done|]. intros gi gc syms1 _ H. by exists syms1. Qed.

Lemma relabel_atom_inv graph_idx atoms a σ σ' :
  (graph_idx, atoms) ∈ relevant_locs -> a ∈ atoms ->
  relabel_inv' σ -> relabel_atom mappings graph_copy graph_idx σ a = Ok σ' ->
  relabel_inv' σ'.
Proof.
  intros Hlocs Ha [Hframe Hcopies] H. unfold relabel_atom in H.
  destruct (mappings !! a.1) as [value|] eqn:Hmap; [|by injection H as <-].
  ok_bind H as g Hg. ok_bind H as symbols Hsym.
  case_decide as Hlt; [|discriminate]. injection H as <-.
  unfold index in Hg. destruct (graph_copy !! graph_idx) as [g'|] eqn:Hgi; [|discriminate].
  injection Hg as ->. split.
  - intros l Hl. rewrite lookup_insert_ne; [by apply Hframe|].
    intros <-. apply Hl. apply list_elem_of_fmap. exists g. split; [done|].
    by eapply list_elem_of_lookup_2.
  - intros gi gc syms1 Hgc H1.
    destruct (Hcopies gi gc syms1 Hgc H1) as (syms & Hs & Hlen & Hkeep).
    destruct (decide (r_symbols gc = r_symbols g)) as [Heq|Hne].
    + assert (gi = graph_idx) as ->.
      { eapply NoDup_lookup; [exact copies_distinct| |].
        - rewrite list_lookup_fmap, Hgc. simpl. reflexivity.
        - rewrite list_lookup_fmap, Hgi. simpl. by rewrite Heq. }
      rewrite Heq, lookup_insert_eq.
      unfold read_symbols in Hsym. rewrite <- Heq, Hs in Hsym. injection Hsym as <-.
      eexists. split; [done|]. split; [by rewrite length_insert|].
      intros idx Hun. rewrite list_lookup_insert_ne; [by apply Hkeep|].
      intros <-. destruct a as [sym idx]; simpl in *.
      specialize (Hun atoms sym Hlocs Ha). congruence.
    + rewrite lookup_insert_ne by done. by exists syms.
Qed.

Lemma relabel_loops_inv σ' :
  for_ relevant_locs σ1
    (fun σ kv => for_ kv.2 σ (relabel_atom mappings graph_copy kv.1)) = Ok σ' ->
  relabel_inv' σ'.
Proof.
  apply for_inv; [|apply relabel_inv_init].
  intros σ [graph_idx atoms] σ2 Hkv Hinv. simpl.
  apply (for_inv relabel_inv'); [|done].
  intros σa a σb Ha Hinva. by apply relabel_atom_inv with atoms.
Qed.

End Relabel.

(** The graph copies: as many as the graphs, each with a symbol list of
    its own that did not exist before the call, which agrees with the
    original's symbol list wherever the located positions leave it alone; and
    nothing that existed before the call is changed. *)
Lemma replaced_graphs_spec graphs relevant_locs mappings (σ : store) graph_copy σ' :
  replaced_graphs graphs relevant_locs mappings σ = Ok (graph_copy, σ') ->
  (forall l o, σ !! l = Some o -> σ' !! l = Some o) /\
  length graph_copy = length graphs /\
  forall gi (g : graph_ref Image) syms,
    graphs !! gi = Some g -> σ !! r_symbols g = Some (OSymbols syms) ->
    exists gc syms',
      graph_copy !! gi = Some gc /\
      σ !! r_symbols gc = None /\
      σ' !! r_symbols gc = Some (OSymbols syms') /\
      length syms' = length syms /\
      forall idx, unmapped relevant_locs mappings gi idx -> syms' !! idx = syms !! idx.
Proof.
  intros H. unfold replaced_graphs in H.
  ok_bind H as acc Hcopy. ok_bind H as σ2 Hrel. injection H as <- <-.
  apply copy_loop_spec in Hcopy as (Hsub & new & Hnew & Hall & Hnd).
  simpl in Hsub, Hnew, Hall. subst new.
  apply relabel_loops_inv in Hrel as [Hframe Hcopies]; [|done].
  split; [|split].
  - intros l o Hl. rewrite Hframe; [by eapply lookup_weaken|].
    intros (gc & -> & Hin)%list_elem_of_fmap.
    apply list_elem_of_lookup in Hin as [k Hk].
    destruct (Forall2_lookup_r _ _ _ _ _ Hall Hk) as (g' & _ & F' & _). congruence.
  - symmetry. by eapply Forall2_length.
  - intros gi g syms Hg Hs.
    destruct (Forall2_lookup_l _ _ _ _ _ Hall Hg) as (gc & Hgc & Fgc & _ & Cgc).
    destruct (Hcopies gi gc syms Hgc (Cgc _ Hs)) as (syms' & Hs' & Hlen & Hkeep).
    by exists gc, syms'.
Qed.

Lemma read_graph_weaken (σ σ' : store) (g : graph_ref Image) gv :
  (forall l o, σ !! l = Some o -> σ' !! l = Some o) ->
  read_graph σ g = Ok gv -> read_graph σ' g = Ok gv.
Proof.
  intros Hsub H. unfold read_graph in *.
  ok_bind H as coords Hc. ok_bind H as symbols Hs. ok_bind H as rows Hr.
  ok_bind H as edges He. injection H as <-.
  unfold read_coords, read_symbols, read_edges in *.
  destruct (σ !! r_coords g) as [[]|] eqn:E1; try discriminate.
  destruct (σ !! r_symbols g) as [[]|] eqn:E2; try discriminate.
  destruct (σ !! r_edges g) as [[]|] eqn:E3; try discriminate.
  rewrite (Hsub _ _ E1), (Hsub _ _ E2), (Hsub _ _ E3). simpl.
  injection Hc as ->. injection Hs as ->. injection Hr as ->.
  assert (comprehension (read_row σ') rows = Ok edges) as ->; [|done].
  clear -He Hsub. revert edges He. induction rows as [|l rows IH]; intros edges He.
  - done.
  - simpl in He. ok_bind He as row Hrow. ok_bind He as rest Hrest. injection He as <-.
    simpl. unfold read_row in *.
    destruct (σ !! l) as [[]|] eqn:El; try discriminate.
    rewrite (Hsub _ _ El). simpl. injection Hrow as ->. by rewrite (IH _ Hrest).
Qed.

End SubstitutionFacts.


(** C7: a call of [get_replaced_reaction] that returns changes no object
    that existed before it, so every input graph reads after the call as it
    did before (symbols, coordinates and adjacency rows alike); and the
    graph copies it works on, one per input graph, have symbol lists of their
    own, as long as the originals', in which every index that the located
    positions do not name, or name only with symbols that are not keys of the
    mapping, holds the original label. *)
Theorem get_replaced_reaction_preserves_graphs
    {Image : Type} (convert_graph_to_output : graph Image -> string)
    orig_reaction graphs relevant_locs mappings (σ : store) reaction_copy σ' :
  get_replaced_reaction convert_graph_to_output orig_reaction graphs
    relevant_locs mappings σ = Ok (reaction_copy, σ') ->
  (forall l o, σ !! l = Some o -> σ' !! l = Some o) /\
  (forall g gv, g ∈ graphs -> read_graph σ g = Ok gv -> read_graph σ' g = Ok gv) /\
  exists graph_copy,
    replaced_graphs graphs relevant_locs mappings σ = Ok (graph_copy, σ') /\
    length graph_copy = length graphs /\
    forall gi g syms,
      graphs !! gi = Some g -> σ !! r_symbols g = Some (OSymbols syms) ->
      exists gc syms',
        graph_copy !! gi = Some gc /\
        σ !! r_symbols gc = None /\
        σ' !! r_symbols gc = Some (OSymbols syms') /\
        length syms' = length syms /\
        forall idx, unmapped relevant_locs mappings gi idx ->
                    syms' !! idx = syms !! idx.
Proof.
  intros H. unfold get_replaced_reaction in H.
  ok_bind H as acc Hacc. ok_bind H as rc0 Hrc0. ok_bind H as rc Hrc.
  injection H as <- <-. destruct acc as [graph_copy σ2]. simpl in *.
  destruct (replaced_graphs_spec _ _ _ _ _ _ Hacc) as (Hframe & Hlen & Hcopies).
  split; [done|]. split.
  - intros g gv _. by apply read_graph_weaken.
  - by exists graph_copy.
Qed.


(** ** Properties of the table-driven expander *)

Lemma dict_get_set_eq {V} (k : string) (v : V) (d : pydict V) :
  dict_get k (dict_set k v d) = Some v.
Proof.
  unfold dict_get. induction d as [|[k' v'] d IH]; simpl.
  - by rewrite bool_decide_true.
  - case_decide; simpl.
    + by rewrite bool_decide_true.
    + by rewrite bool_decide_false.
Qed.

Lemma scan_cells_replaced l : forall st1 st2,
  replaced st1 = replaced st2 ->
  replaced (foldl scan_cell st1 l) = replaced (foldl scan_cell st2 l).
Proof.
  induction l as [|[col entry] l IH]; intros st1 st2 Heq; simpl; [done|].
  apply IH. unfold scan_cell. case_decide; [done|].
  by destruct (Re.re_match _ _).
Qed.

Lemma scan_row_replaced conditions columns row :
  replaced (scan_row conditions columns row) = substitutes columns row.
Proof. by apply scan_cells_replaced. Qed.

Section ExpanderFacts.
Context {Image : Type}.
Variable crop : Image -> bbox -> Image.
Variable predict_images : list Image -> list mol_output.
Variable convert_graph_to_output : graph Image -> string.

Abbreviation process_table' := (process_table crop predict_images convert_graph_to_output).
Abbreviation process_tables' := (process_tables crop predict_images convert_graph_to_output).

Lemma process_rows_spec orig_reaction graphs relevant_locs columns conditions rows :
  forall st st',
  dict_get "conditions" orig_reaction = Some conditions ->
  for_ rows st
    (process_row convert_graph_to_output orig_reaction graphs relevant_locs columns)
    = Ok st' ->
  conditions_to_extend st'
    = conditions_to_extend st ++
      ((fun row => expanded_conditions (scan_row conditions columns row))
         <$> filter (fun row => substitutes columns row = false) rows) /\
  exists new,
    appended st' = appended st ++ new /\
    Forall2 (instance_of_row conditions columns)
      (filter (fun row => substitutes columns row = true) rows) new.
Proof.
  induction rows as [|row rows IH]; intros st st' Hc H; simpl in H.
  - injection H as <-. rewrite !filter_nil, app_nil_r. split; [done|].
    exists []. by rewrite app_nil_r.
  - ok_bind H as st1 H1. apply (IH _ _ Hc) in H as (Hext & new & Hnew & Hall).
    rewrite !filter_cons. unfold process_row in H1. rewrite Hc in H1. simpl in H1.
    ok_bind H1 as rs Hrs. destruct rs as [reaction σ].
    rewrite scan_row_replaced in H1.
    destruct (substitutes columns row) eqn:Hsub.
    + ok_bind H1 as reactants Hr. ok_bind H1 as products Hp. injection H1 as <-.
      simpl in *. split; [done|]. eexists (_ :: new). rewrite Hnew, <- app_assoc.
      split; [done|]. constructor; [|done]. by exists reactants, products.
    + injection H1 as <-. simpl in *.
      split; [by rewrite Hext, <- app_assoc|]. by exists new.
Qed.

(** What a pass over one figure with a table does to a result that has a
    reaction. *)
Lemma process_table_spec figure content result orig_reaction others result' :
  fig_table_content figure = Some content ->
  reactions result = orig_reaction :: others ->
  process_table' figure result = Ok result' ->
  exists conditions new,
    dict_get "conditions" orig_reaction = Some conditions /\
    page result' = Some (fig_page figure) /\
    reactions result'
      = dict_set "conditions"
          (List conditions ::
             (List <$> ((fun row => expanded_conditions
                                      (scan_row conditions (columns content) row))
                          <$> filter (fun row => substitutes (columns content) row = false)
                                (rows content))))
          orig_reaction
        :: others ++ new /\
    Forall2 (instance_of_row conditions (columns content))
      (filter (fun row => substitutes (columns content) row = true) (rows content)) new.
Proof.
  intros Hcontent Hreactions H. unfold process_table in H.
  rewrite Hcontent, Hreactions in H.
  ok_bind H as graphs Hgraphs.
  destruct (alloc_graphs ∅ graphs) as [graph_refs σ].
  ok_bind H as st Hst. ok_bind H as conditions Hcond. injection H as <-.
  destruct (dict_get "conditions" orig_reaction) as [c|] eqn:Hc; [|discriminate].
  injection Hcond as ->.
  destruct (process_rows_spec _ _ _ _ _ _ _ _ Hc Hst) as (Hext & new & Hnew & Hall).
  simpl in Hext, Hnew. exists conditions, new. rewrite Hext, Hnew. done.
Qed.

(** C4, as the code has it: after the pass over a figure with a table,
    the condition list of the original instance is in every case replaced by
    a list of condition lists, first the original condition list and then, in
    row order, the extended condition list of each row that yielded no
    substitution; every row that yielded a substitution appends one instance
    carrying its extended condition list. With no rows no instance is
    appended, and the original's conditions become the one-element list that
    holds the original condition list. *)
Theorem process_table_wraps_conditions figure content result orig_reaction others result' :
  fig_table_content figure = Some content ->
  reactions result = orig_reaction :: others ->
  process_table' figure result = Ok result' ->
  exists conditions new,
    dict_get "conditions" orig_reaction = Some conditions /\
    reactions result'
      = dict_set "conditions"
          (List conditions ::
             (List <$> ((fun row => expanded_conditions
                                      (scan_row conditions (columns content) row))
                          <$> filter (fun row => substitutes (columns content) row = false)
                                (rows content))))
          orig_reaction
        :: others ++ new /\
    Forall2 (instance_of_row conditions (columns content))
      (filter (fun row => substitutes (columns content) row = true) (rows content)) new /\
    (rows content = [] ->
     reactions result' = dict_set "conditions" [List conditions] orig_reaction :: others).
Proof.
  intros Hcontent Hreactions H.
  destruct (process_table_spec _ _ _ _ _ _ Hcontent Hreactions H)
    as (conditions & new & Hc & _ & Hr & Hall).
  exists conditions, new. split; [done|]. split; [done|]. split; [done|].
  intros Hrows. rewrite Hrows in *. rewrite filter_nil in Hall.
  apply Forall2_nil_inv_l in Hall as ->. rewrite Hr. simpl. by rewrite app_nil_r.
Qed.

Lemma process_tables_lookup figures : forall results out i figure result,
  process_tables' figures results = Ok out ->
  figures !! i = Some figure -> results !! i = Some result ->
  exists r, out !! i = Some r /\ process_table' figure result = Ok r.
Proof.
  induction figures as [|f figures IH]; intros results out i figure result H Hf Hr.
  - done.
  - destruct results as [|r0 results]; [done|]. simpl in H.
    ok_bind H as r1 H1. ok_bind H as rs Hrs. injection H as <-.
    destruct i as [|i]; simpl in *.
    + injection Hf as <-. injection Hr as <-. by exists r1.
    + by eapply IH.
Qed.

(** C5, as the code has it: a second run over the same figures is not a
    no-op. For a figure with a table and a result with a reaction, the first
    run adds one instance per row that yields a substitution and the second
    run adds as many again; and the second run wraps the conditions of the
    original instance once more, so that they start with a list holding the
    conditions left by the first run, which start with a list holding the
    original conditions. *)
Theorem process_tables_twice figures results out1 out2 i figure content result
    orig_reaction others :
  process_tables' figures results = Ok out1 ->
  process_tables' figures out1 = Ok out2 ->
  figures !! i = Some figure -> fig_table_content figure = Some content ->
  results !! i = Some result -> reactions result = orig_reaction :: others ->
  let k := length (filter (fun row => substitutes (columns content) row = true)
                     (rows content)) in
  exists r1 r2 o1 o2 t1 t2 conditions conditions1 conditions2,
    out1 !! i = Some r1 /\ out2 !! i = Some r2 /\
    length (reactions r1) = length (reactions result) + k /\
    length (reactions r2) = length (reactions r1) + k /\
    reactions r1 = o1 :: t1 /\ reactions r2 = o2 :: t2 /\
    dict_get "conditions" orig_reaction = Some conditions /\
    dict_get "conditions" o1 = Some conditions1 /\
    dict_get "conditions" o2 = Some conditions2 /\
    head conditions1 = Some (List conditions) /\
    head conditions2 = Some (List conditions1).
Proof.
  intros H1 H2 Hf Hcontent Hr Hreactions k.
  destruct (process_tables_lookup _ _ _ _ _ _ H1 Hf Hr) as (r1 & Hr1 & Hp1).
  destruct (process_tables_lookup _ _ _ _ _ _ H2 Hf Hr1) as (r2 & Hr2 & Hp2).
  destruct (process_table_spec _ _ _ _ _ _ Hcontent Hreactions Hp1)
    as (conditions & new1 & Hc & _ & Hreact1 & Hall1).
  destruct (process_table_spec _ _ _ _ _ _ Hcontent Hreact1 Hp2)
    as (conditions1 & new2 & Hc1 & _ & Hreact2 & Hall2).
  rewrite dict_get_set_eq in Hc1. injection Hc1 as <-.
  eexists r1, r2, _, _, _, _, conditions, _, _.
  split; [done|]. split; [done|].
  split; [|split; [|split; [exact Hreact1|split; [exact Hreact2|]]]].
  - rewrite Hreact1, Hreactions. simpl. rewrite length_app.
    rewrite <- (Forall2_length _ _ _ Hall1). done.
  - rewrite Hreact2, Hreact1. simpl. rewrite !length_app.
    rewrite <- (Forall2_length _ _ _ Hall2). unfold k. lia.
  - split; [done|]. rewrite !dict_get_set_eq. done.
Qed.

End ExpanderFacts.

(** ** The reconciler on examples *)



(** C2 fails as stated: the instance emitted for the ambiguous reaction
    with product ["C*"], matched against the reaction with product ["CC"],
    carries the ambiguous reaction's own product, not the candidate's, and has
    no conditions although the ambiguous reaction has one. *)
Lemma backout_emitted_products_and_conditions :
  let P := rxn_of "A" "heat" "C*" in
  let C := rxn_of "B" "cold" "CC" in
  exists new_rxn,
    stub_backout [Result [P; C] None] [coref_of "CC" "3a, R = Cl"]
      = Ok [Result [C; new_rxn] None] /\
    dict_get "products" new_rxn = dict_get "products" P /\
    (dict_get "products" new_rxn <> dict_get "products" C) /\
    dict_get "conditions" new_rxn = None /\
    dict_get "conditions" P = Some [txt "heat"].
Proof.
  exists [("reactants", [mol "A"]); ("products", [mol "C*"])].
  split; [by vm_compute|]. repeat split; [by vm_compute..|].
  vm_compute. discriminate.
Qed.

(** The emitted instance, for an ambiguous reaction whose reactant is a key
    of the map. *)
Lemma backout_emitted_instance_witness :
  let P := rxn_of "A" "heat" "C*" in
  let C := rxn_of "B" "cold" "CC" in
  let csg : gmap string string := {["A" := "3a"]} in
  exists reactants products relabelled,
    dict_get "reactants" P = Some reactants /\
    dict_get "products" P = Some products /\
    [Result [C; [("reactants", [Dict (smiles_only "3a")]); ("products", [mol "C*"])]] None]
      = append_to_new_res [("reactants", relabelled); ("products", products)]
          [Result [C] None] /\
    dict_get "conditions" [("reactants", relabelled); ("products", products)] = None /\
    length relabelled = length reactants /\
    forall j r, reactants !! j = Some r ->
      exists r', relabelled !! j = Some r' /\ relabelled_as csg r r'.
Proof.
  apply (backout_emitted_instance stub_MolFromSmiles stub_HasSubstructMatch
           _ _ "C*" _ (rxn_of "B" "cold" "CC")).
  - vm_compute. reflexivity.
  - vm_compute. reflexivity.
Defined.



(** C6 fails as stated: the group the pattern captures is the token after
    the label, here ["R"], so the texts of scenario B give ["3a"] and ["3b"]
    both mapped to ["R"]. *)
Lemma parse_assignments_scenario_B_differs :
  (parse_assignments ["3a, R = Cl"; "3b, R = Br"] <> [("3a", "Cl"); ("3b", "Br")]) /\
  (dict_get "3a" (parse_assignments ["3a, R = Cl"; "3b, R = Br"]) <> Some "Cl") /\
  (dict_get "3b" (parse_assignments ["3a, R = Cl"; "3b, R = Br"]) <> Some "Br").
Proof. repeat split; vm_compute; discriminate. Qed.

(** C6, as the code has it: for the identifier texts ["3a, R = Cl"] and
    ["3b, R = Br"] the label-to-group extraction returns the mapping of
    ["3a"] to ["R"] and ["3b"] to ["R"], also when run through
    [clean_corefs] on a record that holds the two texts. *)
Theorem parse_assignments_scenario_B :
  parse_assignments ["3a, R = Cl"; "3b, R = Br"] = [("3a", "R"); ("3b", "R")] /\
  let record :=
    CorefRecord (Some [])
      (Some [MolBBox (BBox 0 0 1 1) (Some "CC")])
      (IdtList [IdtBBox (BBox 0 0 1 1) (Some "3a, R = Cl");
                IdtBBox (BBox 0 0 1 1) (Some "3b, R = Br")]) in
  clean_corefs [record] 0
    = Ok (Some ([(MolBBox (BBox 0 0 1 1) (Some "CC"), "CC")],
                [("3a", "R"); ("3b", "R")], [])).
Proof. split; by vm_compute. Qed.

(** C8 fails on the code: a coreference record whose ['mol_bboxes'] list
    is empty makes [clean_corefs] index an empty list, and the [IndexError]
    leaves [backout] uncaught, whatever the toolkit does. *)
Theorem backout_raises_on_empty_mol_bboxes {Mol : Type}
    (MolFromSmiles : string -> option Mol) (HasSubstructMatch : Mol -> Mol -> bool) :
  clean_corefs [CorefRecord (Some []) (Some []) (IdtList [])] 0 = Raise IndexError /\
  backout MolFromSmiles HasSubstructMatch
    [Result [] None] [CorefRecord (Some []) (Some []) (IdtList [])]
  = Raise IndexError.
Proof. split; reflexivity. Qed.

(** ** The adapter, the substitution engine and the expander on examples *)

(** The adjacency invariant on the graphs of a reaction with two
    molecules. *)
Lemma get_atoms_and_bonds_adjacency_witness :
  exists graphs,
    get_atoms_and_bonds stub_crop stub_predict_images [] (rxn_of "A" "heat" "C*")
      = Ok graphs /\
    graphs <> [] /\
    forall g, g ∈ graphs ->
      length (g_edges g) = length (g_symbols g) /\
      Forall (fun row => length row = length (g_symbols g)) (g_edges g) /\
      forall i j, entry (g_edges g) i j = entry (g_edges g) j i.
Proof.
  eexists. split; [vm_compute; reflexivity|]. split; [discriminate|].
  apply (get_atoms_and_bonds_adjacency stub_crop stub_predict_images []
           (rxn_of "A" "heat" "C*")).
  vm_compute. reflexivity.
Defined.

(** The substitution engine on two graphs whose atom 1 is located and
    mapped. *)
Lemma get_replaced_reaction_preserves_graphs_witness :
  let refs := alloc_graphs ∅ [graph_of ("reactants", 0); graph_of ("products", 0)] in
  let graphs := refs.1 in
  let σ := refs.2 in
  let relevant_locs : located := [(0, [("R", 1)]); (1, [("R", 1)])] in
  let mappings : gmap string string := {["R" := "Me"]} in
  exists reaction_copy σ',
    get_replaced_reaction stub_convert (rxn_of "A" "heat" "C*") graphs
      relevant_locs mappings σ = Ok (reaction_copy, σ') /\
    dict_get "products" reaction_copy = Some [mol "CMeO"] /\
    (forall l o, σ !! l = Some o -> σ' !! l = Some o) /\
    (forall g gv, g ∈ graphs -> read_graph σ g = Ok gv -> read_graph σ' g = Ok gv) /\
    exists graph_copy,
      replaced_graphs graphs relevant_locs mappings σ = Ok (graph_copy, σ') /\
      length graph_copy = length graphs /\
      forall gi g syms,
        graphs !! gi = Some g -> σ !! r_symbols g = Some (OSymbols syms) ->
        exists gc syms',
          graph_copy !! gi = Some gc /\
          σ !! r_symbols gc = None /\
          σ' !! r_symbols gc = Some (OSymbols syms') /\
          length syms' = length syms /\
          forall idx, unmapped relevant_locs mappings gi idx ->
                      syms' !! idx = syms !! idx.
Proof.
  intros refs graphs σ relevant_locs mappings.
  eexists _, _. split; [vm_compute; reflexivity|].
  split; [vm_compute; reflexivity|].
  eapply (get_replaced_reaction_preserves_graphs stub_convert
            (rxn_of "A" "heat" "C*") graphs relevant_locs mappings σ).
  vm_compute. reflexivity.
Defined.

(** C4 fails as stated: a table without rows does not leave the template
    unchanged, the conditions of the original instance come back wrapped in
    a list; and they are wrapped as well when the only row of the table
    yields a substitution. *)
Lemma process_tables_wraps_conditions_regardless :
  let result := Result [rxn_of "A" "heat" "C*"] (Some 3) in
  let wrapped := [("reactants", [mol "A"]); ("conditions", [List [txt "heat"]]);
                  ("products", [mol "C*"])] in
  stub_process_tables [figure_of []] [result] = Ok [Result [wrapped] (Some 3)] /\
  [Result [wrapped] (Some 3)] <> [result] /\
  exists to_add,
    stub_process_tables [figure_of [[Cell "Me"; Cell "85%"]]] [result]
      = Ok [Result [wrapped; to_add] (Some 3)].
Proof.
  split; [by vm_compute|]. split; [discriminate|].
  eexists. vm_compute. reflexivity.
Qed.

(** The expander on a table with one row that yields a substitution and one
    that does not. *)
Lemma process_table_wraps_conditions_witness :
  let table_rows := [[Cell "Me"; Cell "85%"]; [Cell "n/a"; Cell "90%"]] in
  let orig_reaction := rxn_of "A" "heat" "C*" in
  exists result',
    process_table stub_crop stub_predict_images stub_convert (figure_of table_rows)
      (Result [orig_reaction] None) = Ok result' /\
    exists conditions new,
      dict_get "conditions" orig_reaction = Some conditions /\
      reactions result'
        = dict_set "conditions"
            (List conditions ::
               (List <$> ((fun row => expanded_conditions
                                        (scan_row conditions (columns (table_of table_rows)) row))
                            <$> filter (fun row => substitutes (columns (table_of table_rows)) row
                                                   = false)
                                  (rows (table_of table_rows)))))
            orig_reaction
          :: [] ++ new /\
      Forall2 (instance_of_row conditions (columns (table_of table_rows)))
        (filter (fun row => substitutes (columns (table_of table_rows)) row = true)
           (rows (table_of table_rows))) new /\
      (rows (table_of table_rows) = [] ->
       reactions result' = dict_set "conditions" [List conditions] orig_reaction :: []).
Proof.
  intros table_rows orig_reaction.
  eexists. split; [vm_compute; reflexivity|].
  apply (process_table_wraps_conditions stub_crop stub_predict_images stub_convert
           (figure_of table_rows) (table_of table_rows) (Result [orig_reaction] None)).
  - reflexivity.
  - reflexivity.
  - vm_compute. reflexivity.
Defined.

(** C5 fails as stated: on a table whose first row yields a substitution,
    the first run leaves two instances and the second run three. *)
Lemma process_tables_second_run_adds_instance :
  let figures := [figure_of [[Cell "Me"; Cell "85%"]; [Cell "n/a"; Cell "90%"]]] in
  exists out1 out2,
    stub_process_tables figures [Result [rxn_of "A" "heat" "C*"] None] = Ok out1 /\
    stub_process_tables figures out1 = Ok out2 /\
    length ∘ reactions <$> out1 = [2] /\
    length ∘ reactions <$> out2 = [3] /\
    out2 <> out1.
Proof.
  eexists _, _. split; [vm_compute; reflexivity|].
  split; [vm_compute; reflexivity|].
  split; [reflexivity|]. split; [reflexivity|]. discriminate.
Qed.

(** Two runs of the expander on the same table. *)
Lemma process_tables_twice_witness :
  let table_rows := [[Cell "Me"; Cell "85%"]; [Cell "n/a"; Cell "90%"]] in
  let figures := [figure_of table_rows] in
  let orig_reaction := rxn_of "A" "heat" "C*" in
  let result := Result [orig_reaction] None in
  let k := length (filter (fun row => substitutes (columns (table_of table_rows)) row = true)
                     (rows (table_of table_rows))) in
  exists out1 out2,
    stub_process_tables figures [result] = Ok out1 /\
    stub_process_tables figures out1 = Ok out2 /\
    exists r1 r2 o1 o2 t1 t2 conditions conditions1 conditions2,
      out1 !! 0 = Some r1 /\ out2 !! 0 = Some r2 /\
      length (reactions r1) = length (reactions result) + k /\
      length (reactions r2) = length (reactions r1) + k /\
      reactions r1 = o1 :: t1 /\ reactions r2 = o2 :: t2 /\
      dict_get "conditions" orig_reaction = Some conditions /\
      dict_get "conditions" o1 = Some conditions1 /\
      dict_get "conditions" o2 = Some conditions2 /\
      head conditions1 = Some (List conditions) /\
      head conditions2 = Some (List conditions1).
Proof.
  intros table_rows figures orig_reaction result k.
  eexists _, _. split; [vm_compute; reflexivity|].
  split; [vm_compute; reflexivity|].
  apply (process_tables_twice stub_crop stub_predict_images stub_convert
           figures [result] _ _ 0 (figure_of table_rows) (table_of table_rows) result
           orig_reaction []).
  - vm_compute. reflexivity.
  - vm_compute. reflexivity.
  - reflexivity.
  - reflexivity.
  - reflexivity.
  - reflexivity.
Defined.

(** ** Dictionaries *)

Lemma dict_get_Some_elem_of {V} (d : pydict V) k v :
  dict_get k d = Some v -> (k, v) ∈ d.
Proof.
  unfold dict_get. induction d as [|[k' v'] d IH]; simpl; [done|].
  case_bool_decide as Hk; simpl.
  - intros [= <-]. simpl in Hk. subst. by left.
  - intros H. right. by apply IH.
Qed.

Lemma dict_get_set_ne {V} (k k' : string) (v : V) (d : pydict V) :
  k' <> k -> dict_get k' (dict_set k v d) = dict_get k' d.
Proof.
  intros Hk. unfold dict_get. induction d as [|[k0 v0] d IH]; simpl.
  - rewrite bool_decide_false by (simpl; congruence). done.
  - case_decide as Hk0; simpl.
    + subst k0. rewrite !bool_decide_false by (simpl; congruence). done.
    + case_bool_decide; [done|apply IH].
Qed.

Lemma dict_set_keys {V} (k : string) (v w : V) (d : pydict V) :
  dict_get k d = Some w -> (dict_set k v d).*1 = d.*1.
Proof.
  unfold dict_get. induction d as [|[k0 v0] d IH]; simpl; [done|].
  case_bool_decide as Hk; simpl in *.
  - intros _. subst k0. rewrite decide_True by done. done.
  - intros H. rewrite decide_False by done. simpl. f_equal. by apply IH.
Qed.

Lemma dict_set_fresh {V} (k : string) (v : V) (d : pydict V) :
  k ∉ d.*1 -> dict_set k v d = d ++ [(k, v)].
Proof.
  induction d as [|[k0 v0] d IH]; simpl; [done|]. intros Hk.
  apply not_elem_of_cons in Hk as [Hne Hk]. rewrite decide_False by done.
  f_equal. by apply IH.
Qed.


(** ** Order of the subset enumeration *)

Section SubsetsOrder.
Import Subsets.

Lemma enum_lower_bound d start l :
  l ∈ enum d start -> Forall (fun x => start <= x) l.
Proof.
  intros H. destruct (enum_sound _ _ _ H) as [_ Hr].
  eapply Forall_impl; [exact Hr|]. simpl; lia.
Qed.

Lemma StronglySorted_fmap_cons x (ls : list (list nat)) :
  StronglySorted lex_lt ls -> StronglySorted lex_lt (cons x <$> ls).
Proof.
  induction 1 as [|l ls Hs IH Hall]; simpl; constructor; [done|].
  apply Forall_fmap. eapply Forall_impl; [exact Hall|].
  intros m Hm. simpl. by right.
Qed.

Lemma enum_sorted d start : StronglySorted lex_lt (enum d start).
Proof.
  revert start; induction d as [|d IH]; intros start; simpl.
  - repeat constructor.
  - specialize (IH (S start)).
    pose proof (enum_lower_bound d (S start)) as Hlow.
    destruct (enum_head d (S start)) as [t Ht]. rewrite Ht in *. cbn [tail].
    apply StronglySorted_inv in IH as [Ht' Hnil].
    constructor.
    + apply StronglySorted_app_2.
      * intros a b (a' & -> & _)%list_elem_of_fmap Hb.
        assert (Hb' : Forall (fun x => S start <= x) b).
        { apply Hlow. by apply elem_of_cons; right. }
        destruct b as [|y b]; simpl.
        -- rewrite Forall_forall in Hnil. by apply (Hnil [] Hb).
        -- apply Forall_cons in Hb' as [Hy _]. left. lia.
      * by apply (StronglySorted_fmap_cons start ([] :: t)), SSorted_cons.
      * done.
    + apply Forall_forall. intros l Hl.
      apply elem_of_app in Hl as [(l' & -> & _)%list_elem_of_fmap|Hl]; simpl; [done|].
      rewrite Forall_forall in Hnil. by apply Hnil.
Qed.

(** The subsets come out in lexicographic order: each list is strictly
    smaller than every list after it, a proper prefix counting as smaller. *)
Theorem generate_subsets_lexicographic (n : nat) :
  exists out, generate_subsets n = Some out /\ StronglySorted lex_lt out.
Proof.
  exists (enum n 0). split; [apply generate_subsets_enum|apply enum_sorted].
Qed.

End SubsetsOrder.

(** ** Properties of the two patterns *)

Section Patterns.
Import Re.

Lemma plus_consumes {R} p (s : list ascii) : forall pos (k : nat -> list ascii -> option R) x,
  plus p pos s k = Some x ->
  exists c s', s = c ++ s' /\ c <> [] /\ Forall (fun ch => p ch = true) c /\
               k (pos + length c) s' = Some x.
Proof.
  induction s as [|ch s IH]; intros pos k x H; simpl in H; [done|].
  destruct (p ch) eqn:Hp; [|done].
  destruct (plus p (S pos) s k) as [r|] eqn:Hrec.
  - injection H as ->. apply IH in Hrec as (c & s' & -> & _ & Hall & Hk).
    exists (ch :: c), s'. split; [done|]. split; [done|]. split; [by constructor|].
    simpl. by replace (pos + S (length c)) with (S pos + length c) by lia.
  - exists [ch], s. split; [done|]. split; [done|]. split; [by repeat constructor|].
    simpl. by replace (pos + 1) with (S pos) by lia.
Qed.

(** A successful match consumes a piece of the text made of characters the
    expression accepts, and succeeds through its continuation on the rest. *)
Lemma exec_consumes {R} r : forall pos s gs (k : nat -> list ascii -> groups -> option R) x,
  exec r pos s gs k = Some x ->
  exists c s' gs', s = c ++ s' /\ Forall (fun ch => accepts r ch = true) c /\
                   k (pos + length c) s' gs' = Some x.
Proof.
  induction r as [c0|p|p|r IH|r1 IH1 r2 IH2|name r IH| |]; intros pos s gs k x H; simpl in H.
  - destruct s as [|ch s]; [done|]. destruct (Ascii.eqb ch c0) eqn:E; [|done].
    exists [ch], s, gs. split; [done|]. split; [by repeat constructor|].
    simpl. by replace (pos + 1) with (S pos) by lia.
  - destruct s as [|ch s]; [done|]. destruct (p ch) eqn:E; [|done].
    exists [ch], s, gs. split; [done|]. split; [by repeat constructor|].
    simpl. by replace (pos + 1) with (S pos) by lia.
  - apply plus_consumes in H as (c & s' & -> & _ & Hall & Hk). by exists c, s', gs.
  - destruct (exec r pos s gs k) as [y|] eqn:E.
    + injection H as ->. by apply IH in E.
    + exists [], s, gs. split; [done|]. split; [constructor|].
      simpl. by rewrite Nat.add_0_r.
  - apply IH1 in H as (c1 & s1 & gs1 & -> & Hall1 & H).
    apply IH2 in H as (c2 & s2 & gs2 & -> & Hall2 & H).
    exists (c1 ++ c2), s2, gs2. split; [by rewrite app_assoc|]. split.
    + apply Forall_app. split; (eapply Forall_impl; [eassumption|]); simpl;
        intros ch ->; [done|by rewrite orb_true_r].
    + rewrite length_app. by rewrite Nat.add_assoc.
  - apply IH in H as (c & s' & gs' & -> & Hall & H). eauto 10.
  - case_decide; [|done]. exists [], s, gs. split; [done|]. split; [constructor|].
    simpl. by rewrite Nat.add_0_r.
  - exists [], s, gs. split; [done|]. split; [constructor|].
    simpl. rewrite Nat.add_0_r. destruct s as [|ch [|]]; try done.
    by destruct (Ascii.eqb ch "010").
Qed.

(** Greedy [p+] on a text made of [p] characters only, when the
    continuation accepts the end of the text. *)
Lemma plus_whole {R} p (w : list ascii) : forall pos (k : nat -> list ascii -> option R) x,
  w <> [] -> Forall (fun ch => p ch = true) w ->
  k (pos + length w) [] = Some x -> plus p pos w k = Some x.
Proof.
  induction w as [|ch w IH]; intros pos k x Hne Hall Hk; [done|].
  apply Forall_cons in Hall as [Hch Hall]. simpl. rewrite Hch.
  destruct w as [|ch' w].
  - simpl. simpl in Hk. by replace (pos + 1) with (S pos) in Hk by lia.
  - rewrite (IH (S pos) k x); [done|done|done|].
    simpl in *. rewrite <- Hk. f_equal. lia.
Qed.

(** [p+] fails when its continuation fails on every rest of the text. *)
Lemma plus_fails {R} p (w : list ascii) pos (k : nat -> list ascii -> option R) :
  (forall pos' c s', w = c ++ s' -> k pos' s' = None) ->
  plus p pos w k = None.
Proof.
  intros Hk. destruct (plus p pos w k) as [x|] eqn:E; [|done]. exfalso.
  apply plus_consumes in E as (c & s' & -> & _ & _ & E).
  by rewrite (Hk _ c s') in E.
Qed.

(** A cell whose text is one word, made of letters, digits and
    underscores, matches [r_group_pattern], and the group is the whole
    text. *)
Theorem r_group_pattern_word text :
  text <> "" ->
  Forall (fun ch => word ch = true) (list_ascii_of_string text) ->
  re_match r_group_pattern text = Some {["group" := text]}.
Proof.
  intros Hne Hall. unfold re_match.
  remember (list_ascii_of_string text) as w eqn:Hw.
  assert (Hw' : w <> []).
  { intros ->. apply Hne. rewrite <- (string_of_list_ascii_of_string text), <- Hw. done. }
  assert (H : exec r_group_pattern 0 w ∅ accept = Some (length w, {["group" := text]})).
  { unfold r_group_pattern. cbn [exec]. rewrite decide_True by done.
    rewrite (plus_fails word w).
    2:{ intros pos' c s' ->. apply Forall_app in Hall as [_ Hall].
        destruct s' as [|ch s']; [done|]. apply Forall_cons in Hall as [Hch _].
        destruct (Ascii.eqb ch "-") eqn:E; [|done].
        apply Ascii.eqb_eq in E as ->. done. }
    rewrite (plus_whole _ w 0 _ (length w, {["group" := text]})); [done|done| |].
    - eapply Forall_impl; [exact Hall|]. simpl. by intros ch ->.
    - simpl. rewrite Nat.sub_0_r, firstn_all, Hw, string_of_list_ascii_of_string.
      by rewrite insert_empty. }
  by rewrite H.
Qed.


End Patterns.

Section CorefPattern.
Import Re.

Lemma coref_pattern_needs_blank pos (s : list ascii) x :
  exec coref_pattern pos s ∅ accept = Some x -> " "%char ∈ s.
Proof.
  intros E. unfold coref_pattern in E.
  set (L := Group "label"
              (Plus (fun c => word c || one_of ["."%char] c)
               ⋅ Opt (Class (one_of ["a"; "b"; "c"]%char)))%re) in *.
  set (S0 := Opt (Class (one_of [","; ":"]%char))) in *.
  set (G := Group "group" (Plus (fun c => one_of ["["; "]"; "-"]%char c || word c))) in *.
  change (exec L pos s ∅
            (fun pos' s' gs' => exec S0 pos' s' gs'
               (fun pos' s' gs' => plus (one_of [" "%char]) pos' s'
                  (fun pos' s' => exec G pos' s' gs' accept))) = Some x) in E.
  apply exec_consumes in E as (c1 & s1 & gs1 & -> & _ & E).
  apply exec_consumes in E as (c2 & s2 & gs2 & -> & _ & E).
  apply plus_consumes in E as (c3 & s3 & -> & Hne & Hall & _).
  destruct c3 as [|ch c3]; [done|]. apply Forall_cons in Hall as [Hch _].
  simpl in Hch. rewrite orb_false_r in Hch. apply Ascii.eqb_eq in Hch as ->.
  rewrite !elem_of_app. right. right. left. by left.
Qed.

Lemma scan_no_match r (s : list ascii) : forall pos resume,
  (forall pos' c s', s = c ++ s' -> exec r pos' s' ∅ accept = None) ->
  scan r pos resume s = [].
Proof.
  induction s as [|ch s IH]; intros pos resume Hno; simpl.
  - case_decide; [done|]. by rewrite (Hno pos [] []).
  - assert (Hrest : scan r (S pos) resume s = []).
    { apply IH. intros pos' c s' ->. by apply (Hno pos' (ch :: c) s'). }
    case_decide; [done|]. by rewrite (Hno pos [] (ch :: s)).
Qed.

(** An identifier text without a blank gives no assignment: every match
    of the pattern of [clean_corefs] spans at least one blank between the
    label and the group. *)
Theorem parse_assignments_needs_blank (idt_bboxes_text : list string) :
  Forall (fun text => contains " " text = false) idt_bboxes_text ->
  parse_assignments idt_bboxes_text = [].
Proof.
  unfold parse_assignments. intros Hall.
  enough (Hacc : forall acc : pydict string,
             foldl
               (fun coref_smiles text =>
                  foldl (fun coref_smiles f =>
                           dict_set (group "label" f) (group "group" f) coref_smiles)
                    coref_smiles (finditer coref_pattern text))
               acc idt_bboxes_text = acc) by apply Hacc.
  induction idt_bboxes_text as [|text texts IH]; intros acc; cbn [foldl]; [done|].
  apply Forall_cons in Hall as [Htext Hall].
  assert (Hnone : finditer coref_pattern text = []).
  { unfold finditer. apply scan_no_match. intros pos' c s' Heq.
    destruct (exec coref_pattern pos' s' ∅ accept) as [x|] eqn:E; [|done]. exfalso.
    apply coref_pattern_needs_blank in E.
    unfold contains in Htext. rewrite Heq in Htext.
    assert (existsb (Ascii.eqb " ") (c ++ s') = true); [|congruence].
    apply existsb_exists. exists " "%char. split; [|done].
    apply list_elem_of_In. apply elem_of_app. by right. }
  rewrite Hnone. cbn [foldl]. by apply IH.
Qed.

End CorefPattern.

(** ** Properties of the R-group locator *)

Lemma list_ascii_of_string_app (s1 s2 : string) :
  list_ascii_of_string (s1 +:+ s2) = list_ascii_of_string s1 ++ list_ascii_of_string s2.
Proof. induction s1 as [|c s1 IH]; simpl; [done|]. by rewrite IH. Qed.

Lemma strip_ends_brackets (t : string) : strip_ends ("[" +:+ t +:+ "]") = t.
Proof.
  unfold strip_ends. rewrite list_ascii_of_string_app. simpl.
  rewrite list_ascii_of_string_app. simpl.
  rewrite removelast_last. apply string_of_list_ascii_of_string.
Qed.

(** The locator returns one entry per graph, keyed by the graph's index;
    the entry of a graph lists exactly the atoms whose symbol is the header of
    an alkyl group column in brackets, each with that header as symbol and
    with its index in the graph's symbol list. *)
Theorem find_relevant_groups_locates {Image} (graphs : list (graph Image))
    (columns : list column) :
  (find_relevant_groups graphs columns).*1 = seq 0 (length graphs) /\
  forall i g, graphs !! i = Some g ->
    exists atoms,
      find_relevant_groups graphs columns !! i = Some (i, atoms) /\
      forall sym j,
        (sym, j) ∈ atoms <->
        g_symbols g !! j = Some ("[" +:+ sym +:+ "]") /\
        exists col, col ∈ columns /\ col_tag col = "alkyl group" /\ col_text col = sym.
Proof.
  unfold find_relevant_groups. split.
  - apply list_eq. intros i. rewrite list_lookup_fmap, list_lookup_imap.
    destruct (graphs !! i) as [g|] eqn:Hg; simpl.
    + apply lookup_lt_Some in Hg. by rewrite lookup_seq_lt.
    + apply lookup_ge_None in Hg. by rewrite lookup_seq_ge.
  - intros i g Hg. eexists. split.
    { rewrite list_lookup_imap, Hg. simpl. reflexivity. }
    intros sym j. rewrite list_elem_of_omap. split.
    + intros ([j' atom] & Hin & Hf). simpl in Hf.
      case_decide as Hset; [|done]. injection Hf as <- <-.
      apply elem_of_lookup_imap in Hin as (j'' & atom' & [= -> ->] & Hlook).
      apply elem_of_list_to_set, list_elem_of_fmap in Hset as (col & -> & Hcol).
      apply list_elem_of_filter in Hcol as [Htag Hcol].
      rewrite strip_ends_brackets. split; [done|]. by exists col.
    + intros (Hlook & col & Hcol & Htag & <-).
      exists (j, "[" +:+ col_text col +:+ "]"). split.
      * apply elem_of_lookup_imap. by exists j, ("[" +:+ col_text col +:+ "]").
      * simpl. rewrite decide_True; [by rewrite strip_ends_brackets|].
        apply elem_of_list_to_set, list_elem_of_fmap. exists col. split; [done|].
        by apply list_elem_of_filter.
Qed.

(** ** Further properties of the molecular graph adapter *)

Lemma BOND_TO_INT_range t v :
  dict_get t BOND_TO_INT = Some v -> (0 <= v <= 6)%Z.
Proof.
  unfold dict_get, BOND_TO_INT. simpl.
  repeat (case_bool_decide; simpl; [intros [= <-]; lia|]). done.
Qed.

Lemma norm_index_Ok len i :
  (- Z.of_nat len <= i < Z.of_nat len)%Z <-> exists i', norm_index len i = Ok i'.
Proof.
  unfold norm_index. split.
  - intros H. repeat case_decide; eauto. lia.
  - intros [i' H]. repeat case_decide; try done; lia.
Qed.

Lemma set_edge_Ok n edges i j v :
  square n edges ->
  (- Z.of_nat n <= i < Z.of_nat n)%Z -> (- Z.of_nat n <= j < Z.of_nat n)%Z ->
  exists edges', set_edge edges i j v = Ok edges'.
Proof.
  intros Hsq Hi Hj. unfold set_edge.
  apply norm_index_Ok in Hi as [i' Hi]. apply norm_index_Ok in Hj as [j' Hj].
  pose proof Hsq as [Hlen Hrows]. rewrite Hlen, Hi. simpl.
  apply norm_index_lt in Hi.
  destruct (lookup_lt_is_Some_2 edges i') as [row Hrow]; [lia|].
  unfold index. rewrite Hrow. simpl.
  rewrite (square_lookup _ _ _ _ Hsq Hrow), Hj. simpl. eauto.
Qed.

Lemma add_bond_Ok_iff n edges b :
  square n edges ->
  (exists edges', add_bond edges b = Ok edges') <-> valid_bond n b.
Proof.
  intros Hsq. unfold valid_bond, add_bond. destruct (b_endpoints b) as [i j]. simpl. split.
  - intros [edges' H]. ok_bind H as v Hv. ok_bind H as edges1 H1.
    destruct (set_edge_spec _ _ _ _ _ _ Hsq H1) as (i' & j' & Hi & Hj & _).
    split; [|split].
    + destruct (dict_get (b_type b) BOND_TO_INT); [eauto|done].
    + apply norm_index_Ok. eauto.
    + apply norm_index_Ok. eauto.
  - intros ([v Hv] & Hi & Hj). rewrite Hv. simpl.
    destruct (set_edge_Ok n edges i j v Hsq Hi Hj) as [edges1 H1]. rewrite H1. simpl.
    destruct (set_edge_spec _ _ _ _ _ _ Hsq H1) as (_ & _ & _ & _ & Hsq1 & _).
    apply (set_edge_Ok n edges1 j i v Hsq1 Hj Hi).
Qed.

Lemma add_bonds_Ok_iff n bonds : forall edges,
  square n edges ->
  (exists edges', for_ bonds edges add_bond = Ok edges') <-> Forall (valid_bond n) bonds.
Proof.
  induction bonds as [|b bonds IH]; intros edges Hsq; simpl.
  - split; [constructor|eauto].
  - rewrite Forall_cons, <- (add_bond_Ok_iff n edges b Hsq). split.
    + intros [edges' H]. ok_bind H as edges1 H1. split; [eauto|].
      assert (Hsq1 : square n edges1).
      { destruct (b_endpoints b) as [i j] eqn:Eb. unfold add_bond in H1. rewrite Eb in H1.
        ok_bind H1 as v Hv. ok_bind H1 as e1 He1. ok_bind H1 as v' Hv'.
        destruct (set_edge_spec _ _ _ _ _ _ Hsq He1) as (_ & _ & _ & _ & Hsq' & _).
        by destruct (set_edge_spec _ _ _ _ _ _ Hsq' H1) as (_ & _ & _ & _ & ? & _). }
      apply (IH _ Hsq1). eauto.
    + intros [[edges1 H1] Hall]. rewrite H1. simpl.
      assert (Hsq1 : square n edges1).
      { destruct (b_endpoints b) as [i j] eqn:Eb. unfold add_bond in H1. rewrite Eb in H1.
        ok_bind H1 as v Hv. ok_bind H1 as e1 He1. ok_bind H1 as v' Hv'.
        destruct (set_edge_spec _ _ _ _ _ _ Hsq He1) as (_ & _ & _ & _ & Hsq' & _).
        by destruct (set_edge_spec _ _ _ _ _ _ Hsq' H1) as (_ & _ & _ & _ & ? & _). }
      by apply (IH _ Hsq1).
Qed.

Section AdapterMore.
Context {Image : Type}.
Variable crop : Image -> bbox -> Image.
Variable predict_images : list Image -> list mol_output.

(** The adjacency matrix of a recognised molecule gets built exactly when
    every bond has a known type and endpoints within the atoms, counted from
    either end; otherwise the adapter raises. *)
Theorem fill_returns_iff_bonds_valid (mol : mol_output) (result : graph Image) :
  (exists g, fill mol result = Ok g) <->
  Forall (valid_bond (length (o_atoms mol))) (o_bonds mol).
Proof.
  rewrite <- (add_bonds_Ok_iff _ _ (zeros (length (o_atoms mol)))) by apply zeros_square.
  unfold fill. split.
  - intros [g H]. ok_bind H as edges He. eauto.
  - intros [edges He]. rewrite He. simpl. eauto.
Qed.

End AdapterMore.

Section AdapterShape.
Context {Image : Type}.
Variable crop : Image -> bbox -> Image.
Variable predict_images : list Image -> list mol_output.

Lemma collect_molecules_keys image key (l : list (nat * item)) :
  forall (acc acc' : list Image * list (graph Image)),
  for_ l acc (collect_molecule crop image key) = Ok acc' ->
  g_key <$> acc'.2
  = (g_key <$> acc.2)
    ++ omap (fun ielt : nat * item => if is_mol ielt.2 then Some (key, ielt.1) else None) l /\
  (Forall fresh_graph acc.2 -> Forall fresh_graph acc'.2).
Proof.
  induction l as [|[i elt] l IH]; intros acc acc' H; simpl in H.
  - injection H as <-. by rewrite app_nil_r.
  - ok_bind H as acc1 H1. apply IH in H as [-> Hfresh]. clear IH.
    unfold collect_molecule in H1. simpl in *.
    destruct elt as [e|sub]; simpl.
    + ok_bind H1 as category Hcat.
      destruct (e_category e) as [c|] eqn:Ec; [|done]. injection Hcat as ->.
      case_decide as Hmol.
      * ok_bind H1 as b Hb. injection H1 as <-. simpl. subst category.
        rewrite bool_decide_true by done. rewrite fmap_app, <- app_assoc. split; [done|].
        intros Hf. apply Hfresh. apply Forall_app. split; [done|]. by repeat constructor.
      * injection H1 as <-. rewrite bool_decide_false; [done|]. by intros [= ->].
    + by injection H1 as <-.
Qed.

Lemma collect_reaction_keys image (reaction : reaction) :
  forall (acc acc' : list Image * list (graph Image)),
  for_ reaction acc
    (fun acc kv => for_ (enumerate kv.2) acc (collect_molecule crop image kv.1)) = Ok acc' ->
  g_key <$> acc'.2 = (g_key <$> acc.2) ++ mol_positions reaction /\
  (Forall fresh_graph acc.2 -> Forall fresh_graph acc'.2).
Proof.
  induction reaction as [|kv reaction IH]; intros acc acc' H; simpl in H.
  - injection H as <-. unfold mol_positions. simpl. by rewrite app_nil_r.
  - ok_bind H as acc1 H1. apply IH in H as [-> Hf2].
    apply collect_molecules_keys in H1 as [-> Hf1].
    unfold mol_positions. simpl. rewrite <- app_assoc. split; [done|]. auto.
Qed.

Lemma fill_shape mol (result g : graph Image) :
  fresh_graph result -> fill mol result = Ok g ->
  g_key g = g_key result /\
  length (g_coords g) = length (g_symbols g) /\
  Forall (Forall (fun v => (0 <= v <= 6)%Z)) (g_edges g).
Proof.
  intros (Hc & Hs & _) H. unfold fill in H. ok_bind H as edges He. injection H as <-.
  simpl. rewrite Hc, Hs. simpl. rewrite !length_fmap. split; [done|]. split; [done|].
  revert He.
  apply (for_inv (fun edges : list (list Z) =>
                    Forall (Forall (fun v => (0 <= v <= 6)%Z)) edges)).
  - intros e b e' _ Hinv Hb. unfold add_bond in Hb. destruct (b_endpoints b) as [i j].
    ok_bind Hb as v Hv. ok_bind Hb as e1 He1. ok_bind Hb as v' Hv'.
    assert (Hrange : forall t w, getitem (dict_get t BOND_TO_INT) = Ok w -> (0 <= w <= 6)%Z).
    { intros t w Hw. destruct (dict_get t BOND_TO_INT) eqn:E; [|done].
      injection Hw as <-. by eapply BOND_TO_INT_range. }
    assert (Hset : forall e0 a b0 w e1',
               Forall (Forall (fun v => (0 <= v <= 6)%Z)) e0 -> (0 <= w <= 6)%Z ->
               set_edge e0 a b0 w = Ok e1' ->
               Forall (Forall (fun v => (0 <= v <= 6)%Z)) e1').
    { clear. intros e0 a b0 w e1' Hinv Hw H. unfold set_edge in H.
      ok_bind H as a' Ha. ok_bind H as row Hrow. ok_bind H as b' Hb. injection H as <-.
      apply Forall_insert; [done|]. apply Forall_insert; [|done].
      unfold index in Hrow. destruct (e0 !! a') eqn:E; [|done]. injection Hrow as ->.
      rewrite Forall_forall in Hinv. apply Hinv. by eapply list_elem_of_lookup_2. }
    eapply Hset; [|eapply Hrange; exact Hv'|exact Hb].
    eapply Hset; [exact Hinv|eapply Hrange; exact Hv|exact He1].
  - unfold zeros. apply Forall_forall. intros row ->%elem_of_replicate_inv.
    apply Forall_forall. intros v ->%elem_of_replicate_inv. lia.
Qed.

Lemma fill_all_shape outputs : forall (results graphs : list (graph Image)),
  Forall fresh_graph results -> fill_all outputs results = Ok graphs ->
  g_key <$> graphs = g_key <$> results /\
  Forall (fun g => length (g_coords g) = length (g_symbols g) /\
                   Forall (Forall (fun v => (0 <= v <= 6)%Z)) (g_edges g)) graphs.
Proof.
  induction outputs as [|mol outputs IH]; intros results graphs Hfresh H.
  - assert (graphs = results) as -> by (destruct results; by injection H).
    split; [done|]. eapply Forall_impl; [exact Hfresh|].
    intros g (-> & -> & ->). by split.
  - destruct results as [|result results]; simpl in H.
    + injection H as <-. by split.
    + apply Forall_cons in Hfresh as [Hf Hfresh].
      ok_bind H as g Hg. ok_bind H as gs Hgs. injection H as <-.
      destruct (fill_shape _ _ _ Hf Hg) as (Hk & Hc & He).
      destruct (IH _ _ Hfresh Hgs) as [Hks Hall]. rewrite !fmap_cons, Hk, Hks.
      split; [done|]. by constructor.
Qed.

(** The adapter returns one graph for each ['[Mol]'] dictionary of the
    reaction and none for any other entry: the keys of the graphs are the
    positions of the ['[Mol]'] dictionaries, key by key and index by index. *)
Theorem get_atoms_and_bonds_one_graph_per_molecule image (reaction : reaction) graphs :
  get_atoms_and_bonds crop predict_images image reaction = Ok graphs ->
  g_key <$> graphs = mol_positions reaction.
Proof.
  intros H. unfold get_atoms_and_bonds in H. ok_bind H as acc Hacc.
  apply collect_reaction_keys in Hacc as [Hkeys Hfresh].
  apply fill_all_shape in H as [-> _]; [done|]. apply Hfresh. constructor.
Qed.

(** Every graph of the adapter has as many coordinates as atom symbols,
    and every entry of its adjacency matrix is a bond order code, between 0
    (no bond) and 6. *)
Theorem get_atoms_and_bonds_entries image (reaction : reaction) graphs :
  get_atoms_and_bonds crop predict_images image reaction = Ok graphs ->
  forall g, g ∈ graphs ->
    length (g_coords g) = length (g_symbols g) /\
    forall i j v, entry (g_edges g) i j = Some v -> (0 <= v <= 6)%Z.
Proof.
  intros H. unfold get_atoms_and_bonds in H. ok_bind H as acc Hacc.
  apply collect_reaction_keys in Hacc as [_ Hfresh].
  apply fill_all_shape in H as [_ Hall]; [|apply Hfresh; constructor].
  intros g Hg. rewrite Forall_forall in Hall. destruct (Hall g Hg) as [Hlen Hrange].
  split; [done|]. intros i j v He. unfold entry in He.
  destruct (g_edges g !! i) as [row|] eqn:Hrow; [|done]. simpl in He.
  rewrite Forall_forall in Hrange.
  assert (Hr : Forall (fun v => (0 <= v <= 6)%Z) row).
  { apply Hrange. by eapply list_elem_of_lookup_2. }
  rewrite Forall_forall in Hr. apply Hr. by eapply list_elem_of_lookup_2.
Qed.

End AdapterShape.

(** ** Further properties of the graph substitution engine *)

Section RelabelWrites.
Context {Image : Type}.
Variable mappings : gmap string string.
Variable graph_copy : list (graph_ref Image).
Hypothesis copies_distinct : NoDup (r_symbols <$> graph_copy).
Variable gi idx : nat.
Variable gc : graph_ref Image.
Variable value : string.
Hypothesis Hgc : graph_copy !! gi = Some gc.

Abbreviation written' := (written gc idx value).

Lemma relabel_atom_written graph_idx a σ σ' :
  (graph_idx = gi -> a.2 = idx -> forall v, mappings !! a.1 = Some v -> v = value) ->
  relabel_atom mappings graph_copy graph_idx σ a = Ok σ' ->
  (written' σ -> written' σ') /\
  (graph_idx = gi -> a.2 = idx -> is_Some (mappings !! a.1) -> written' σ').
Proof.
  intros Hagree H. unfold relabel_atom in H.
  destruct (mappings !! a.1) as [v|] eqn:Hmap.
  2:{ injection H as <-. split; [done|]. by intros _ _ [? ?]. }
  ok_bind H as g Hg. ok_bind H as symbols Hsym.
  case_decide as Hlt; [|discriminate]. injection H as <-.
  unfold index in Hg. destruct (graph_copy !! graph_idx) as [g'|] eqn:Hgi; [|discriminate].
  injection Hg as ->. unfold read_symbols in Hsym.
  destruct (σ !! r_symbols g) as [[]|] eqn:Hs; try discriminate. injection Hsym as ->.
  destruct (decide (graph_idx = gi)) as [->|Hne].
  - assert (g = gc) as -> by congruence. split.
    + intros (syms & Hsyms & Hidx). rewrite Hs in Hsyms. injection Hsyms as <-.
      exists (<[a.2 := v]> symbols). rewrite lookup_insert_eq. split; [done|].
      destruct (decide (a.2 = idx)) as [Heq|Hneq].
      * rewrite Heq, list_lookup_insert_eq by lia. f_equal. by apply Hagree.
      * by rewrite list_lookup_insert_ne.
    + intros _ Heq _. exists (<[a.2 := v]> symbols). rewrite lookup_insert_eq.
      split; [done|]. rewrite Heq, list_lookup_insert_eq by lia. f_equal. by apply Hagree.
  - split; [|done]. intros (syms & Hsyms & Hidx). exists syms. split; [|done].
    rewrite lookup_insert_ne; [done|]. intros Heq. apply Hne.
    eapply NoDup_lookup; [exact copies_distinct| |].
    + rewrite list_lookup_fmap, Hgi. simpl. reflexivity.
    + rewrite list_lookup_fmap, Hgc. simpl. by rewrite Heq.
Qed.

Lemma relabel_atoms_written graph_idx atoms : forall σ σ',
  (graph_idx = gi -> forall sym v, (sym, idx) ∈ atoms -> mappings !! sym = Some v ->
                     v = value) ->
  for_ atoms σ (relabel_atom mappings graph_copy graph_idx) = Ok σ' ->
  (written' σ -> written' σ') /\
  (graph_idx = gi ->
   (exists sym, (sym, idx) ∈ atoms /\ is_Some (mappings !! sym)) -> written' σ').
Proof.
  induction atoms as [|a atoms IH]; intros σ σ' Hagree H; simpl in H.
  - injection H as <-. split; [done|]. intros _ (sym & Hin & _). by apply elem_of_nil in Hin.
  - ok_bind H as σ1 H1.
    apply relabel_atom_written in H1 as [Hkeep1 Hwrite1].
    2:{ intros -> Heq v Hv. apply (Hagree eq_refl a.1); [|done].
        rewrite <- Heq. destruct a. by left. }
    apply IH in H as [Hkeep2 Hwrite2].
    2:{ intros Heq sym v Hin. apply (Hagree Heq). by right. }
    split; [auto|]. intros Heq (sym & Hin & Hmap).
    apply elem_of_cons in Hin as [Hhead|Htail].
    + apply Hkeep2, Hwrite1; [done|by rewrite <- Hhead|by rewrite <- Hhead].
    + apply Hwrite2; [done|]. by exists sym.
Qed.

Lemma relabel_locs_written (relevant_locs : located) : forall σ σ',
  (forall atoms sym v, (gi, atoms) ∈ relevant_locs -> (sym, idx) ∈ atoms ->
                       mappings !! sym = Some v -> v = value) ->
  for_ relevant_locs σ
    (fun σ kv => for_ kv.2 σ (relabel_atom mappings graph_copy kv.1)) = Ok σ' ->
  (written' σ -> written' σ') /\
  ((exists atoms sym, (gi, atoms) ∈ relevant_locs /\ (sym, idx) ∈ atoms /\
                      is_Some (mappings !! sym)) -> written' σ').
Proof.
  induction relevant_locs as [|[graph_idx atoms] locs IH]; intros σ σ' Hagree H; simpl in H.
  - injection H as <-. split; [done|]. intros (? & ? & Hin & _). by apply elem_of_nil in Hin.
  - ok_bind H as σ1 H1.
    apply relabel_atoms_written in H1 as [Hkeep1 Hwrite1].
    2:{ intros -> sym v Hin. apply (Hagree atoms); [by left|done]. }
    apply IH in H as [Hkeep2 Hwrite2].
    2:{ intros atoms' sym v Hin. apply (Hagree atoms'). by right. }
    split; [auto|]. intros (atoms' & sym & Hin & Hsym & Hmap).
    apply elem_of_cons in Hin as [[= <- <-]|Htail].
    + apply Hkeep2, Hwrite1; [done|]. by exists sym.
    + apply Hwrite2. by exists atoms', sym.
Qed.

End RelabelWrites.

(** A located atom whose symbol is a key of the mapping carries the mapped
    value in the graph copy, provided the located entries that name the same
    atom agree on the value. *)
Theorem replaced_graphs_relabels {Image} (graphs : list (graph_ref Image))
    relevant_locs mappings (σ : store) graph_copy σ' gi g atoms sym idx value :
  replaced_graphs graphs relevant_locs mappings σ = Ok (graph_copy, σ') ->
  graphs !! gi = Some g ->
  (gi, atoms) ∈ relevant_locs -> (sym, idx) ∈ atoms -> mappings !! sym = Some value ->
  (forall atoms' sym' v, (gi, atoms') ∈ relevant_locs -> (sym', idx) ∈ atoms' ->
                         mappings !! sym' = Some v -> v = value) ->
  exists gc syms',
    graph_copy !! gi = Some gc /\
    σ' !! r_symbols gc = Some (OSymbols syms') /\
    syms' !! idx = Some value.
Proof.
  intros H Hg Hlocs Hatoms Hmap Hagree. unfold replaced_graphs in H.
  ok_bind H as acc Hcopy. ok_bind H as σ2 Hrel. injection H as <- <-.
  apply copy_loop_spec in Hcopy as (_ & new & Hnew & Hall & Hnd).
  simpl in Hnew. subst new.
  destruct (Forall2_lookup_l _ _ _ _ _ Hall Hg) as (gc & Hgc & _).
  destruct (relabel_locs_written mappings acc.1 Hnd gi idx gc value Hgc
              relevant_locs _ _ Hagree Hrel) as [_ Hwrite].
  destruct Hwrite as (syms' & Hs & Hidx).
  { exists atoms, sym. by rewrite Hmap. }
  by exists gc, syms'.
Qed.

(** ** Further properties of the table-driven expander *)

Lemma append_copy_loop_dicts l : forall acc out,
  for_ l acc append_copy = Ok out -> Forall (fun e => exists d, e = Dict d) l.
Proof.
  induction l as [|e l IH]; intros acc out H; simpl in H; [constructor|].
  ok_bind H as acc1 H1. constructor; [|by eapply IH].
  destruct e; [eauto|done].
Qed.

Lemma copy_items_copyable (v : list item) : forall acc out,
  for_ v acc
    (fun copy_list entity =>
       match entity with
       | List l => sub_list ← for_ l [] append_copy; Ok (copy_list ++ [List sub_list])
       | Dict _ => append_copy copy_list entity
       end) = Ok out ->
  Forall copyable v.
Proof.
  induction v as [|e v IH]; intros acc out H; simpl in H; [constructor|].
  ok_bind H as acc1 H1. constructor; [|by eapply IH].
  destruct e as [d|l]; [done|]. simpl. ok_bind H1 as sub Hsub.
  by eapply append_copy_loop_dicts.
Qed.

(** The copy of a reaction goes through only if no list of the reaction
    holds a list that holds a list. *)
Lemma copy_reaction_copyable (orig_reaction : reaction) : forall rc,
  copy_reaction orig_reaction = Ok rc ->
  forall k v, (k, v) ∈ orig_reaction -> Forall copyable v.
Proof.
  unfold copy_reaction. generalize ([] : reaction).
  induction orig_reaction as [|kv orig IH]; intros acc rc H k v Hin; simpl in H.
  - by apply elem_of_nil in Hin.
  - ok_bind H as acc1 H1. ok_bind H1 as items Hitems.
    apply elem_of_cons in Hin as [Heq|Hin].
    + subst kv. by eapply copy_items_copyable.
    + by eapply IH.
Qed.

Section ExpanderMore.
Context {Image : Type}.
Variable crop : Image -> bbox -> Image.
Variable predict_images : list Image -> list mol_output.
Variable convert_graph_to_output : graph Image -> string.

Abbreviation run_table := (process_table crop predict_images convert_graph_to_output).
Abbreviation run_tables := (process_tables crop predict_images convert_graph_to_output).

Lemma process_tables_length figures : forall results out,
  run_tables figures results = Ok out -> length out = length results.
Proof.
  induction figures as [|f figures IH]; intros results out H.
  - destruct results; by injection H as <-.
  - destruct results as [|r results]; [by injection H as <-|]. simpl in H.
    ok_bind H as r1 H1. ok_bind H as rs Hrs. injection H as <-. simpl.
    f_equal. by apply IH.
Qed.

Lemma process_tables_beyond figures : forall results out i,
  run_tables figures results = Ok out -> figures !! i = None -> out !! i = results !! i.
Proof.
  induction figures as [|f figures IH]; intros results out i H Hf.
  - destruct results; by injection H as <-.
  - destruct results as [|r results]; [by injection H as <-|]. simpl in H.
    ok_bind H as r1 H1. ok_bind H as rs Hrs. injection H as <-.
    destruct i as [|i]; [done|]. simpl in *. by eapply IH.
Qed.

(** What a pass over one figure keeps of a result, whatever the figure. *)
Lemma process_table_keeps figure result result' :
  run_table figure result = Ok result' ->
  page result' = Some (fig_page figure) /\
  (fig_table_content figure = None -> reactions result' = reactions result) /\
  (reactions result = [] -> reactions result' = []) /\
  forall orig_reaction others, reactions result = orig_reaction :: others ->
    exists orig_reaction' new,
      reactions result' = orig_reaction' :: others ++ new /\
      dict_get "reactants" orig_reaction' = dict_get "reactants" orig_reaction /\
      dict_get "products" orig_reaction' = dict_get "products" orig_reaction.
Proof.
  intros H. destruct (fig_table_content figure) as [content|] eqn:Hcontent.
  - destruct (reactions result) as [|orig others] eqn:Hr.
    + unfold process_table in H. rewrite Hcontent, Hr in H. injection H as <-. done.
    + destruct (process_table_spec _ _ _ _ _ _ _ _ _ Hcontent Hr H)
        as (conditions & new & Hc & Hpage & Hreact & _).
      split; [done|]. split; [done|]. split; [done|].
      intros o os [= <- <-]. eexists _, new. split; [exact Hreact|].
      by rewrite !dict_get_set_ne.
  - unfold process_table in H. rewrite Hcontent in H. injection H as <-. simpl.
    split; [done|]. split; [done|]. split; [done|].
    intros o os ->. exists o, []. by rewrite app_nil_r.
Qed.

(** The expander returns as many results as it was given; it sets the
    page of every result that has a figure and leaves the results beyond the
    figures alone. It removes no instance: a figure without table leaves the
    instances as they are, and in every case the instances after the first
    stay in place, new ones come after them, and the first keeps its
    reactants and products. *)
Theorem process_tables_keeps_instances figures results out :
  run_tables figures results = Ok out ->
  length out = length results /\
  (forall i, figures !! i = None -> out !! i = results !! i) /\
  forall i figure result,
    figures !! i = Some figure -> results !! i = Some result ->
    exists result',
      out !! i = Some result' /\
      page result' = Some (fig_page figure) /\
      (fig_table_content figure = None -> reactions result' = reactions result) /\
      (reactions result = [] -> reactions result' = []) /\
      forall orig_reaction others, reactions result = orig_reaction :: others ->
        exists orig_reaction' new,
          reactions result' = orig_reaction' :: others ++ new /\
          dict_get "reactants" orig_reaction' = dict_get "reactants" orig_reaction /\
          dict_get "products" orig_reaction' = dict_get "products" orig_reaction.
Proof.
  intros H. split; [by eapply process_tables_length|].
  split; [intros i; by eapply process_tables_beyond|].
  intros i figure result Hf Hr.
  destruct (process_tables_lookup _ _ _ _ _ _ _ _ _ H Hf Hr) as (r & Hout & Hrun).
  exists r. split; [done|]. by apply process_table_keeps.
Qed.

(** A third run over a figure whose table has a row does not return: the
    conditions the second run leaves hold a list within a list within a
    list, which [get_replaced_reaction] cannot copy. *)
Theorem process_tables_third_run_raises figures results out1 out2 i figure content
    result :
  run_tables figures results = Ok out1 ->
  run_tables figures out1 = Ok out2 ->
  figures !! i = Some figure -> fig_table_content figure = Some content ->
  rows content <> [] ->
  results !! i = Some result -> reactions result <> [] ->
  exists e, run_tables figures out2 = Raise e.
Proof.
  intros H1 H2 Hf Hcontent Hrows Hr Hreact.
  destruct (run_tables figures out2) as [out3|e] eqn:H3; [|by exists e]. exfalso.
  destruct (reactions result) as [|orig others] eqn:Hreactions; [done|].
  destruct (process_tables_lookup _ _ _ _ _ _ _ _ _ H1 Hf Hr) as (r1 & Hr1 & Hp1).
  destruct (process_tables_lookup _ _ _ _ _ _ _ _ _ H2 Hf Hr1) as (r2 & Hr2 & Hp2).
  destruct (process_tables_lookup _ _ _ _ _ _ _ _ _ H3 Hf Hr2) as (r3 & Hr3 & Hp3).
  destruct (process_table_spec _ _ _ _ _ _ _ _ _ Hcontent Hreactions Hp1)
    as (conditions & new1 & Hc & _ & Hreact1 & _).
  destruct (process_table_spec _ _ _ _ _ _ _ _ _ Hcontent Hreact1 Hp2)
    as (conditions1 & new2 & Hc1 & _ & Hreact2 & _).
  rewrite dict_get_set_eq in Hc1. injection Hc1 as <-.
  unfold process_table in Hp3. rewrite Hcontent, Hreact2 in Hp3.
  ok_bind Hp3 as graphs Hgraphs.
  destruct (alloc_graphs ∅ graphs) as [graph_refs σ].
  ok_bind Hp3 as st Hst.
  destruct (rows content) as [|row rest]; [done|]. simpl in Hst.
  ok_bind Hst as st1 Hrow. unfold process_row in Hrow.
  ok_bind Hrow as conditions2 Hc2. ok_bind Hrow as rs Hrs.
  unfold get_replaced_reaction in Hrs.
  ok_bind Hrs as acc Hacc. ok_bind Hrs as rc Hrc.
  match type of Hrc with copy_reaction ?o = _ => set (o2 := o) in * end.
  assert (Hin : dict_get "conditions" o2 = Some _) by apply dict_get_set_eq.
  apply dict_get_Some_elem_of in Hin.
  pose proof (copy_reaction_copyable _ _ Hrc _ _ Hin) as Hcopy.
  apply Forall_cons in Hcopy as [Hcopy _]. simpl in Hcopy.
  apply Forall_cons in Hcopy as [(d & Hd) _]. discriminate.
Qed.

End ExpanderMore.

(** ** The scan of one table row *)

Section RowScanFacts.

Lemma scan_cells_spec l : forall st,
  let st' := foldl scan_cell st l in
  expanded_conditions st'
    = expanded_conditions st ++
      ((fun ce => table_condition ce.1 ce.2)
         <$> filter (fun ce => col_tag ce.1 ≠ "alkyl group") l) /\
  (replaced st' = true <->
   replaced st = true \/
   Exists (fun ce => col_tag ce.1 = "alkyl group" /\
                     is_Some (Re.re_match Re.r_group_pattern (cell_text ce.2))) l) /\
  forall name value, r_groups st' !! name = Some value ->
    r_groups st !! name = Some value \/
    exists col entry found,
      (col, entry) ∈ l /\ col_tag col = "alkyl group" /\ col_text col = name /\
      Re.re_match Re.r_group_pattern (cell_text entry) = Some found /\
      value = group "group" found.
Proof.
  induction l as [|[col entry] l IH]; intros st; cbv zeta; cbn [foldl].
  - rewrite filter_nil. simpl. rewrite app_nil_r. split; [done|]. split; [|by left].
    rewrite Exists_nil. tauto.
  - pose proof (IH (scan_cell st (col, entry))) as IH'. cbv zeta in IH'.
    destruct IH' as (Hc & Hr & Hg). clear IH.
    rewrite Hc, Hr. clear Hc Hr. rewrite filter_cons, Exists_cons.
    unfold scan_cell in *. cbn [fst snd]. case_decide as Htag; simpl.
    + rewrite <- app_assoc. split; [done|]. split; [tauto|].
      intros name value H. destruct (Hg _ _ H) as [?|(c & e & f & Hin & ?)]; [by left|].
      right. exists c, e, f. split; [by right|done].
    + destruct (Re.re_match Re.r_group_pattern (cell_text entry)) as [found|] eqn:Hm.
      * split; [done|]. split.
        { cbn [replaced]. split; [|by left]. intros _. right. left. split; [done|by eexists]. }
        intros name value H. destruct (Hg _ _ H) as [H'|(c & e & f & Hin & ?)].
        -- cbn [r_groups] in H'. destruct (decide (col_text col = name)) as [<-|Hne].
           ++ rewrite lookup_insert_eq in H'. injection H' as <-.
              right. exists col, entry, found. split; [by left|done].
           ++ rewrite lookup_insert_ne in H' by done. by left.
        -- right. exists c, e, f. split; [by right|done].
      * split; [done|]. split.
        -- split; [tauto|]. intros [?|[[_ [? ?]]|?]]; [tauto|done|tauto].
        -- intros name value H. destruct (Hg _ _ H) as [?|(c & e & f & Hin & ?)]; [by left|].
           right. exists c, e, f. split; [by right|done].
Qed.

(** The scan of a row pairs the columns with the cells up to the shorter
    of the two. Its conditions are the original conditions followed, in
    column order, by one table record per cell of a column that is not an
    alkyl group column; it yields a substitution exactly if a cell of an
    alkyl group column matches the pattern; and each substituent it records
    is the group a matching cell of an alkyl group column names, under that
    column's header. *)
Theorem scan_row_spec conditions columns row :
  let scan := scan_row conditions columns row in
  expanded_conditions scan
    = conditions ++
      ((fun ce => table_condition ce.1 ce.2)
         <$> filter (fun ce => col_tag ce.1 ≠ "alkyl group") (row_cells columns row)) /\
  (replaced scan = true <->
   Exists (fun ce => col_tag ce.1 = "alkyl group" /\
                     is_Some (Re.re_match Re.r_group_pattern (cell_text ce.2)))
     (row_cells columns row)) /\
  forall name value, r_groups scan !! name = Some value ->
    exists col entry found,
      (col, entry) ∈ row_cells columns row /\
      col_tag col = "alkyl group" /\ col_text col = name /\
      Re.re_match Re.r_group_pattern (cell_text entry) = Some found /\
      value = group "group" found.
Proof.
  destruct (scan_cells_spec (zip columns row) (RowScan ∅ conditions false))
    as (Hc & Hr & Hg).
  split; [exact Hc|]. split.
  - unfold scan_row, row_cells. rewrite Hr. simpl. split; [by intros [?|?]|by right].
  - intros name value H. by destruct (Hg _ _ H) as [?|?].
Qed.

End RowScanFacts.

(** ** The reaction [get_replaced_reaction] returns *)

Lemma append_copy_loop l : forall acc out,
  for_ l acc append_copy = Ok out -> out = acc ++ l.
Proof.
  induction l as [|e l IH]; intros acc out H; simpl in H.
  - injection H as <-. by rewrite app_nil_r.
  - ok_bind H as acc1 H1. apply IH in H as ->. destruct e as [e|?]; [|done].
    simpl in H1. ok_bind H1 as c Hc. injection H1 as <-. by rewrite <- app_assoc.
Qed.

Lemma copy_items_loop (v : list item) : forall acc out,
  for_ v acc
    (fun copy_list entity =>
       match entity with
       | List l => sub_list ← for_ l [] append_copy; Ok (copy_list ++ [List sub_list])
       | Dict _ => append_copy copy_list entity
       end) = Ok out ->
  out = acc ++ v.
Proof.
  induction v as [|e v IH]; intros acc out H; simpl in H.
  - injection H as <-. by rewrite app_nil_r.
  - ok_bind H as acc1 H1. apply IH in H as ->.
    destruct e as [e|l].
    + simpl in H1. ok_bind H1 as c Hc. injection H1 as <-. by rewrite <- app_assoc.
    + ok_bind H1 as sub Hsub. apply append_copy_loop in Hsub as ->. injection H1 as <-.
      by rewrite <- app_assoc.
Qed.

(** The copy of a reaction with distinct keys has the original's keys, in
    the original's order, and the original's elements. *)
Lemma copy_reaction_eq (orig_reaction rc : reaction) :
  NoDup orig_reaction.*1 -> copy_reaction orig_reaction = Ok rc -> rc = orig_reaction.
Proof.
  unfold copy_reaction.
  enough (forall acc : reaction, NoDup (acc.*1 ++ orig_reaction.*1) ->
            for_ orig_reaction acc
              (fun reaction_copy kv =>
                 items ← for_ kv.2 []
                   (fun copy_list entity =>
                      match entity with
                      | List l => sub_list ← for_ l [] append_copy;
                                  Ok (copy_list ++ [List sub_list])
                      | Dict _ => append_copy copy_list entity
                      end);
                 Ok (dict_set kv.1 items reaction_copy)) = Ok rc ->
            rc = acc ++ orig_reaction) as Hgen by (intros; by apply (Hgen [])).
  induction orig_reaction as [|[k v] orig IH]; intros acc Hnd H; simpl in H.
  - injection H as <-. by rewrite app_nil_r.
  - ok_bind H as acc1 H1. ok_bind H1 as items Hitems. injection H1 as <-.
    apply copy_items_loop in Hitems as ->. simpl in *.
    rewrite dict_set_fresh in H.
    + apply IH in H; [by rewrite H, <- app_assoc|].
      rewrite fmap_app, <- app_assoc. done.
    + apply NoDup_app in Hnd as (_ & Hnd & _). intros Hin. apply (Hnd _ Hin). by left.
Qed.

Section ReturnedReaction.
Context {Image : Type}.
Variable convert_graph_to_output : graph Image -> string.

Lemma copy_loop_keys graphs : forall (acc out : list (graph_ref Image) * store),
  for_ graphs acc copy_graph = Ok out ->
  r_key <$> out.1 = (r_key <$> acc.1) ++ (r_key <$> graphs).
Proof.
  induction graphs as [|g graphs IH]; intros acc out H; simpl in H.
  - injection H as <-. by rewrite app_nil_r.
  - ok_bind H as acc1 H1. apply IH in H as ->. unfold copy_graph in H1.
    ok_bind H1 as coords Hc. destruct (alloc _ _) as [lc σ1].
    ok_bind H1 as symbols Hs. destruct (alloc _ _) as [ls σ2].
    ok_bind H1 as rows He. destruct (alloc _ _) as [le σ3].
    injection H1 as <-. simpl. rewrite fmap_app, <- app_assoc. done.
Qed.

Lemma replaced_graphs_keys (graphs : list (graph_ref Image)) relevant_locs mappings (σ : store) graph_copy σ' :
  replaced_graphs graphs relevant_locs mappings σ = Ok (graph_copy, σ') ->
  r_key <$> graph_copy = r_key <$> graphs.
Proof.
  intros H. unfold replaced_graphs in H. ok_bind H as acc Hacc. ok_bind H as σ1 Hσ.
  injection H as <- <-. by apply copy_loop_keys in Hacc.
Qed.

Lemma set_smiles_twice s s0 e : set_smiles s (set_smiles s0 e) = set_smiles s e.
Proof. done. Qed.

Lemma write_smiles_only_smiles keys orig σ rc (gc : graph_ref Image) rc' :
  r_key gc ∈ keys -> only_smiles keys orig rc ->
  write_smiles convert_graph_to_output σ rc gc = Ok rc' -> only_smiles keys orig rc'.
Proof.
  intros Hkey [Hkeys Hitems] H. unfold write_smiles in H.
  ok_bind H as g Hg. ok_bind H as molecules Hm. ok_bind H as molecule Hmol.
  destruct molecule as [e|?]; [|done]. injection H as <-.
  destruct (dict_get (r_key gc).1 rc) as [m|] eqn:Hget; [|done]. injection Hm as ->.
  unfold index in Hmol. destruct (molecules !! (r_key gc).2) as [m|] eqn:Hj; [|done].
  injection Hmol as ->. split.
  - by rewrite (dict_set_keys _ _ _ _ Hget).
  - intros k items Hk. destruct (Hitems _ _ Hk) as (items' & Hget' & Hlen & Hj').
    destruct (decide (k = (r_key gc).1)) as [->|Hne].
    + rewrite dict_get_set_eq. rewrite Hget in Hget'. injection Hget' as <-.
      eexists. split; [done|]. split; [by rewrite length_insert|].
      intros j. destruct (decide (j = (r_key gc).2)) as [->|Hnej].
      * rewrite list_lookup_insert_eq by (by eapply lookup_lt_Some).
        right. split; [by destruct (r_key gc)|].
        destruct (Hj' (r_key gc).2) as [Heq|(_ & e0 & s0 & Hold & Hnew)].
        -- exists e, (convert_graph_to_output g). by rewrite <- Heq, Hj.
        -- exists e0, (convert_graph_to_output g). split; [done|].
           rewrite Hj in Hnew. injection Hnew as ->. done.
      * rewrite list_lookup_insert_ne by done. apply Hj'.
    + rewrite dict_get_set_ne by done. by exists items'.
Qed.

(** The reaction returned for a reaction with distinct keys has the
    original's keys in the original's order and, under each key, a list as
    long as the original's. An element of it differs from the original's
    element at the same place only where a graph's key names the place, and
    there only in the ['smiles'] of a dictionary. *)
Theorem get_replaced_reaction_changes_only_smiles orig_reaction
    (graphs : list (graph_ref Image)) relevant_locs
    mappings (σ : store) reaction_copy σ' :
  NoDup orig_reaction.*1 ->
  get_replaced_reaction convert_graph_to_output orig_reaction graphs
    relevant_locs mappings σ = Ok (reaction_copy, σ') ->
  reaction_copy.*1 = orig_reaction.*1 /\
  forall k items, dict_get k orig_reaction = Some items ->
    exists items',
      dict_get k reaction_copy = Some items' /\ length items' = length items /\
      forall j, smiles_written (r_key <$> graphs) k j (items !! j) (items' !! j).
Proof.
  intros Hnd H. unfold get_replaced_reaction in H.
  ok_bind H as acc Hacc. ok_bind H as rc0 Hrc0. ok_bind H as rc Hrc.
  injection H as <- <-. destruct acc as [graph_copy σ2]. simpl in *.
  apply copy_reaction_eq in Hrc0 as ->; [|done].
  apply replaced_graphs_keys in Hacc as <-.
  revert Hrc. apply (for_inv (only_smiles (r_key <$> graph_copy) orig_reaction)).
  - intros rc1 gc rc2 Hin Hinv Hw. eapply write_smiles_only_smiles; [|done|done].
    apply list_elem_of_fmap. by exists gc.
  - split; [done|]. intros k items Hk. exists items. split; [done|]. split; [done|].
    intros j. by left.
Qed.

End ReturnedReaction.

(** ** What [backout] returns *)

Lemma extend_last_nil final : extend_last [] final = final.
Proof.
  unfold extend_last. apply list_eq. intros i.
  destruct (decide (i = length final - 1)) as [->|Hne].
  - rewrite list_lookup_alter_eq. destruct (final !! _) as [[r p]|]; simpl; [|done].
    by rewrite app_nil_r.
  - by rewrite list_lookup_alter_ne.
Qed.

Lemma append_to_new_res_extend_last new_rxn emitted final :
  append_to_new_res new_rxn (extend_last emitted final)
  = extend_last (emitted ++ [new_rxn]) final.
Proof.
  unfold append_to_new_res, extend_last. rewrite length_alter, list_alter_alter_eq.
  apply list_alter_ext; [|done]. intros r _. unfold add_reaction. simpl.
  by rewrite <- app_assoc.
Qed.

Lemma relabelled_as_empty reactants relabelled :
  Forall2 (relabelled_as ∅) reactants relabelled -> relabelled = reactants.
Proof.
  induction 1 as [|r r' l l' Hr _ IH]; [done|]. subst l'. f_equal.
  destruct Hr as [(e & s & label & _ & _ & Hl & _)|[-> _]]; [|done].
  by rewrite lookup_empty in Hl.
Qed.

Lemma enumerate_lookup {A} (l : list A) i a : (i, a) ∈ enumerate l -> l !! i = Some a.
Proof.
  unfold enumerate. intros Hin. apply list_elem_of_lookup in Hin as [j Hj].
  rewrite list_lookup_imap in Hj. destruct (l !! j) eqn:Hl; [|done].
  by injection Hj as <- <-.
Qed.

Lemma candidates_elem_of results other_res other_rxn :
  other_res ∈ results -> other_rxn ∈ reactions other_res -> other_rxn ∈ candidates results.
Proof.
  intros Hres Hrxn. unfold candidates. apply list_elem_of_In, in_concat.
  exists (reactions other_res). split; [|by apply list_elem_of_In].
  apply list_elem_of_In, list_elem_of_fmap. by exists other_res.
Qed.

Section BackoutOutput.
Context {Mol : Type}.
Variable MolFromSmiles : string -> option Mol.
Variable HasSubstructMatch : Mol -> Mol -> bool.

Abbreviation emitted_from' := (emitted_from MolFromSmiles HasSubstructMatch).

Lemma without_rgroups_kept results : forall final0,
  comprehension without_rgroups results = Ok final0 -> final0 = kept <$> results.
Proof.
  intros final0 H. apply comprehension_Forall2 in H.
  induction H as [|res f results final0 Hf _ IH]; [done|].
  rewrite fmap_cons. f_equal; [|done].
  apply without_rgroups_loop in Hf as [Hr Hp]. destruct f as [r p]. simpl in *.
  unfold kept. by rewrite Hr, Hp.
Qed.

(** [backout] returns one result per input result, none with a page. All
    but the last hold exactly the reactions of the input result whose first
    product is free of ["*"] and ["R"]; the last holds those of the last
    input result followed by every emitted instance, whichever result the
    instance was emitted for. An emitted instance has the reactants and the
    products of a reaction whose first product has a ["*"], as they are: no
    reactant is replaced by a label, with any coreference data. *)
Theorem backout_output results corefs final :
  backout MolFromSmiles HasSubstructMatch results corefs = Ok final ->
  exists emitted,
    final = extend_last emitted (kept <$> results) /\
    Forall (emitted_from' results corefs) emitted.
Proof.
  intros H. unfold backout in H. ok_bind H as final0 H0.
  apply without_rgroups_kept in H0 as ->.
  set (I := fun final => exists emitted,
              final = extend_last emitted (kept <$> results) /\
              Forall (emitted_from' results corefs) emitted).
  revert H. apply (for_inv I); [|exists []; by rewrite extend_last_nil].
  intros st [i res] st' Hires Hst H. apply enumerate_lookup in Hires.
  unfold backout_res in H. simpl in H. ok_bind H as coref_res Hcoref.
  destruct coref_res as [[[mol_bboxes_text coref_smiles] bboxes]|]; [|by injection H as <-].
  rewrite build_coref_smiles_to_graphs_empty in H.
  revert H. apply (for_inv I); [|done]. clear st Hst st'.
  intros st rxn st' Hrxn Hst H.
  unfold backout_rxn in H. ok_bind H as s Hs.
  destruct s as [[prod_smiles|]|]; [|by injection H as <-..].
  destruct (contains "*" prod_smiles) eqn:Hstar; [|by injection H as <-].
  revert H. apply (for_inv I); [|done]. clear st Hst st'.
  intros st other_res st' Hother Hst. apply (for_inv I); [|done]. clear st Hst st'.
  intros st other_rxn st' Hother_rxn (emitted & -> & Hall) H.
  apply backout_other_spec in H.
  destruct (passes MolFromSmiles HasSubstructMatch prod_smiles other_rxn) eqn:Hpass.
  - destruct H as (new_rxn & Hnew & ->).
    apply build_new_rxn_spec in Hnew as (reactants & products & relabelled & Hr & Hp & -> & Hrel).
    apply relabelled_as_empty in Hrel as ->.
    eexists. split; [apply append_to_new_res_extend_last|].
    apply Forall_app. split; [done|]. apply Forall_singleton.
    exists i, res, (mol_bboxes_text, coref_smiles, bboxes), rxn, prod_smiles, other_rxn,
      reactants, products.
    repeat (split; [done|]). split; [by eapply candidates_elem_of|done].
  - subst st'. by exists emitted.
Qed.

End BackoutOutput.

(** ** R-groups named in a figure *)

Section FigureRGroupsFacts.
Import FigureRGroups.
Context {Image : Type}.
Variable crop : Image -> bbox -> Image.
Variable predict_images : list Image -> list mol_output.
Variable convert_graph_to_output : graph Image -> string.

Abbreviation replace_in_figure' :=
  (replace_in_figure crop predict_images convert_graph_to_output).
Abbreviation replace_rgroups_in_figure' :=
  (replace_rgroups_in_figure crop predict_images convert_graph_to_output).

Lemma exec_Class {R} p pos (s : list ascii) gs
    (k : nat -> list ascii -> Re.groups -> option R) x :
  Re.exec (Re.Class p) pos s gs k = Some x ->
  exists ch s', s = ch :: s' /\ p ch = true /\ k (S pos) s' gs = Some x.
Proof. destruct s as [|ch s]; simpl; [done|]. destruct (p ch) eqn:E; [eauto|done]. Qed.

Lemma exec_Lit {R} c pos (s : list ascii) gs
    (k : nat -> list ascii -> Re.groups -> option R) x :
  Re.exec (Re.Lit c) pos s gs k = Some x ->
  exists s', s = c :: s' /\ k (S pos) s' gs = Some x.
Proof.
  destruct s as [|ch s]; simpl; [done|]. destruct (Ascii.eqb ch c) eqn:E; [|done].
  apply Ascii.eqb_eq in E as ->. eauto.
Qed.

Lemma pattern_exec_needs pos (s : list ascii) x :
  Re.exec pattern pos s ∅ Re.accept = Some x -> "="%char ∈ s /\ 3 <= length s.
Proof.
  intros E. unfold pattern in E.
  set (A := Re.Class (Re.one_of ["R"; "X"; "Y"]%char)) in *.
  set (D := Re.Opt (Re.Class digit)) in *.
  set (B := Re.Opt (Re.Plus (Re.one_of [" "%char]))) in *.
  set (Q := Re.Lit "=") in *.
  change (Re.exec A pos s ∅
            (fun p1 s1 g1 => Re.exec D p1 s1 g1
               (fun p2 s2 g2 =>
                  Re.exec B p2 s2
                    (<["name" := string_of_list_ascii (take (p2 - pos) s)]> g2)
                    (fun p3 s3 g3 => Re.exec Q p3 s3 g3
                       (fun p4 s4 g4 => Re.exec B p4 s4 g4
                          (fun p5 s5 g5 => Re.plus Re.word p5 s5
                             (fun p6 s6 =>
                                Re.accept p6 s6
                                  (<["group" := string_of_list_ascii (take (p6 - p5) s5)]>
                                     g5))))))) = Some x) in E.
  apply exec_Class in E as (ch & s0 & -> & _ & E).
  apply exec_consumes in E as (c1 & s1 & gs1 & -> & _ & E).
  apply exec_consumes in E as (c2 & s2 & gs2 & -> & _ & E).
  apply exec_Lit in E as (s3 & -> & E).
  apply exec_consumes in E as (c3 & s4 & gs3 & -> & _ & E).
  apply plus_consumes in E as (c4 & s5 & -> & Hne & _ & _).
  split.
  - right. rewrite !elem_of_app. right. right. by left.
  - destruct c4; [done|]. simpl. rewrite !length_app. simpl. rewrite !length_app. simpl. lia.
Qed.

Lemma search_from_needs r (s : list ascii) : forall pos gs,
  search_from r pos s = Some gs ->
  exists pos' c s' x, s = c ++ s' /\ Re.exec r pos' s' ∅ Re.accept = Some x /\ gs = x.2.
Proof.
  induction s as [|ch s IH]; intros pos gs H; simpl in H.
  - destruct (Re.exec r pos [] ∅ Re.accept) as [[e g]|] eqn:E; [|done].
    injection H as <-. by exists pos, [], [], (e, g).
  - destruct (Re.exec r pos (ch :: s) ∅ Re.accept) as [[e g]|] eqn:E.
    + injection H as <-. by exists pos, [], (ch :: s), (e, g).
    + apply IH in H as (pos' & c & s' & x & -> & Hx & ->).
      by exists pos', (ch :: c), s', x.
Qed.

Lemma string_length_list (s : string) : String.length s = length (list_ascii_of_string s).
Proof. induction s as [|c s IH]; simpl; [done|]. by rewrite IH. Qed.

Lemma search_pattern_can_assign text res :
  search pattern text = Some res -> can_assign text = true.
Proof.
  unfold search. intros H.
  apply search_from_needs in H as (pos' & c & s' & x & Heq & Hx & _).
  apply pattern_exec_needs in Hx as [Hin Hlen]. unfold can_assign.
  apply andb_true_intro. split.
  - unfold contains. rewrite Heq. apply existsb_exists. exists "="%char. split; [|done].
    apply list_elem_of_In, elem_of_app. by right.
  - apply Nat.leb_le. rewrite string_length_list, Heq, length_app. lia.
Qed.

Lemma scan_texts_spec texts : forall st,
  found_ok st ->
  let st' := foldl scan_text st texts in
  found_ok st' /\
  forall pair, pair ∈ r_groups st' <->
    pair ∈ r_groups st \/
    exists text res, text ∈ texts /\ search pattern text = Some res /\
                     pair = (group "name" res, group "group" res).
Proof.
  induction texts as [|text texts IH]; intros st Hok; cbv zeta; cbn [foldl].
  - split; [done|]. intros pair. split; [by left|].
    intros [?|(t & r & Hin & _)]; [done|]. by apply elem_of_nil in Hin.
  - assert (Hstep : found_ok (scan_text st text) /\
              forall pair, pair ∈ r_groups (scan_text st text) <->
                pair ∈ r_groups st \/
                exists res, search pattern text = Some res /\
                            pair = (group "name" res, group "group" res)).
    { unfold scan_text. destruct (search pattern text) as [res|] eqn:Hs.
      - destruct Hok as [Hnd Hseen]. case_decide as Hin.
        + split; [done|]. intros pair. split; [by left|].
          intros [?|(r & [= <-] & ->)]; [done|]. by apply Hseen.
        + split.
          * split; simpl.
            -- apply NoDup_app. split; [done|]. split; [|apply NoDup_singleton].
               intros p Hp Hp'. apply list_elem_of_singleton in Hp' as ->.
               by apply Hin, Hseen.
            -- intros pair. rewrite elem_of_union, elem_of_singleton, elem_of_app,
                 list_elem_of_singleton, Hseen. tauto.
          * intros pair. simpl. rewrite elem_of_app, list_elem_of_singleton. split.
            -- intros [?| ->]; [by left|]. right. by exists res.
            -- intros [?|(r & [= <-] & ->)]; [by left|by right].
      - split; [done|]. intros pair. split; [by left|].
        by intros [?|(r & ? & _)]. }
    destruct Hstep as [Hok1 Hone].
    pose proof (IH _ Hok1) as IH'. cbv zeta in IH'. destruct IH' as [Hok' Hall].
    split; [done|]. intros pair. rewrite Hall, Hone. split.
    + intros [[?|(r & Hr & ->)]|(t & r & Hin & Hr & ->)].
      * by left.
      * right. exists text, r. split; [by left|done].
      * right. exists t, r. split; [by right|done].
    + intros [?|(t & r & Hin & Hr & ->)]; [by left; left|].
      apply elem_of_cons in Hin as [->|Hin].
      * left. right. by exists r.
      * right. by exists t, r.
Qed.

Lemma scan_boxes_spec boxes : forall st st',
  found_ok st -> for_ boxes st scan_bbox = Ok st' ->
  found_ok st' /\
  forall pair, pair ∈ r_groups st' <-> pair ∈ r_groups st \/ named_in boxes pair.
Proof.
  induction boxes as [|bb boxes IH]; intros st st' Hok H; simpl in H.
  - injection H as <-. split; [done|]. intros pair. split; [by left|].
    intros [?|(b & t & x & r & Hin & _)]; [done|]. by apply elem_of_nil in Hin.
  - ok_bind H as st1 H1. unfold scan_bbox in H1. ok_bind H1 as cat Hcat.
    destruct (category bb) as [cat'|] eqn:Hc; [|done]. injection Hcat as ->.
    case_decide as Hidt.
    + ok_bind H1 as t Ht. destruct (text bb) as [t'|] eqn:Htext; [|done].
      injection Ht as ->. injection H1 as <-.
      pose proof (scan_texts_spec (iterate t) st Hok) as Hs. cbv zeta in Hs.
      destruct Hs as [Hok1 Hone].
      destruct (IH _ _ Hok1 H) as [Hok' Hall]. split; [done|].
      intros pair. rewrite Hall, Hone. split.
      * intros [[?|(x & r & Hin & Hr & ->)]|(b & t0 & x & r & Hin & ?)].
        -- by left.
        -- right. exists bb, t, x, r. subst cat. split; [by left|done].
        -- right. exists b, t0, x, r. split; [by right|done].
      * intros [?|(b & t0 & x & r & Hin & Hb & Ht0 & Hx & Hr & ->)]; [by left; left|].
        apply elem_of_cons in Hin as [->|Hin].
        -- left. right. rewrite Htext in Ht0. injection Ht0 as <-. by exists x, r.
        -- right. by exists b, t0, x, r.
    + injection H1 as <-. destruct (IH _ _ Hok H) as [Hok' Hall]. split; [done|].
      intros pair. rewrite Hall. split.
      * intros [?|(b & t0 & x & r & Hin & ?)]; [by left|].
        right. exists b, t0, x, r. split; [by right|done].
      * intros [?|(b & t0 & x & r & Hin & Hb & ?)]; [by left|].
        apply elem_of_cons in Hin as [->|Hin]; [congruence|].
        right. by exists b, t0, x, r.
Qed.

Lemma add_instances_spec orig_reaction (graphs : list (graph_ref Image)) relevant_locs
    r_groups : forall st out,
  for_ r_groups st
    (add_instance convert_graph_to_output orig_reaction graphs relevant_locs) = Ok out ->
  exists new, out.1 = st.1 ++ new /\
              Forall2 (fun _ to_add => instance_of orig_reaction to_add) r_groups new.
Proof.
  induction r_groups as [|r_group r_groups IH]; intros st out H; simpl in H.
  - injection H as <-. exists []. by rewrite app_nil_r.
  - ok_bind H as st1 H1. apply IH in H as (new & -> & Hall).
    unfold add_instance in H1. ok_bind H1 as rs Hrs. ok_bind H1 as reactants Hr.
    ok_bind H1 as conditions Hc. ok_bind H1 as products Hp. injection H1 as <-. simpl.
    eexists (_ :: new). rewrite <- app_assoc. split; [done|]. constructor; [|done].
    exists reactants, conditions, products. split; [|done].
    by destruct (dict_get "conditions" orig_reaction) as [c|]; [injection Hc as ->|].
Qed.

(** What the pass over one figure does to a result. *)
Lemma replace_in_figure_spec figure result corefs result' :
  replace_in_figure' figure result corefs = Ok result' ->
  exists boxes found new,
    bboxes corefs = Some boxes /\
    NoDup found /\ (forall pair, pair ∈ found <-> named_in boxes pair) /\
    page result' = page result /\
    reactions result' = reactions result ++ new /\
    match reactions result with
    | [] => new = []
    | orig_reaction :: _ =>
        Forall2 (fun _ to_add => instance_of orig_reaction to_add) found new
    end.
Proof.
  intros H. unfold replace_in_figure in H. ok_bind H as boxes Hboxes.
  destruct (bboxes corefs) as [boxes'|] eqn:Hb; [|done]. injection Hboxes as ->.
  ok_bind H as st Hst.
  apply scan_boxes_spec in Hst as [[Hnd _] Hall].
  2:{ split; [constructor|]. intros pair. simpl. rewrite elem_of_empty. split; [done|].
      intros Hin. by apply elem_of_nil in Hin. }
  exists boxes, (r_groups st).
  assert (Hfound : forall pair, pair ∈ r_groups st <-> named_in boxes pair).
  { intros pair. rewrite Hall. simpl. split; [|by right].
    intros [Hin|?]; [|done]. by apply elem_of_nil in Hin. }
  destruct (r_groups st) as [|r_group rest] eqn:Hr.
  - injection H as <-. exists []. rewrite app_nil_r. repeat (split; [done|]).
    by destruct (reactions result).
  - destruct (reactions result) as [|orig_reaction others] eqn:Hreact.
    + injection H as <-. exists []. rewrite Hreact. done.
    + ok_bind H as graphs Hgraphs. destruct (alloc_graphs ∅ graphs) as [graph_refs σ].
      ok_bind H as out Hout. injection H as <-.
      apply add_instances_spec in Hout as (new & Hnew & Hinst). simpl in Hnew.
      exists new. rewrite Hnew. done.
Qed.

Lemma replace_rgroups_in_figure_lookup figures :
  forall results coref_results out i figure result corefs,
  replace_rgroups_in_figure' figures results coref_results = Ok out ->
  figures !! i = Some figure -> results !! i = Some result ->
  coref_results !! i = Some corefs ->
  exists r, out !! i = Some r /\ replace_in_figure' figure result corefs = Ok r.
Proof.
  induction figures as [|f figures IH];
    intros results coref_results out i figure result corefs H Hf Hr Hc; [done|].
  destruct results as [|r0 results]; [done|].
  destruct coref_results as [|c0 coref_results]; [done|]. simpl in H.
  ok_bind H as r1 H1. ok_bind H as rs Hrs. injection H as <-.
  destruct i as [|i]; simpl in *.
  - injection Hf as <-. injection Hr as <-. injection Hc as <-. by exists r1.
  - by eapply IH.
Qed.

Lemma replace_rgroups_in_figure_length figures : forall results coref_results out,
  replace_rgroups_in_figure' figures results coref_results = Ok out ->
  length out = length results.
Proof.
  induction figures as [|f figures IH]; intros results coref_results out H.
  - destruct results; by injection H as <-.
  - destruct results as [|r0 results]; [by injection H as <-|].
    destruct coref_results as [|c0 coref_results]; [by injection H as <-|]. simpl in H.
    ok_bind H as r1 H1. ok_bind H as rs Hrs. injection H as <-. simpl. f_equal.
    by eapply IH.
Qed.

(** The function returns as many results as it was given. For a result
    with a figure and coreference data it leaves the page and the instances
    in place and appends, when the result has an instance, one instance for
    each distinct pair of name and group that the pattern finds in the texts
    of the identifier boxes; each appended instance has the three keys
    reactants, conditions and products, with the conditions of the result's
    first instance. A result without instance is left as it is. *)
Theorem replace_rgroups_in_figure_appends figures results coref_results out :
  replace_rgroups_in_figure' figures results coref_results = Ok out ->
  length out = length results /\
  forall i figure result corefs,
    figures !! i = Some figure -> results !! i = Some result ->
    coref_results !! i = Some corefs ->
    exists result' boxes found new,
      out !! i = Some result' /\
      bboxes corefs = Some boxes /\
      NoDup found /\ (forall pair, pair ∈ found <-> named_in boxes pair) /\
      page result' = page result /\
      reactions result' = reactions result ++ new /\
      match reactions result with
      | [] => new = []
      | orig_reaction :: _ =>
          Forall2 (fun _ to_add => instance_of orig_reaction to_add) found new
      end.
Proof.
  intros H. split; [by eapply replace_rgroups_in_figure_length|].
  intros i figure result corefs Hf Hr Hc.
  destruct (replace_rgroups_in_figure_lookup _ _ _ _ _ _ _ _ H Hf Hr Hc) as (r & Hout & Hrun).
  apply replace_in_figure_spec in Hrun as (boxes & found & new & ?).
  by exists r, boxes, found, new.
Qed.

Lemma iterate_Str_silent bbox s : text bbox = Some (Str s) -> silent bbox.
Proof.
  intros Ht t. rewrite Ht. intros [= <-]. simpl. apply Forall_fmap, Forall_forall.
  intros c _. simpl. unfold can_assign. simpl. by rewrite andb_false_r.
Qed.

Lemma replace_in_figure_silent figure result corefs result' :
  (forall boxes, bboxes corefs = Some boxes -> Forall silent boxes) ->
  replace_in_figure' figure result corefs = Ok result' -> result' = result.
Proof.
  intros Hsilent H.
  apply replace_in_figure_spec in H as (boxes & found & new & Hb & _ & Hall & Hp & Hr & Hnew).
  assert (Hfound : found = []).
  { destruct found as [|pair found]; [done|]. exfalso.
    destruct (proj1 (Hall pair)) as (bb & t & x & r & Hin & _ & Ht & Hx & Hs & _); [by left|].
    pose proof (Hsilent _ Hb) as Hs'. rewrite Forall_forall in Hs'.
    pose proof (Hs' _ Hin _ Ht) as Hno. rewrite Forall_forall in Hno.
    apply search_pattern_can_assign in Hs. rewrite (Hno _ Hx) in Hs. done. }
  assert (new = []) as ->.
  { subst found. destruct (reactions result); [done|]. by apply Forall2_nil_inv_l in Hnew. }
  rewrite app_nil_r in Hr. destruct result, result'. simpl in *. by subst.
Qed.

(** A text gives an R-group assignment only if it has an equals sign and
    at least three characters. A box whose text is one string, which the
    function reads character by character, therefore gives none; and if no
    text of any box can give one, the function returns the results as they
    were. *)
Theorem replace_rgroups_in_figure_needs_assignment figures results coref_results out :
  (forall corefs boxes, corefs ∈ coref_results -> bboxes corefs = Some boxes ->
                        Forall silent boxes) ->
  replace_rgroups_in_figure' figures results coref_results = Ok out ->
  out = results /\
  (forall text res, search pattern text = Some res -> can_assign text = true) /\
  (forall bbox s, text bbox = Some (Str s) -> silent bbox).
Proof.
  intros Hsilent H. split; [|split; [apply search_pattern_can_assign|apply iterate_Str_silent]].
  revert results coref_results out Hsilent H.
  induction figures as [|f figures IH]; intros results coref_results out Hsilent H.
  - destruct results; by injection H as <-.
  - destruct results as [|r0 results]; [by injection H as <-|].
    destruct coref_results as [|c0 coref_results]; [by injection H as <-|]. simpl in H.
    ok_bind H as r1 H1. ok_bind H as rs Hrs. injection H as <-.
    apply replace_in_figure_silent in H1 as ->.
    + f_equal. eapply IH; [|done]. intros c boxes Hc. apply Hsilent. by right.
    + intros boxes. apply Hsilent. by left.
Qed.

End FigureRGroupsFacts.

(** ** The further properties on examples *)

(** A cell that is one word. *)
Lemma r_group_pattern_word_witness :
  Re.re_match Re.r_group_pattern "Me" = Some {["group" := "Me"]}.
Proof.
  apply (r_group_pattern_word "Me"); [discriminate|repeat constructor].
Defined.


(** Two identifier texts without a blank. *)
Lemma parse_assignments_needs_blank_witness :
  parse_assignments ["1a"; "R=Me"] = [].
Proof.
  apply (parse_assignments_needs_blank ["1a"; "R=Me"]). repeat constructor.
Defined.

(** The graphs of a reaction with two molecules and a text condition. *)
Lemma get_atoms_and_bonds_one_graph_per_molecule_witness :
  exists graphs,
    get_atoms_and_bonds stub_crop stub_predict_images [] (rxn_of "A" "heat" "C*")
      = Ok graphs /\
    g_key <$> graphs = [("reactants", 0); ("products", 0)] /\
    g_key <$> graphs = mol_positions (rxn_of "A" "heat" "C*").
Proof.
  eexists. split; [vm_compute; reflexivity|]. split; [reflexivity|].
  apply (get_atoms_and_bonds_one_graph_per_molecule stub_crop stub_predict_images []
           (rxn_of "A" "heat" "C*")).
  vm_compute. reflexivity.
Defined.

(** The entries of the graphs of the same reaction. *)
Lemma get_atoms_and_bonds_entries_witness :
  exists graphs,
    get_atoms_and_bonds stub_crop stub_predict_images [] (rxn_of "A" "heat" "C*")
      = Ok graphs /\
    forall g, g ∈ graphs ->
      length (g_coords g) = length (g_symbols g) /\
      forall i j v, entry (g_edges g) i j = Some v -> (0 <= v <= 6)%Z.
Proof.
  eexists. split; [vm_compute; reflexivity|].
  apply (get_atoms_and_bonds_entries stub_crop stub_predict_images []
           (rxn_of "A" "heat" "C*")).
  vm_compute. reflexivity.
Defined.

(** The located atom 1 of the first of two graphs, mapped to a methyl
    group. *)
Lemma replaced_graphs_relabels_witness :
  let refs := alloc_graphs ∅ [graph_of ("reactants", 0); graph_of ("products", 0)] in
  let graphs := refs.1 in
  let σ := refs.2 in
  let relevant_locs : located := [(0, [("R", 1)]); (1, [("R", 1)])] in
  let mappings : gmap string string := {["R" := "Me"]} in
  exists graph_copy σ',
    replaced_graphs graphs relevant_locs mappings σ = Ok (graph_copy, σ') /\
    exists gc syms',
      graph_copy !! 0 = Some gc /\
      σ' !! r_symbols gc = Some (OSymbols syms') /\
      syms' !! 1 = Some "Me".
Proof.
  intros refs graphs σ relevant_locs mappings.
  eexists _, _. split; [vm_compute; reflexivity|].
  eapply (replaced_graphs_relabels graphs relevant_locs mappings σ _ _ 0 _
            [("R", 1)] "R" 1 "Me").
  - vm_compute. reflexivity.
  - vm_compute. reflexivity.
  - by left.
  - by left.
  - vm_compute. reflexivity.
  - intros atoms' sym' v _ _ Hv. unfold mappings in Hv.
    apply lookup_singleton_Some in Hv as [_ <-]. reflexivity.
Defined.

(** One run of the expander over a figure whose table has one row that
    yields a substitution. *)
Lemma process_tables_keeps_instances_witness :
  let figures := [figure_of [[Cell "Me"; Cell "85%"]]] in
  let results := [Result [rxn_of "A" "heat" "C*"; rxn_of "B" "cold" "CC"] None] in
  exists out,
    stub_process_tables figures results = Ok out /\
    length out = length results /\
    (forall i, figures !! i = None -> out !! i = results !! i) /\
    forall i figure result,
      figures !! i = Some figure -> results !! i = Some result ->
      exists result',
        out !! i = Some result' /\
        page result' = Some (fig_page figure) /\
        (fig_table_content figure = None -> reactions result' = reactions result) /\
        (reactions result = [] -> reactions result' = []) /\
        forall orig_reaction others, reactions result = orig_reaction :: others ->
          exists orig_reaction' new,
            reactions result' = orig_reaction' :: others ++ new /\
            dict_get "reactants" orig_reaction' = dict_get "reactants" orig_reaction /\
            dict_get "products" orig_reaction' = dict_get "products" orig_reaction.
Proof.
  intros figures results.
  eexists. split; [vm_compute; reflexivity|].
  apply (process_tables_keeps_instances stub_crop stub_predict_images stub_convert
           figures results).
  vm_compute. reflexivity.
Defined.

(** Three runs of the expander over a figure whose table has one row. *)
Lemma process_tables_third_run_raises_witness :
  let table_rows := [[Cell "Me"; Cell "85%"]] in
  let figures := [figure_of table_rows] in
  let result := Result [rxn_of "A" "heat" "C*"] None in
  exists out1 out2,
    stub_process_tables figures [result] = Ok out1 /\
    stub_process_tables figures out1 = Ok out2 /\
    exists e, stub_process_tables figures out2 = Raise e.
Proof.
  intros table_rows figures result.
  eexists _, _. split; [vm_compute; reflexivity|].
  split; [vm_compute; reflexivity|].
  eapply (process_tables_third_run_raises stub_crop stub_predict_images stub_convert
            figures [result] _ _ 0 (figure_of table_rows) (table_of table_rows) result).
  - vm_compute. reflexivity.
  - vm_compute. reflexivity.
  - reflexivity.
  - reflexivity.
  - discriminate.
  - reflexivity.
  - discriminate.
Defined.

(** The reaction returned for two graphs whose atom 1 is located and
    mapped. *)
Lemma get_replaced_reaction_changes_only_smiles_witness :
  let refs := alloc_graphs ∅ [graph_of ("reactants", 0); graph_of ("products", 0)] in
  let graphs := refs.1 in
  let σ := refs.2 in
  let relevant_locs : located := [(0, [("R", 1)]); (1, [("R", 1)])] in
  let mappings : gmap string string := {["R" := "Me"]} in
  let orig_reaction := rxn_of "A" "heat" "C*" in
  exists reaction_copy σ',
    get_replaced_reaction stub_convert orig_reaction graphs relevant_locs mappings σ
      = Ok (reaction_copy, σ') /\
    reaction_copy.*1 = orig_reaction.*1 /\
    forall k items, dict_get k orig_reaction = Some items ->
      exists items',
        dict_get k reaction_copy = Some items' /\ length items' = length items /\
        forall j, smiles_written (r_key <$> graphs) k j (items !! j) (items' !! j).
Proof.
  intros refs graphs σ relevant_locs mappings orig_reaction.
  eexists _, _. split; [vm_compute; reflexivity|].
  eapply (get_replaced_reaction_changes_only_smiles stub_convert orig_reaction graphs
            relevant_locs mappings σ).
  - apply (bool_decide_unpack _). vm_compute. reflexivity.
  - vm_compute. reflexivity.
Defined.

(** The reconciler on two results, the first with an ambiguous reaction
    and usable coreference data, the second with a concrete reaction. *)
Lemma backout_output_witness :
  let results := [Result [rxn_of "A" "heat" "C*"] (Some 1);
                  Result [rxn_of "B" "cold" "CC"] (Some 2)] in
  let corefs := [coref_of "A" "3a, R = Cl"] in
  exists final,
    stub_backout results corefs = Ok final /\
    final = [Result [] None;
             Result [rxn_of "B" "cold" "CC";
                     [("reactants", [mol "A"]); ("products", [mol "C*"])]] None] /\
    exists emitted,
      final = extend_last emitted (kept <$> results) /\
      Forall (emitted_from stub_MolFromSmiles stub_HasSubstructMatch results corefs) emitted.
Proof.
  intros results corefs.
  eexists. split; [vm_compute; reflexivity|]. split; [reflexivity|].
  apply (backout_output stub_MolFromSmiles stub_HasSubstructMatch results corefs).
  vm_compute. reflexivity.
Defined.

(** A figure whose identifier box names two assignments, one of them
    twice. *)
Lemma replace_rgroups_in_figure_appends_witness :
  let figures := [figure_of []] in
  let results := [Result [rxn_of "A" "heat" "C*"] (Some 3)] in
  let coref_results :=
    [FigureRGroups.Corefs
       (Some [FigureRGroups.CorefBBox (Some "[Idt]")
                (Some (FigureRGroups.Lines ["R = Me"; "R = Et"; "R = Me"]))])] in
  exists out,
    FigureRGroups.replace_rgroups_in_figure stub_crop stub_predict_images stub_convert
      figures results coref_results = Ok out /\
    length ∘ reactions <$> out = [3] /\
    length out = length results /\
    forall i figure result corefs,
      figures !! i = Some figure -> results !! i = Some result ->
      coref_results !! i = Some corefs ->
      exists result' boxes found new,
        out !! i = Some result' /\
        FigureRGroups.bboxes corefs = Some boxes /\
        NoDup found /\ (forall pair, pair ∈ found <-> FigureRGroups.named_in boxes pair) /\
        page result' = page result /\
        reactions result' = reactions result ++ new /\
        match reactions result with
        | [] => new = []
        | orig_reaction :: _ =>
            Forall2 (fun _ to_add => FigureRGroups.instance_of orig_reaction to_add) found new
        end.
Proof.
  intros figures results coref_results.
  eexists. split; [vm_compute; reflexivity|]. split; [reflexivity|].
  apply (replace_rgroups_in_figure_appends stub_crop stub_predict_images stub_convert
           figures results coref_results).
  vm_compute. reflexivity.
Defined.

(** A figure whose identifier box gives its text as one string. *)
Lemma replace_rgroups_in_figure_needs_assignment_witness :
  let figures := [figure_of []] in
  let results := [Result [rxn_of "A" "heat" "C*"] (Some 3)] in
  let coref_results :=
    [FigureRGroups.Corefs
       (Some [FigureRGroups.CorefBBox (Some "[Idt]") (Some (FigureRGroups.Str "R = Me"))])] in
  exists out,
    FigureRGroups.replace_rgroups_in_figure stub_crop stub_predict_images stub_convert
      figures results coref_results = Ok out /\
    out = results /\
    (forall text res,
       FigureRGroups.search FigureRGroups.pattern text = Some res ->
       FigureRGroups.can_assign text = true) /\
    (forall bbox s,
       FigureRGroups.text bbox = Some (FigureRGroups.Str s) -> FigureRGroups.silent bbox).
Proof.
  intros figures results coref_results.
  eexists. split; [vm_compute; reflexivity|].
  apply (replace_rgroups_in_figure_needs_assignment stub_crop stub_predict_images
           stub_convert figures results coref_results).
  - intros corefs boxes Hin Hboxes. apply list_elem_of_singleton in Hin as ->.
    injection Hboxes as <-. apply Forall_singleton. intros t Ht. injection Ht as <-.
    vm_compute. repeat constructor.
  - vm_compute. reflexivity.
Defined.

(** ** Query enumeration *)

Section EnumerationFacts.
Import Enumeration.
Context {Mol : Type}.
Variable RWMol : Mol -> Mol.
Variable set_carbon : Mol -> nat -> outcome Mol.
Variable MolToSmiles : Mol -> string.
Variable r_sites_reversed_new : nat -> outcome nat.

Lemma r_group_indices_all num_r_groups :
  (forall i, i < num_r_groups -> exists idx, r_sites_reversed_new i = Ok idx) ->
  exists indices, r_group_indices r_sites_reversed_new num_r_groups [] = Ok indices.
Proof.
  intros Hall. unfold r_group_indices.
  assert (Hrange : forall i, i ∈ seq 0 num_r_groups -> i < num_r_groups).
  { intros i Hi. apply elem_of_seq in Hi. lia. }
  revert Hrange. generalize (seq 0 num_r_groups). intros l.
  enough (Hgen : forall acc : list nat,
            (forall i, i ∈ l -> i < num_r_groups) ->
            exists indices,
              for_ l acc
                (fun r_group_indices i =>
                   if decide (i ∈ ([] : list nat)) then Ok r_group_indices
                   else idx ← r_sites_reversed_new i; Ok (r_group_indices ++ [idx]))
              = Ok indices) by apply Hgen.
  induction l as [|i l IH]; intros acc Hrange; cbn [for_].
  - by exists acc.
  - rewrite decide_False by apply not_elem_of_nil.
    destruct (Hall i) as [idx ->]; [apply Hrange; by left|]. cbn [mbind outcome_bind].
    apply IH. intros j Hj. apply Hrange. by right.
Qed.

(** [query_enumeration] returns normally for no input: the enumeration
    starts with the empty subset, and the first pass through the loop ends, if
    nothing raises before, in the assignment of a dictionary entry under a
    list, which raises [TypeError]. With every site index present and no
    failure of the toolkit, that is the exception raised. *)
Theorem query_enumeration_raises (prod_template_mol_query : Mol) (num_r_groups : nat) :
  (exists e, query_enumeration RWMol set_carbon MolToSmiles r_sites_reversed_new
               prod_template_mol_query num_r_groups = Some (Raise e)) /\
  ((forall i, i < num_r_groups -> exists idx, r_sites_reversed_new i = Ok idx) ->
   (forall query idx, exists query', set_carbon query idx = Ok query') ->
   query_enumeration RWMol set_carbon MolToSmiles r_sites_reversed_new
     prod_template_mol_query num_r_groups = Some (Raise TypeError)).
Proof.
  unfold query_enumeration. rewrite generate_subsets_enum. simpl.
  destruct (enum_head num_r_groups 0) as [t ->]. simpl. unfold enumerate_subset.
  split.
  - destruct (r_group_indices _ _ _) as [indices|e]; simpl; [|by eauto].
    destruct (for_ indices _ set_carbon) as [query|e]; simpl; by eauto.
  - intros Hsites Htoolkit.
    destruct (r_group_indices_all _ Hsites) as [indices ->]. simpl.
    assert (Hloop : forall l query, exists query', for_ l query set_carbon = Ok query').
    { induction l as [|idx l IH]; intros query; simpl; [by eauto|].
      destruct (Htoolkit query idx) as [query' ->]. simpl. apply IH. }
    destruct (Hloop indices (RWMol prod_template_mol_query)) as [query' ->]. done.
Qed.

End EnumerationFacts.

(** ** Detected molecule boxes *)

Section BBoxOutputFacts.
Import BBoxOutput.
Context {Image : Type}.
Variable crop : Image -> bbox -> Image.

Lemma mol_values_spec {A} (field : detection -> option A) output : forall acc values,
  for_ output acc
    (fun values elt =>
       category ← getitem (d_category elt);
       if decide (category = "[Mol]") then
         value ← getitem (field elt); Ok (values ++ [value])
       else Ok values) = Ok values ->
  exists new, values = acc ++ new /\
    Forall2 (fun elt value => field elt = Some value)
      (filter (fun elt => d_category elt = Some "[Mol]") output) new.
Proof.
  induction output as [|elt output IH]; intros acc values H; simpl in H.
  - injection H as <-. exists []. by rewrite app_nil_r.
  - ok_bind H as acc1 H1. apply IH in H as (new & -> & Hall).
    ok_bind H1 as category Hc. rewrite filter_cons.
    destruct (d_category elt) as [c|] eqn:Hcat; [|done]. injection Hc as ->.
    case_decide as Hmol.
    + ok_bind H1 as value Hv. injection H1 as <-. subst category.
      rewrite decide_True by done. exists (value :: new). rewrite <- app_assoc.
      split; [done|]. constructor; [|done]. by destruct (field elt); [injection Hv as ->|].
    + injection H1 as <-. rewrite decide_False by congruence. by exists new.
Qed.

Lemma Forall2_zip {A B C} (P : A -> B -> Prop) (Q : A -> C -> Prop) l bs cs :
  Forall2 P l bs -> Forall2 Q l cs ->
  Forall2 (fun a bc => P a bc.1 /\ Q a bc.2) l (zip bs cs).
Proof.
  intros HP. revert cs. induction HP as [|a b l bs Hab _ IH]; intros cs HQ.
  - inversion HQ. constructor.
  - inversion HQ as [|? c ? cs' Hac HQ']; subst. simpl. constructor; [done|by apply IH].
Qed.

Lemma clean_outputs_spec figures (l : list (nat * list detection)) : forall st st',
  for_ l st (clean_output crop figures) = Ok st' ->
  exists new,
    results st' = results st ++ new /\
    references st' = references st ++ concat (molecules <$> new) /\
    cropped st' = cropped st ++ (m_image <$> concat (molecules <$> new)) /\
    Forall2
      (fun ioutput data =>
         figures !! ioutput.1 = Some (image data) /\
         Forall2 (molecule_of crop (image data))
           (filter (fun elt => d_category elt = Some "[Mol]") ioutput.2) (molecules data))
      l new.
Proof.
  induction l as [|[i output] l IH]; intros st st' H; simpl in H.
  - injection H as <-. exists []. simpl. by rewrite !app_nil_r.
  - ok_bind H as st1 H1. apply IH in H as (new & Hres & Href & Hcrop & Hall).
    unfold clean_output in H1. simpl in H1.
    ok_bind H1 as mol_bboxes Hb. ok_bind H1 as mol_scores Hs. ok_bind H1 as figure Hf.
    injection H1 as <-. simpl in *.
    apply mol_values_spec in Hb as (bs & -> & Hbs).
    apply mol_values_spec in Hs as (ss & -> & Hss). simpl in *.
    unfold index in Hf. destruct (figures !! i) as [fig|] eqn:Hfig; [|done].
    injection Hf as ->.
    eexists (_ :: new). rewrite Hres, Href, Hcrop, <- !app_assoc. simpl.
    rewrite fmap_app.
    split; [done|]. split; [done|]. split; [done|].
    constructor; [|done]. simpl. split; [done|].
    apply Forall2_fmap_r. eapply Forall2_impl; [by apply Forall2_zip|].
    intros elt [b s] [Hb Hs]. by repeat split.
Qed.

Lemma Forall2_enumerate {A B} (P : nat * A -> B -> Prop) (l : list A) r i a :
  Forall2 P (enumerate l) r -> l !! i = Some a -> exists b, r !! i = Some b /\ P (i, a) b.
Proof.
  intros Hall Hi.
  assert (Hlook : enumerate l !! i = Some (i, a)).
  { unfold enumerate. by rewrite list_lookup_imap, Hi. }
  destruct (Forall2_lookup_l _ _ _ _ _ Hall Hlook) as (b & Hb & HP). by exists b.
Qed.

(** [clean_bbox_output] returns one entry per figure output, holding the
    figure and, in the order of the output, one molecule for each element of
    category ['[Mol]'], with that element's box and score and with the figure
    cropped by the box. The list of references is the molecules of all
    entries one after the other, and the list of cropped images holds their
    images in the same order. *)
Theorem clean_bbox_output_spec figures bboxes out :
  clean_bbox_output crop figures bboxes = Ok out ->
  length (results out) = length bboxes /\
  references out = concat (molecules <$> results out) /\
  cropped out = m_image <$> references out /\
  forall i output, bboxes !! i = Some output ->
    exists data,
      results out !! i = Some data /\
      figures !! i = Some (image data) /\
      Forall2 (molecule_of crop (image data))
        (filter (fun elt => d_category elt = Some "[Mol]") output) (molecules data).
Proof.
  intros H. unfold clean_bbox_output in H.
  apply clean_outputs_spec in H as (new & Hres & Href & Hcrop & Hall). simpl in *.
  rewrite Hres, Href, Hcrop. split.
  { rewrite <- (Forall2_length _ _ _ Hall). unfold enumerate. by rewrite length_imap. }
  split; [done|]. split; [done|]. intros i output Hi.
  destruct (Forall2_enumerate _ _ _ _ _ Hall Hi) as (data & Hdata & Hfig & Hmols).
  by exists data.
Qed.

(** With more figure outputs than figures the function does not return
    normally. *)
Theorem clean_bbox_output_needs_figures figures bboxes :
  length figures < length bboxes ->
  exists e, clean_bbox_output crop figures bboxes = Raise e.
Proof.
  intros Hlen. destruct (clean_bbox_output crop figures bboxes) as [out|e] eqn:H; [|by eauto].
  exfalso. unfold clean_bbox_output in H.
  apply clean_outputs_spec in H as (new & _ & _ & _ & Hall).
  destruct (lookup_lt_is_Some_2 bboxes (length figures) Hlen) as [output Hi].
  destruct (Forall2_enumerate _ _ _ _ _ Hall Hi) as (data & _ & Hfig & _). simpl in Hfig.
  apply lookup_lt_Some in Hfig. lia.
Qed.

End BBoxOutputFacts.

(** ** Expansion within a figure *)

Section ExpandWithBackoutFacts.
Context {Mol : Type}.
Variable MolFromSmiles : string -> option Mol.
Variable HasSubstructMatch : Mol -> Mol -> bool.
Variable expand_r_group_label_helper :
  reaction -> pydict string -> string -> outcome (option reaction).

Abbreviation expanded_from' := (expanded_from expand_r_group_label_helper).
Abbreviation reactions_to_add' :=
  (reactions_to_add MolFromSmiles HasSubstructMatch expand_r_group_label_helper).

Lemma reactions_to_add_spec results_coref i res to_add :
  reactions_to_add' results_coref (i, res) = Ok to_add ->
  (clean_corefs results_coref i = Ok None -> to_add = []) /\
  Forall (expanded_from' results_coref i res) to_add.
Proof.
  intros H. unfold reactions_to_add in H. simpl in H. ok_bind H as coref_res Hcoref.
  destruct coref_res as [[[mol_bboxes_text coref_smiles] bboxes]|].
  2:{ injection H as <-. by split. }
  split; [by rewrite Hcoref|].
  revert H. apply (for_inv (Forall (expanded_from' results_coref i res))); [|constructor].
  intros acc rxn acc' Hrxn Hacc H. unfold expand_rxn in H. ok_bind H as s Hs.
  destruct s as [[prod_smiles_with_r|]|]; [|by injection H as <-..].
  destruct (contains "*" prod_smiles_with_r) eqn:Hstar; [|by injection H as <-].
  destruct (MolFromSmiles prod_smiles_with_r); [|by injection H as <-].
  revert H. apply (for_inv (Forall (expanded_from' results_coref i res))); [|done].
  clear acc Hacc acc'. intros acc other_rxn acc' Hother Hacc H.
  unfold expand_other in H. ok_bind H as s' Hs'.
  destruct s' as [[prod_smiles_no_r|]|]; [|by injection H as <-..].
  destruct (contains "*" prod_smiles_no_r) eqn:Hstar'; [by injection H as <-|].
  destruct (MolFromSmiles prod_smiles_no_r); [|by injection H as <-].
  destruct (MolFromSmiles (replace "*" "C" prod_smiles_with_r)); [|done].
  destruct (HasSubstructMatch _ _); [|by injection H as <-].
  ok_bind H as new_rxn Hnew. destruct new_rxn as [new_rxn|]; injection H as <-; [|done].
  apply Forall_app. split; [done|]. apply Forall_singleton.
  by exists mol_bboxes_text, coref_smiles, bboxes, rxn, prod_smiles_with_r, other_rxn,
    prod_smiles_no_r.
Qed.

(** [expand_reactions_with_backout] returns one result per input result,
    with the input's page and instances in place and the added instances
    after them. Every added instance is what the helper made of a reaction of
    the same result with a product free of ["*"], for a reaction of the same
    result with a ["*"] in its product; a result without usable coreference
    data gets none. *)
Theorem expand_reactions_with_backout_spec initial_results results_coref out :
  expand_reactions_with_backout MolFromSmiles HasSubstructMatch
    expand_r_group_label_helper initial_results results_coref = Ok out ->
  length out = length initial_results /\
  forall i res, initial_results !! i = Some res ->
    exists added,
      out !! i = Some (Result (reactions res ++ added) (page res)) /\
      (clean_corefs results_coref i = Ok None -> added = []) /\
      Forall (expanded_from' results_coref i res) added.
Proof.
  intros H. unfold expand_reactions_with_backout in H. ok_bind H as to_add Hto.
  injection H as <-. apply comprehension_Forall2 in Hto.
  assert (Hlen : length to_add = length initial_results).
  { rewrite <- (Forall2_length _ _ _ Hto). unfold enumerate. by rewrite length_imap. }
  split; [rewrite length_zip_with; lia|].
  intros i res Hi.
  assert (Hlook : enumerate initial_results !! i = Some (i, res)).
  { unfold enumerate. by rewrite list_lookup_imap, Hi. }
  destruct (Forall2_lookup_l _ _ _ _ _ Hto Hlook) as (added & Hadded & Hrun).
  apply reactions_to_add_spec in Hrun as [Hnone Hall].
  exists added. split; [|done].
  rewrite lookup_zip_with, Hi. simpl. by rewrite Hadded.
Qed.

End ExpandWithBackoutFacts.

(** ** What the patterns capture *)

Section Captures.
Import Re.

(** An expression without groups hands the groups on as they are. *)
Lemma exec_group_free {R} r : forall pos s gs (k : nat -> list ascii -> groups -> option R) x,
  group_free r = true ->
  exec r pos s gs k = Some x ->
  exists c s', s = c ++ s' /\ Forall (fun ch => accepts r ch = true) c /\
               k (pos + length c) s' gs = Some x.
Proof.
  induction r as [c0|p|p|r IH|r1 IH1 r2 IH2|name r IH| |];
    intros pos s gs k x Hfree H; simpl in H, Hfree.
  - destruct s as [|ch s]; [done|]. destruct (Ascii.eqb ch c0) eqn:E; [|done].
    exists [ch], s. split; [done|]. split; [by repeat constructor|].
    simpl. by replace (pos + 1) with (S pos) by lia.
  - destruct s as [|ch s]; [done|]. destruct (p ch) eqn:E; [|done].
    exists [ch], s. split; [done|]. split; [by repeat constructor|].
    simpl. by replace (pos + 1) with (S pos) by lia.
  - apply plus_consumes in H as (c & s' & -> & _ & Hall & Hk). by exists c, s'.
  - destruct (exec r pos s gs k) as [y|] eqn:E.
    + injection H as ->. by apply IH in E.
    + exists [], s. split; [done|]. split; [constructor|].
      simpl. by rewrite Nat.add_0_r.
  - apply andb_prop in Hfree as [Hf1 Hf2].
    apply IH1 in H as (c1 & s1 & -> & Hall1 & H); [|done].
    apply IH2 in H as (c2 & s2 & -> & Hall2 & H); [|done].
    exists (c1 ++ c2), s2. split; [by rewrite app_assoc|]. split.
    + apply Forall_app. split; (eapply Forall_impl; [eassumption|]); simpl;
        intros ch ->; [done|by rewrite orb_true_r].
    + rewrite length_app. by rewrite Nat.add_assoc.
  - done.
  - case_decide; [|done]. exists [], s. split; [done|]. split; [constructor|].
    simpl. by rewrite Nat.add_0_r.
  - exists [], s. split; [done|]. split; [constructor|].
    simpl. rewrite Nat.add_0_r. destruct s as [|ch [|]]; try done.
    by destruct (Ascii.eqb ch "010").
Qed.

(** A group over an expression without groups records the text the
    expression consumed. *)
Lemma exec_Group {R} name r pos s gs (k : nat -> list ascii -> groups -> option R) x :
  group_free r = true ->
  exec (Group name r) pos s gs k = Some x ->
  exists c s', s = c ++ s' /\ Forall (fun ch => accepts r ch = true) c /\
               k (pos + length c) s' (<[name := string_of_list_ascii c]> gs) = Some x.
Proof.
  intros Hfree H. simpl in H.
  apply exec_group_free in H as (c & s' & -> & Hall & H); [|done].
  exists c, s'. split; [done|]. split; [done|].
  replace (pos + length c - pos) with (length c) in H by lia.
  by rewrite take_app_length in H.
Qed.

(** What a match of [coref_pattern] records: a label of label characters
    and a group of group characters, neither empty. *)
Lemma coref_pattern_captures pos (s : list ascii) e gs :
  exec coref_pattern pos s ∅ accept = Some (e, gs) ->
  exists label value,
    gs !! "label" = Some (string_of_list_ascii label) /\
    gs !! "group" = Some (string_of_list_ascii value) /\
    label <> [] /\ Forall (fun ch => label_char ch = true) label /\
    value <> [] /\ Forall (fun ch => group_char ch = true) value.
Proof.
  intros E. unfold coref_pattern in E.
  set (A := Plus (fun c => word c || one_of ["."%char] c)) in *.
  set (B := Opt (Class (one_of ["a"; "b"; "c"]%char))) in *.
  set (S0 := Opt (Class (one_of [","; ":"]%char))) in *.
  set (P := Plus (one_of [" "%char])) in *.
  set (G := Plus (fun c => one_of ["["; "]"; "-"]%char c || word c)) in *.
  change (plus (fun c => word c || one_of ["."%char] c) pos s
            (fun p1 s1 =>
               exec B p1 s1 ∅
                 (fun p2 s2 g2 =>
                    exec (S0 ⋅ P)%re p2 s2
                      (<["label" := string_of_list_ascii (take (p2 - pos) s)]> g2)
                      (fun p3 s3 g3 =>
                         plus (fun c => one_of ["["; "]"; "-"]%char c || word c) p3 s3
                           (fun p4 s4 =>
                              accept p4 s4
                                (<["group" := string_of_list_ascii (take (p4 - p3) s3)]>
                                   g3)))))
          = Some (e, gs)) in E.
  apply plus_consumes in E as (c1 & s1 & -> & Hne1 & Hall1 & E).
  apply exec_group_free in E as (c2 & s2 & -> & Hall2 & E); [|done].
  apply exec_group_free in E as (c3 & s3 & -> & _ & E); [|done].
  apply plus_consumes in E as (c4 & s4 & -> & Hne4 & Hall4 & E).
  injection E as _ <-.
  replace (pos + length c1 + length c2 + length c3 + length c4
           - (pos + length c1 + length c2 + length c3)) with (length c4) by lia.
  replace (pos + length c1 + length c2 - pos) with (length (c1 ++ c2))
    by (rewrite length_app; lia).
  rewrite take_app_length, app_assoc, take_app_length.
  exists (c1 ++ c2), c4. split; [by rewrite lookup_insert_ne, lookup_insert_eq|].
  split; [by rewrite lookup_insert_eq|].
  split; [by destruct c1|]. split; [|done].
  apply Forall_app. split; [done|].
  eapply Forall_impl; [exact Hall2|]. intros ch. unfold B, label_char. simpl.
  rewrite !orb_false_r. unfold word, in_range.
  intros H. repeat (apply orb_prop in H as [H|H]); apply Ascii.eqb_eq in H as ->; done.
Qed.

Lemma scan_sound r (s : list ascii) : forall pos resume gs,
  gs ∈ scan r pos resume s ->
  exists pos' c s' e, s = c ++ s' /\ exec r pos' s' ∅ accept = Some (e, gs).
Proof.
  induction s as [|ch s IH]; intros pos resume gs Hin; simpl in Hin.
  - case_decide; [by apply elem_of_nil in Hin|].
    destruct (exec r pos [] ∅ accept) as [[e g]|] eqn:E; [|by apply elem_of_nil in Hin].
    apply list_elem_of_singleton in Hin as ->. by exists pos, [], [], e.
  - assert (Hrest : forall resume', gs ∈ scan r (S pos) resume' s ->
              exists pos' c s' e, ch :: s = c ++ s' /\ exec r pos' s' ∅ accept = Some (e, gs)).
    { intros resume' H. apply IH in H as (pos' & c & s' & e & -> & H).
      by exists pos', (ch :: c), s', e. }
    case_decide; [by eapply Hrest|].
    destruct (exec r pos (ch :: s) ∅ accept) as [[e g]|] eqn:E; [|by eapply Hrest].
    apply elem_of_cons in Hin as [->|Hin]; [|by eapply Hrest].
    by exists pos, [], (ch :: s), e.
Qed.

Lemma dict_set_elem_of {V} (k k' : string) (v v' : V) (d : pydict V) :
  (k', v') ∈ dict_set k v d -> (k', v') = (k, v) \/ (k', v') ∈ d.
Proof.
  induction d as [|[k0 v0] d IH]; simpl.
  - intros Hin. apply list_elem_of_singleton in Hin. by left.
  - case_decide.
    + intros Hin. apply elem_of_cons in Hin as [?|?]; [by left|]. right. by right.
    + intros Hin. apply elem_of_cons in Hin as [->|Hin]; [right; by left|].
      destruct (IH Hin) as [?|?]; [by left|]. right. by right.
Qed.

Lemma dict_set_NoDup {V} (k : string) (v : V) (d : pydict V) :
  NoDup d.*1 -> NoDup (dict_set k v d).*1.
Proof.
  destruct (dict_get k d) as [w|] eqn:Hget.
  - by rewrite (dict_set_keys _ _ _ _ Hget).
  - intros Hnd. rewrite dict_set_fresh.
    + rewrite fmap_app. apply NoDup_app. split; [done|]. split; [|apply NoDup_singleton].
      intros k' Hin Hk'. apply list_elem_of_singleton in Hk'. simpl in Hk'. subst k'.
      apply list_elem_of_fmap in Hin as ([k0 v0] & -> & Hin). simpl in Hget.
      by rewrite (dict_get_elem_of _ _ _ Hnd Hin) in Hget.
    + intros Hin. apply list_elem_of_fmap in Hin as ([k0 v0] & -> & Hin). simpl in Hget.
      by rewrite (dict_get_elem_of _ _ _ Hnd Hin) in Hget.
Qed.

Lemma string_of_list_ascii_nonempty (l : list ascii) : l <> [] -> string_of_list_ascii l <> "".
Proof. by destruct l. Qed.

(** What a parsed assignment looks like. *)
Lemma parsed_assignment text f :
  f ∈ finditer coref_pattern text ->
  group "label" f <> "" /\
  Forall (fun ch => label_char ch = true) (list_ascii_of_string (group "label" f)) /\
  group "group" f <> "" /\
  Forall (fun ch => group_char ch = true) (list_ascii_of_string (group "group" f)).
Proof.
  intros Hin. apply scan_sound in Hin as (pos' & c & s' & e & _ & E).
  apply coref_pattern_captures in E as (label & value & Hl & Hv & Hnl & Hal & Hnv & Hav).
  unfold group. rewrite Hl, Hv. simpl. rewrite !list_ascii_of_string_of_list_ascii.
  split; [by apply string_of_list_ascii_nonempty|]. split; [done|].
  split; [by apply string_of_list_ascii_nonempty|done].
Qed.


End Captures.

(** ** What the pattern of [replace_rgroups_in_figure] captures *)

Section FigureRGroupsCaptures.
Import FigureRGroups.

Lemma exec_Opt_Class {R} p pos (s : list ascii) gs
    (k : nat -> list ascii -> Re.groups -> option R) x :
  Re.exec (Re.Opt (Re.Class p)) pos s gs k = Some x ->
  (exists d s', s = d :: s' /\ p d = true /\ k (S pos) s' gs = Some x) \/
  k pos s gs = Some x.
Proof.
  simpl. destruct s as [|d s]; [by right|]. destruct (p d) eqn:Hp; [|by right].
  destruct (k (S pos) s gs) as [y|] eqn:Hk; [|by right].
  intros [= <-]. left. by exists d, s.
Qed.

Lemma pattern_captures pos (s : list ascii) e gs :
  Re.exec pattern pos s ∅ Re.accept = Some (e, gs) ->
  exists ch rest value,
    gs !! "name" = Some (string_of_list_ascii (ch :: rest)) /\
    gs !! "group" = Some (string_of_list_ascii value) /\
    Re.one_of ["R"; "X"; "Y"]%char ch = true /\
    (rest = [] \/ exists d, rest = [d] /\ digit d = true) /\
    value <> [] /\ Forall (fun c => Re.word c = true) value.
Proof.
  intros E. unfold pattern in E.
  set (A := Re.Class (Re.one_of ["R"; "X"; "Y"]%char)) in *.
  set (D := Re.Opt (Re.Class digit)) in *.
  set (B := Re.Opt (Re.Plus (Re.one_of [" "%char]))) in *.
  set (Q := Re.Lit "=") in *.
  change (Re.exec A pos s ∅
            (fun p1 s1 g1 => Re.exec D p1 s1 g1
               (fun p2 s2 g2 =>
                  Re.exec (Re.Seq B (Re.Seq Q B)) p2 s2
                    (<["name" := string_of_list_ascii (take (p2 - pos) s)]> g2)
                    (fun p5 s5 g5 => Re.plus Re.word p5 s5
                       (fun p6 s6 =>
                          Re.accept p6 s6
                            (<["group" := string_of_list_ascii (take (p6 - p5) s5)]>
                               g5))))) = Some (e, gs)) in E.
  apply exec_Class in E as (ch & s0 & -> & Hch & E).
  assert (Hrest : forall rest s1,
            s0 = rest ++ s1 ->
            Re.exec (Re.Seq B (Re.Seq Q B)) (S pos + length rest) s1
              (<["name" := string_of_list_ascii (ch :: rest)]> ∅)
              (fun p5 s5 g5 => Re.plus Re.word p5 s5
                 (fun p6 s6 =>
                    Re.accept p6 s6
                      (<["group" := string_of_list_ascii (take (p6 - p5) s5)]> g5)))
            = Some (e, gs) ->
            exists value,
              gs !! "name" = Some (string_of_list_ascii (ch :: rest)) /\
              gs !! "group" = Some (string_of_list_ascii value) /\
              value <> [] /\ Forall (fun c => Re.word c = true) value).
  { intros rest s1 -> E1.
    apply exec_group_free in E1 as (c2 & s2 & -> & _ & E1); [|done].
    apply plus_consumes in E1 as (c4 & s4 & -> & Hne4 & Hall4 & E1).
    injection E1 as _ <-.
    match goal with
    | |- context [take ?n (c4 ++ s4)] => replace n with (length c4) by lia
    end.
    rewrite take_app_length. exists c4.
    split; [by rewrite lookup_insert_ne, lookup_insert_eq|].
    split; [by rewrite lookup_insert_eq|done]. }
  apply exec_Opt_Class in E as [(d & s1 & -> & Hd & E)|E].
  - replace (S (S pos) - pos) with 2 in E by lia. cbn [take] in E.
    destruct (Hrest [d] s1) as (value & ? & ? & ? & ?); [done| |].
    { simpl. by replace (S (pos + 1)) with (S (S pos)) by lia. }
    exists ch, [d], value. repeat (split; [done|]). split; [|done]. right. by exists d.
  - replace (S pos - pos) with 1 in E by lia. cbn [take] in E.
    destruct (Hrest [] s0) as (value & ? & ? & ? & ?); [done| |].
    { simpl. by rewrite Nat.add_0_r. }
    exists ch, [], value. repeat (split; [done|]). split; [by left|done].
Qed.


End FigureRGroupsCaptures.

(** ** What [r_group_pattern] captures *)

Section TableCaptures.
Import Re.

(** A match leaves the groups it does not name as they were. *)
Lemma exec_keeps_groups {R} r : forall pos s gs (k : nat -> list ascii -> groups -> option R) x,
  exec r pos s gs k = Some x ->
  exists pos' s' gs',
    k pos' s' gs' = Some x /\
    forall name, name ∉ group_names r -> gs' !! name = gs !! name.
Proof.
  induction r as [c0|p|p|r IH|r1 IH1 r2 IH2|name r IH| |]; intros pos s gs k x H; simpl in H.
  - destruct s as [|ch s]; [done|]. destruct (Ascii.eqb ch c0); [|done].
    eexists _, _, _. split; [exact H|done].
  - destruct s as [|ch s]; [done|]. destruct (p ch); [|done].
    eexists _, _, _. split; [exact H|done].
  - apply plus_consumes in H as (c & s' & -> & _ & _ & Hk).
    eexists _, _, _. split; [exact Hk|done].
  - destruct (exec r pos s gs k) as [y|] eqn:E.
    + injection H as ->. by apply IH in E.
    + eexists _, _, _. split; [exact H|done].
  - apply IH1 in H as (p1 & s1 & gs1 & H & Hk1).
    apply IH2 in H as (p2 & s2 & gs2 & H & Hk2).
    exists p2, s2, gs2. split; [done|]. intros name Hname. simpl in Hname.
    apply not_elem_of_app in Hname as [Hn1 Hn2]. by rewrite Hk2, Hk1.
  - apply IH in H as (p1 & s1 & gs1 & H & Hk1).
    eexists _, _, _. split; [exact H|]. intros n Hn. simpl in Hn.
    apply not_elem_of_cons in Hn as [Hne Hn]. rewrite lookup_insert_ne by done. by apply Hk1.
  - case_decide; [|done]. eexists _, _, _. split; [exact H|done].
  - destruct s as [|ch [|]]; [|destruct (Ascii.eqb ch "010")|]; try done;
      (eexists _, _, _; split; [exact H|done]).
Qed.


End TableCaptures.

(** ** When the substitution engine and the expander return *)

Lemma same_shape_refl o : same_shape o o.
Proof. destruct o; simpl; eauto. Qed.

Lemma shape_le_frame (σ σ' : store) :
  (forall l o, σ !! l = Some o -> σ' !! l = Some o) -> shape_le σ σ'.
Proof. intros H l o Hl. exists o. split; [by apply H|apply same_shape_refl]. Qed.

Lemma shape_le_subseteq (σ σ' : store) : σ ⊆ σ' -> shape_le σ σ'.
Proof. intros H. apply shape_le_frame. intros l o Hl. by eapply lookup_weaken. Qed.

Lemma shape_le_symbols (σ σ' : store) l syms :
  shape_le σ σ' -> σ !! l = Some (OSymbols syms) ->
  exists syms', σ' !! l = Some (OSymbols syms') /\ length syms' = length syms.
Proof.
  intros H Hl. destruct (H _ _ Hl) as (o' & Ho' & syms' & -> & Hlen). by exists syms'.
Qed.

Lemma shape_le_other (σ σ' : store) l o :
  shape_le σ σ' -> σ !! l = Some o -> (forall syms, o <> OSymbols syms) ->
  σ' !! l = Some o.
Proof.
  intros H Hl Ho. destruct (H _ _ Hl) as (o' & Ho' & Hshape).
  destruct o; simpl in Hshape; try by subst. by destruct (Ho l0).
Qed.

Section Returns.
Context {Image : Type}.
Variable convert_graph_to_output : graph Image -> string.

Lemma graph_in_shape_le (σ σ' : store) (g : graph_ref Image) n :
  shape_le σ σ' -> graph_in σ g n -> graph_in σ' g n.
Proof.
  intros Hle ((coords & Hc) & (syms & Hs & Hlen) & rows & He & Hrows).
  split; [|split].
  - exists coords. by eapply shape_le_other.
  - destruct (shape_le_symbols _ _ _ _ Hle Hs) as (syms' & Hs' & Hlen').
    exists syms'. split; [done|]. by rewrite Hlen'.
  - exists rows. split; [by eapply shape_le_other|].
    eapply Forall_impl; [exact Hrows|]. intros l [row Hrow]. exists row.
    by eapply shape_le_other.
Qed.

Lemma graphs_in_shape_le (σ σ' : store) (graphs : list (graph_ref Image)) ns :
  shape_le σ σ' -> Forall2 (graph_in σ) graphs ns -> Forall2 (graph_in σ') graphs ns.
Proof.
  intros Hle Hall. eapply Forall2_impl; [exact Hall|].
  intros g n. by apply graph_in_shape_le.
Qed.

Lemma read_rows_returns (σ : store) rows :
  Forall (fun l => exists row, σ !! l = Some (ORow row)) rows ->
  exists edges, comprehension (read_row σ) rows = Ok edges.
Proof.
  intros Hrows. induction Hrows as [|l ls [row Hrow] _ [edges IH]];
    cbn [comprehension]; [by eauto|].
  unfold read_row in *. rewrite Hrow. cbn [mbind outcome_bind]. rewrite IH. by eauto.
Qed.

Lemma read_graph_returns (σ : store) (g : graph_ref Image) n :
  graph_in σ g n -> exists gv, read_graph σ g = Ok gv.
Proof.
  intros ((coords & Hc) & (syms & Hs & Hlen) & rows & He & Hrows).
  unfold read_graph, read_coords, read_symbols, read_edges. rewrite Hc, Hs, He. simpl.
  destruct (read_rows_returns _ _ Hrows) as [edges ->]. simpl. by eauto.
Qed.

Lemma alloc_lookup o (σ : store) l σ' :
  alloc o σ = (l, σ') -> σ ⊆ σ' /\ σ' !! l = Some o.
Proof.
  intros Ha. pose proof (alloc_subseteq o σ) as Hsub.
  destruct (alloc_spec o σ) as [_ Heq]. rewrite Ha in Hsub, Heq. simpl in *.
  split; [done|]. by rewrite Heq, lookup_insert_eq.
Qed.

Lemma copy_graph_returns (acc : list (graph_ref Image) * store) g n :
  graph_in acc.2 g n ->
  exists gc σ',
    copy_graph acc g = Ok (acc.1 ++ [gc], σ') /\ acc.2 ⊆ σ' /\
    graph_in σ' gc n /\ r_key gc = r_key g.
Proof.
  intros ((coords & Hc) & (syms & Hs & Hlen) & rows & He & Hrows).
  unfold copy_graph. unfold read_coords. rewrite Hc. cbn [mbind outcome_bind].
  destruct (alloc (OCoords coords) acc.2) as [lc σ1] eqn:Ha1.
  apply alloc_lookup in Ha1 as [Hsub1 Hlc].
  unfold read_symbols. rewrite (lookup_weaken _ _ _ _ Hs Hsub1). cbn [mbind outcome_bind].
  destruct (alloc (OSymbols syms) σ1) as [ls σ2] eqn:Ha2.
  apply alloc_lookup in Ha2 as [Hsub2 Hls].
  assert (Hsub12 : acc.2 ⊆ σ2) by (by etrans).
  unfold read_edges. rewrite (lookup_weaken _ _ _ _ He Hsub12). cbn [mbind outcome_bind].
  destruct (alloc (OEdges rows) σ2) as [le σ3] eqn:Ha3.
  apply alloc_lookup in Ha3 as [Hsub3 Hle].
  assert (Hsub13 : acc.2 ⊆ σ3) by (by etrans).
  eexists _, _. split; [done|]. split; [done|]. split; [|done].
  split; [|split]; simpl.
  - exists coords. eapply lookup_weaken; [exact Hlc|]. by etrans.
  - exists syms. split; [|done]. by eapply lookup_weaken.
  - exists rows. split; [done|]. eapply Forall_impl; [exact Hrows|].
    intros l [row Hrow]. exists row. by eapply lookup_weaken.
Qed.

Lemma copy_loop_returns (graphs : list (graph_ref Image)) :
  forall ns (acc : list (graph_ref Image) * store),
  Forall2 (graph_in acc.2) graphs ns ->
  exists new σ',
    for_ graphs acc copy_graph = Ok (acc.1 ++ new, σ') /\ acc.2 ⊆ σ' /\
    Forall2 (graph_in σ') new ns /\ r_key <$> new = r_key <$> graphs.
Proof.
  induction graphs as [|g graphs IH]; intros ns acc Hall.
  - apply Forall2_nil_inv_l in Hall as ->. exists [], acc.2. simpl.
    rewrite app_nil_r. by destruct acc.
  - apply Forall2_cons_inv_l in Hall as (n & ns' & Hg & Hall & ->).
    destruct (copy_graph_returns acc g n Hg) as (gc & σ1 & Hcopy & Hsub & Hgc & Hkey).
    destruct (IH ns' (acc.1 ++ [gc], σ1)) as (new & σ' & Hloop & Hsub' & Hnew & Hkeys).
    { simpl. eapply graphs_in_shape_le; [|exact Hall]. by apply shape_le_subseteq. }
    cbn [fst snd] in *. exists (gc :: new), σ'. cbn [for_]. rewrite Hcopy.
    cbn [mbind outcome_bind]. rewrite Hloop.
    rewrite <- app_assoc. split; [done|]. split; [by etrans|]. split.
    + constructor; [|done]. eapply graph_in_shape_le; [|exact Hgc].
      by apply shape_le_subseteq.
    + rewrite !fmap_cons. by rewrite Hkey, Hkeys.
Qed.

Lemma relabel_atom_returns mappings (graph_copy : list (graph_ref Image)) ns gi
    (σ1 σ : store) (a : string * nat) :
  Forall2 (graph_in σ1) graph_copy ns -> shape_le σ1 σ ->
  (exists n, ns !! gi = Some n /\ a.2 < n) ->
  exists σ', relabel_atom mappings graph_copy gi σ a = Ok σ' /\ shape_le σ1 σ'.
Proof.
  intros Hall Hle (n & Hn & Hlt). unfold relabel_atom.
  destruct (mappings !! a.1) as [value|]; [|by eauto].
  destruct (Forall2_lookup_r _ _ _ _ _ Hall Hn) as (gc & Hgc & Hin).
  unfold index. rewrite Hgc. simpl.
  destruct Hin as (_ & (syms1 & Hs1 & Hlen1) & _).
  destruct (shape_le_symbols _ _ _ _ Hle Hs1) as (syms & Hs & Hlen).
  unfold read_symbols. rewrite Hs. simpl.
  rewrite decide_True by lia. eexists. split; [done|].
  intros l o Hl. destruct (decide (l = r_symbols gc)) as [->|Hne].
  - rewrite Hs1 in Hl. injection Hl as <-. eexists. rewrite lookup_insert_eq.
    split; [done|]. simpl. eexists. split; [done|]. rewrite length_insert. lia.
  - rewrite lookup_insert_ne by done. by apply Hle.
Qed.

Lemma relabel_atoms_returns mappings (graph_copy : list (graph_ref Image)) ns gi
    (σ1 : store) (atoms : list (string * nat)) : forall σ,
  Forall2 (graph_in σ1) graph_copy ns -> shape_le σ1 σ ->
  (forall a, a ∈ atoms -> exists n, ns !! gi = Some n /\ a.2 < n) ->
  exists σ', for_ atoms σ (relabel_atom mappings graph_copy gi) = Ok σ' /\ shape_le σ1 σ'.
Proof.
  induction atoms as [|a atoms IH]; intros σ Hall Hle Hbound; simpl; [by eauto|].
  destruct (relabel_atom_returns mappings graph_copy ns gi σ1 σ a Hall Hle)
    as (σ2 & -> & Hle2); [apply Hbound; by left|].
  simpl. apply IH; [done|done|]. intros a' Ha'. apply Hbound. by right.
Qed.

Lemma relabel_loops_returns mappings (graph_copy : list (graph_ref Image)) ns
    (σ1 : store) (relevant_locs : located) : forall σ,
  Forall2 (graph_in σ1) graph_copy ns -> shape_le σ1 σ ->
  within relevant_locs ns ->
  exists σ',
    for_ relevant_locs σ (fun σ kv => for_ kv.2 σ (relabel_atom mappings graph_copy kv.1))
      = Ok σ' /\
    shape_le σ1 σ'.
Proof.
  induction relevant_locs as [|[gi atoms] locs IH]; intros σ Hall Hle Hin; simpl;
    [by eauto|].
  destruct (relabel_atoms_returns mappings graph_copy ns gi σ1 atoms σ Hall Hle)
    as (σ2 & -> & Hle2).
  { intros [sym idx] Ha. apply (Hin gi atoms sym idx); [by left|done]. }
  simpl. apply IH; [done|done|].
  intros gi' atoms' sym idx Hl Ha. apply (Hin gi' atoms' sym idx); [by right|done].
Qed.

Lemma replaced_graphs_returns (graphs : list (graph_ref Image)) ns relevant_locs
    mappings (σ : store) :
  Forall2 (graph_in σ) graphs ns -> within relevant_locs ns ->
  exists graph_copy σ',
    replaced_graphs graphs relevant_locs mappings σ = Ok (graph_copy, σ') /\
    (forall l o, σ !! l = Some o -> σ' !! l = Some o) /\
    Forall2 (graph_in σ') graph_copy ns /\
    r_key <$> graph_copy = r_key <$> graphs.
Proof.
  intros Hall Hin.
  destruct (copy_loop_returns graphs ns ([], σ) Hall) as (copies & σ1 & Hcopy & _ & Hc & Hk).
  simpl in Hcopy.
  destruct (relabel_loops_returns mappings copies ns σ1 relevant_locs σ1 Hc)
    as (σ2 & Hrel & Hle); [by apply shape_le_frame|done|].
  assert (Hrun : replaced_graphs graphs relevant_locs mappings σ = Ok (copies, σ2)).
  { unfold replaced_graphs. rewrite Hcopy. simpl. by rewrite Hrel. }
  exists copies, σ2. split; [done|].
  split; [by destruct (replaced_graphs_spec _ _ _ _ _ _ Hrun) as [? _]|].
  split; [by eapply graphs_in_shape_le|done].
Qed.

Lemma append_copy_loop_returns l : forall acc,
  Forall has_category l -> for_ l acc append_copy = Ok (acc ++ l).
Proof.
  induction l as [|e l IH]; intros acc Hall; simpl; [by rewrite app_nil_r|].
  apply Forall_cons in Hall as [He Hall]. destruct e as [e|?]; [|done].
  destruct He as [c Hc]. simpl. rewrite Hc. simpl. rewrite IH by done.
  by rewrite <- app_assoc.
Qed.

Lemma copy_items_returns (v : list item) : forall acc,
  Forall can_copy v ->
  for_ v acc
    (fun copy_list entity =>
       match entity with
       | List l => sub_list ← for_ l [] append_copy; Ok (copy_list ++ [List sub_list])
       | Dict _ => append_copy copy_list entity
       end) = Ok (acc ++ v).
Proof.
  induction v as [|e v IH]; intros acc Hall; simpl; [by rewrite app_nil_r|].
  apply Forall_cons in Hall as [He Hall]. destruct e as [e|l].
  - destruct He as [c Hc]. simpl. rewrite Hc. simpl. rewrite IH by done.
    by rewrite <- app_assoc.
  - simpl in He. rewrite (append_copy_loop_returns l []) by done. simpl.
    rewrite IH by done. by rewrite <- app_assoc.
Qed.

Lemma copy_reaction_returns (orig_reaction : reaction) :
  (forall k v, (k, v) ∈ orig_reaction -> Forall can_copy v) ->
  exists rc, copy_reaction orig_reaction = Ok rc.
Proof.
  unfold copy_reaction. generalize ([] : reaction).
  induction orig_reaction as [|[k v] orig IH]; intros acc Hall; simpl; [by eauto|].
  rewrite (copy_items_returns v []); [|apply (Hall k); by left]. simpl.
  apply IH. intros k' v' Hin. apply (Hall k'). by right.
Qed.

Lemma write_smiles_loop_returns keys orig_reaction (σ : store)
    (graph_copy : list (graph_ref Image)) : forall ns rc,
  Forall2 (graph_in σ) graph_copy ns ->
  Forall (names_dict orig_reaction) graph_copy ->
  Forall (fun g => r_key g ∈ keys) graph_copy ->
  only_smiles keys orig_reaction rc ->
  exists rc',
    for_ graph_copy rc (write_smiles convert_graph_to_output σ) = Ok rc' /\
    only_smiles keys orig_reaction rc'.
Proof.
  induction graph_copy as [|gc graph_copy IH]; intros ns rc Hin Hnames Hkeys Hrc; simpl;
    [by eauto|].
  apply Forall2_cons_inv_l in Hin as (n & ns' & Hgc & Hin & ->).
  apply Forall_cons in Hnames as [(molecules & e & Hm & He) Hnames].
  apply Forall_cons in Hkeys as [Hkey Hkeys].
  assert (Hstep : exists rc1,
            write_smiles convert_graph_to_output σ rc gc = Ok rc1).
  { unfold write_smiles.
    destruct (read_graph_returns _ _ _ Hgc) as [gv ->]. simpl.
    destruct Hrc as [_ Hitems].
    destruct (Hitems _ _ Hm) as (items' & -> & _ & Hj). simpl.
    unfold index.
    destruct (Hj (r_key gc).2) as [->|(_ & e0 & s0 & _ & ->)].
    - rewrite He. simpl. by eauto.
    - simpl. by eauto. }
  destruct Hstep as [rc1 Hstep]. rewrite Hstep. simpl.
  apply (IH ns'); [done|done|done|].
  by eapply write_smiles_only_smiles.
Qed.

(** The substitution engine returns when the lists of the graphs are in
    the store, the located positions are within the graphs, every graph's key
    names a dictionary of the reaction, and the reaction's elements can be
    copied. *)
Lemma get_replaced_reaction_returns orig_reaction (graphs : list (graph_ref Image)) ns
    relevant_locs mappings (σ : store) :
  NoDup orig_reaction.*1 ->
  (forall k v, (k, v) ∈ orig_reaction -> Forall can_copy v) ->
  Forall2 (graph_in σ) graphs ns -> within relevant_locs ns ->
  Forall (names_dict orig_reaction) graphs ->
  exists reaction_copy σ',
    get_replaced_reaction convert_graph_to_output orig_reaction graphs relevant_locs
      mappings σ = Ok (reaction_copy, σ') /\
    (forall l o, σ !! l = Some o -> σ' !! l = Some o) /\
    only_smiles (r_key <$> graphs) orig_reaction reaction_copy.
Proof.
  intros Hnd Hcopy Hin Hlocs Hnames.
  destruct (replaced_graphs_returns graphs ns relevant_locs mappings σ Hin Hlocs)
    as (graph_copy & σ' & Hrun & Hframe & Hin' & Hkeys).
  destruct (copy_reaction_returns orig_reaction Hcopy) as [rc0 Hrc0].
  pose proof (copy_reaction_eq _ _ Hnd Hrc0) as ->.
  destruct (write_smiles_loop_returns (r_key <$> graphs) orig_reaction σ' graph_copy ns
              orig_reaction Hin') as (rc & Hrc & Honly).
  - apply Forall_forall. intros gc Hgc.
    assert (Hk : r_key gc ∈ r_key <$> graphs).
    { rewrite <- Hkeys. apply list_elem_of_fmap. by exists gc. }
    apply list_elem_of_fmap in Hk as (g & Hk & Hg).
    rewrite Forall_forall in Hnames. specialize (Hnames g Hg).
    unfold names_dict in *. by rewrite Hk.
  - apply Forall_forall. intros gc Hgc. rewrite <- Hkeys.
    apply list_elem_of_fmap. by exists gc.
  - split; [done|]. intros k items Hk. exists items. split; [done|]. split; [done|].
    intros j. by left.
  - exists rc, σ'. split; [|done]. unfold get_replaced_reaction.
    rewrite Hrun. simpl. rewrite Hrc0. simpl. by rewrite Hrc.
Qed.

End Returns.

(** ** When the expander returns *)

Section ExpanderReturns.
Context {Image : Type}.
Variable crop : Image -> bbox -> Image.
Variable predict_images : list Image -> list mol_output.
Variable convert_graph_to_output : graph Image -> string.

Lemma alloc_rows_spec (edges : list (list Z)) : forall (acc : list loc * store),
  let out := foldl (fun acc row => let '(l, σ) := alloc (ORow row) acc.2 in (acc.1 ++ [l], σ))
               acc edges in
  acc.2 ⊆ out.2 /\
  exists new, out.1 = acc.1 ++ new /\
              Forall (fun l => exists row, out.2 !! l = Some (ORow row)) new.
Proof.
  induction edges as [|row edges IH]; intros acc; cbv zeta; cbn [foldl].
  - split; [done|]. exists []. by rewrite app_nil_r.
  - destruct (alloc (ORow row) acc.2) as [l σ1] eqn:Ha.
    apply alloc_lookup in Ha as [Hsub Hl].
    pose proof (IH (acc.1 ++ [l], σ1)) as IH'. cbv zeta in IH'. cbn [fst snd] in IH'.
    destruct IH' as (Hsub' & new & Hnew & Hall).
    split; [by etrans|]. exists (l :: new). rewrite Hnew, <- app_assoc.
    split; [done|]. constructor; [|done]. exists row. by eapply lookup_weaken.
Qed.

Lemma alloc_graph_spec (σ : store) (g : graph Image) :
  σ ⊆ (alloc_graph σ g).2 /\
  graph_in (alloc_graph σ g).2 (alloc_graph σ g).1 (length (g_symbols g)) /\
  r_key (alloc_graph σ g).1 = g_key g.
Proof.
  unfold alloc_graph.
  destruct (alloc (OCoords (g_coords g)) σ) as [lc σ1] eqn:Ha1.
  apply alloc_lookup in Ha1 as [Hsub1 Hlc].
  destruct (alloc (OSymbols (g_symbols g)) σ1) as [ls σ2] eqn:Ha2.
  apply alloc_lookup in Ha2 as [Hsub2 Hls].
  pose proof (alloc_rows_spec (g_edges g) ([], σ2)) as Hrows. cbv zeta in Hrows.
  destruct (foldl _ ([], σ2) (g_edges g)) as [rows σ3]. cbn [fst snd] in Hrows.
  destruct Hrows as (Hsub3 & new & -> & Hall).
  destruct (alloc (OEdges ([] ++ new)) σ3) as [le σ4] eqn:Ha4.
  apply alloc_lookup in Ha4 as [Hsub4 Hle]. cbn [fst snd].
  split; [by repeat (etrans; [eassumption|])|]. split; [|done].
  split; [|split]; cbn [r_coords r_symbols r_edges].
  - eexists. eapply lookup_weaken; [exact Hlc|]. by repeat (etrans; [eassumption|]).
  - eexists. split; [|done]. eapply lookup_weaken; [exact Hls|]. by etrans.
  - eexists. split; [exact Hle|]. simpl. eapply Forall_impl; [exact Hall|].
    intros l [row Hrow]. exists row. by eapply lookup_weaken.
Qed.

Lemma alloc_graphs_spec (graphs : list (graph Image)) :
  forall (acc : list (graph_ref Image) * store),
  let out := foldl (fun acc g => let '(r, σ) := alloc_graph acc.2 g in (acc.1 ++ [r], σ))
               acc graphs in
  acc.2 ⊆ out.2 /\
  exists new, out.1 = acc.1 ++ new /\
              Forall2 (graph_in out.2) new (length ∘ g_symbols <$> graphs) /\
              r_key <$> new = g_key <$> graphs.
Proof.
  induction graphs as [|g graphs IH]; intros acc; cbv zeta; cbn [foldl].
  - split; [done|]. exists []. rewrite app_nil_r. split; [done|]. by split; [constructor|].
  - destruct (alloc_graph_spec acc.2 g) as (Hsub & Hin & Hkey).
    destruct (alloc_graph acc.2 g) as [r σ1]. cbn [fst snd] in *.
    pose proof (IH (acc.1 ++ [r], σ1)) as IH'. cbv zeta in IH'. cbn [fst snd] in IH'.
    destruct IH' as (Hsub' & new & Hnew & Hall & Hkeys).
    split; [by etrans|]. exists (r :: new). rewrite Hnew, <- app_assoc.
    split; [done|]. rewrite !fmap_cons. split; [|by rewrite Hkey, Hkeys].
    constructor; [|done]. eapply graph_in_shape_le; [|exact Hin].
    by apply shape_le_subseteq.
Qed.

Lemma find_relevant_groups_within (graphs : list (graph Image)) columns :
  within (find_relevant_groups graphs columns) (length ∘ g_symbols <$> graphs).
Proof.
  intros gi atoms sym idx Hin Ha. unfold find_relevant_groups in Hin.
  apply elem_of_lookup_imap in Hin as (i & g & [= -> ->] & Hg).
  exists (length (g_symbols g)). split; [by rewrite list_lookup_fmap, Hg|].
  apply list_elem_of_omap in Ha as ([j atom] & Hj & Hf). simpl in Hf.
  case_decide; [|done]. injection Hf as _ <-.
  apply elem_of_lookup_imap in Hj as (j' & atom' & [= -> ->] & Hlook).
  by eapply lookup_lt_Some.
Qed.

Lemma only_smiles_get keys (orig_reaction rc : reaction) k :
  only_smiles keys orig_reaction rc ->
  is_Some (dict_get k orig_reaction) -> is_Some (dict_get k rc).
Proof.
  intros [_ Hitems] [items Hk]. destruct (Hitems _ _ Hk) as (items' & -> & _). by eexists.
Qed.

Lemma process_rows_returns orig_reaction (graphs : list (graph_ref Image)) ns
    relevant_locs columns rows : forall st,
  well_formed orig_reaction ->
  Forall2 (graph_in (graph_store st)) graphs ns -> within relevant_locs ns ->
  Forall (names_dict orig_reaction) graphs ->
  exists st',
    for_ rows st
      (process_row convert_graph_to_output orig_reaction graphs relevant_locs columns)
    = Ok st'.
Proof.
  intros st (Hnd & Hr & Hc & Hp & Hcopy). revert st.
  induction rows as [|row rows IH]; intros st Hin Hlocs Hnames; simpl; [by eauto|].
  assert (Hstep : exists st1,
            process_row convert_graph_to_output orig_reaction graphs relevant_locs
              columns st row = Ok st1 /\
            forall l o, graph_store st !! l = Some o -> graph_store st1 !! l = Some o).
  { unfold process_row. destruct Hc as [conditions ->]. simpl.
    destruct (get_replaced_reaction_returns convert_graph_to_output orig_reaction graphs
                ns relevant_locs (r_groups (scan_row conditions columns row))
                (graph_store st) Hnd Hcopy Hin Hlocs Hnames)
      as (rc & σ' & -> & Hframe & Honly). simpl.
    destruct (replaced (scan_row conditions columns row)); [|by eauto].
    destruct (only_smiles_get _ _ _ "reactants" Honly Hr) as [reactants ->].
    destruct (only_smiles_get _ _ _ "products" Honly Hp) as [products ->].
    simpl. by eauto. }
  destruct Hstep as (st1 & -> & Hframe). simpl.
  apply IH; [|done|done].
  eapply graphs_in_shape_le; [|exact Hin]. by apply shape_le_frame.
Qed.

Lemma process_table_returns figure result :
  (forall content orig_reaction others,
     fig_table_content figure = Some content ->
     reactions result = orig_reaction :: others ->
     well_formed orig_reaction /\
     exists graphs,
       get_atoms_and_bonds crop predict_images (fig_image figure) orig_reaction
         = Ok graphs) ->
  exists result',
    process_table crop predict_images convert_graph_to_output figure result = Ok result'.
Proof.
  intros Hready. unfold process_table.
  destruct (fig_table_content figure) as [content|]; [|by eauto].
  destruct (reactions result) as [|orig_reaction others]; [by eauto|].
  destruct (Hready content orig_reaction others) as (Hwf & graphs & Hgraphs); [done..|].
  rewrite Hgraphs. simpl.
  pose proof (alloc_graphs_spec graphs ([], ∅)) as Halloc. cbv zeta in Halloc.
  unfold alloc_graphs.
  destruct (foldl _ ([], ∅) graphs) as [graph_refs σ]. cbn [fst snd] in Halloc.
  destruct Halloc as (_ & new & -> & Hin & Hkeys). simpl in *.
  destruct (process_rows_returns orig_reaction new (length ∘ g_symbols <$> graphs)
              (find_relevant_groups graphs (columns content)) (columns content)
              (rows content) (RowsState [] [] σ) Hwf Hin) as [st ->].
  - apply find_relevant_groups_within.
  - apply Forall_forall. intros r Hr.
    assert (Hk : r_key r ∈ g_key <$> graphs).
    { rewrite <- Hkeys. apply list_elem_of_fmap. by exists r. }
    apply list_elem_of_fmap in Hk as (g & Hk & Hg).
    destruct Hwf as (Hnd & _).
    destruct (get_atoms_and_bonds_keys crop predict_images _ _ _ Hnd Hgraphs g Hg)
      as (molecules & e & Hm & He & _).
    exists molecules, e. by rewrite Hk.
  - simpl. destruct Hwf as (_ & _ & [conditions ->] & _). simpl. by eauto.
Qed.

(** The expander returns when, for every figure with a table whose result
    has an instance, the first instance is a dictionary with the three keys
    whose elements can be copied, and the adapter returns its graphs. *)
Theorem process_tables_returns figures results :
  (forall i figure result content orig_reaction others,
     figures !! i = Some figure -> results !! i = Some result ->
     fig_table_content figure = Some content ->
     reactions result = orig_reaction :: others ->
     well_formed orig_reaction /\
     exists graphs,
       get_atoms_and_bonds crop predict_images (fig_image figure) orig_reaction
         = Ok graphs) ->
  exists out,
    process_tables crop predict_images convert_graph_to_output figures results = Ok out.
Proof.
  revert results. induction figures as [|figure figures IH]; intros results Hready.
  - destruct results; simpl; by eauto.
  - destruct results as [|result results]; simpl; [by eauto|].
    destruct (process_table_returns figure result) as [r ->].
    { intros content orig_reaction others. by apply (Hready 0). }
    simpl. destruct (IH results) as [rs ->]; [|simpl; by eauto].
    intros i. apply (Hready (S i)).
Qed.

End ExpanderReturns.

(** ** When [replace_rgroups_in_figure] returns *)

Section FigureRGroupsReturns.
Import FigureRGroups.
Context {Image : Type}.
Variable crop : Image -> bbox -> Image.
Variable predict_images : list Image -> list mol_output.
Variable convert_graph_to_output : graph Image -> string.

Lemma locate_within names (graphs : list (graph Image)) :
  within (locate names graphs) (length ∘ g_symbols <$> graphs).
Proof.
  intros gi atoms sym idx Hin Ha. unfold locate in Hin.
  apply elem_of_lookup_imap in Hin as (i & g & [= -> ->] & Hg).
  exists (length (g_symbols g)). split; [by rewrite list_lookup_fmap, Hg|].
  apply list_elem_of_omap in Ha as ([j atom] & Hj & Hf). simpl in Hf.
  case_decide; [|done]. injection Hf as _ <-.
  apply elem_of_lookup_imap in Hj as (j' & atom' & [= -> ->] & Hlook).
  by eapply lookup_lt_Some.
Qed.

Lemma scan_boxes_returns boxes : forall st,
  Forall readable boxes -> exists st', for_ boxes st scan_bbox = Ok st'.
Proof.
  induction boxes as [|bb boxes IH]; intros st Hall; simpl; [by eauto|].
  apply Forall_cons in Hall as [(c & Hc & Ht) Hall].
  unfold scan_bbox. rewrite Hc. simpl. case_decide as Hidt.
  - destruct (Ht Hidt) as [t ->]. simpl. by apply IH.
  - simpl. by apply IH.
Qed.

Lemma add_instances_returns orig_reaction (graphs : list (graph_ref Image)) ns
    relevant_locs r_groups : forall st,
  well_formed orig_reaction ->
  Forall2 (graph_in st.2) graphs ns -> within relevant_locs ns ->
  Forall (names_dict orig_reaction) graphs ->
  exists out,
    for_ r_groups st
      (add_instance convert_graph_to_output orig_reaction graphs relevant_locs) = Ok out.
Proof.
  intros st (Hnd & Hr & Hc & Hp & Hcopy). revert st.
  induction r_groups as [|r_group r_groups IH]; intros st Hin Hlocs Hnames; cbn [for_];
    [by eauto|].
  assert (Hstep : exists st1,
            add_instance convert_graph_to_output orig_reaction graphs relevant_locs
              st r_group = Ok st1 /\
            forall l o, st.2 !! l = Some o -> st1.2 !! l = Some o).
  { unfold add_instance.
    destruct (get_replaced_reaction_returns convert_graph_to_output orig_reaction graphs
                ns relevant_locs {[r_group.1 := r_group.2]} st.2 Hnd Hcopy Hin Hlocs
                Hnames) as (rc & σ' & -> & Hframe & Honly). simpl.
    destruct (only_smiles_get _ _ _ "reactants" Honly Hr) as [reactants ->].
    destruct Hc as [conditions ->].
    destruct (only_smiles_get _ _ _ "products" Honly Hp) as [products ->].
    simpl. by eauto. }
  destruct Hstep as (st1 & -> & Hframe). simpl.
  apply IH; [|done|done].
  eapply graphs_in_shape_le; [|exact Hin]. by apply shape_le_frame.
Qed.

Lemma replace_in_figure_returns figure result corefs :
  (exists boxes, bboxes corefs = Some boxes /\ Forall readable boxes) ->
  (forall orig_reaction others,
     reactions result = orig_reaction :: others ->
     well_formed orig_reaction /\
     exists graphs,
       get_atoms_and_bonds crop predict_images (fig_image figure) orig_reaction
         = Ok graphs) ->
  exists result',
    replace_in_figure crop predict_images convert_graph_to_output figure result corefs
    = Ok result'.
Proof.
  intros (boxes & Hb & Hread) Hready. unfold replace_in_figure. rewrite Hb. simpl.
  destruct (scan_boxes_returns boxes (Found [] ∅) Hread) as [st ->]. simpl.
  destruct (r_groups st) as [|r_group rest]; [by eauto|].
  destruct (reactions result) as [|orig_reaction others]; [by eauto|].
  destruct (Hready orig_reaction others) as (Hwf & graphs & Hgraphs); [done|].
  rewrite Hgraphs. simpl.
  pose proof (alloc_graphs_spec graphs ([], ∅)) as Halloc. cbv zeta in Halloc.
  unfold alloc_graphs.
  destruct (foldl _ ([], ∅) graphs) as [graph_refs σ]. cbn [fst snd] in Halloc.
  destruct Halloc as (_ & new & -> & Hin & Hkeys). simpl in *.
  destruct (add_instances_returns orig_reaction new (length ∘ g_symbols <$> graphs)
              (locate (set_map fst (seen_r_groups st)) graphs) (r_group :: rest)
              ([], σ) Hwf Hin) as [out Hout].
  - apply locate_within.
  - apply Forall_forall. intros r Hr.
    assert (Hk : r_key r ∈ g_key <$> graphs).
    { rewrite <- Hkeys. apply list_elem_of_fmap. by exists r. }
    apply list_elem_of_fmap in Hk as (g & Hk & Hg).
    destruct Hwf as (Hnd & _).
    destruct (get_atoms_and_bonds_keys crop predict_images _ _ _ Hnd Hgraphs g Hg)
      as (molecules & e & Hm & He & _).
    exists molecules, e. by rewrite Hk.
  - simpl in Hout. rewrite Hout. simpl. by eauto.
Qed.

(** [replace_rgroups_in_figure] returns when every coreference record has
    its boxes, every box a category and every identifier box a text, and, for
    every result with an instance, the first instance is a dictionary with the
    three keys whose elements can be copied and the adapter returns its
    graphs. *)
Theorem replace_rgroups_in_figure_returns figures results coref_results :
  (forall i figure result corefs,
     figures !! i = Some figure -> results !! i = Some result ->
     coref_results !! i = Some corefs ->
     (exists boxes, bboxes corefs = Some boxes /\ Forall readable boxes) /\
     forall orig_reaction others,
       reactions result = orig_reaction :: others ->
       well_formed orig_reaction /\
       exists graphs,
         get_atoms_and_bonds crop predict_images (fig_image figure) orig_reaction
           = Ok graphs) ->
  exists out,
    replace_rgroups_in_figure crop predict_images convert_graph_to_output
      figures results coref_results = Ok out.
Proof.
  revert results coref_results.
  induction figures as [|figure figures IH]; intros results coref_results Hready.
  - destruct results; simpl; by eauto.
  - destruct results as [|result results]; simpl; [by eauto|].
    destruct coref_results as [|corefs coref_results]; simpl; [by eauto|].
    destruct (Hready 0 figure result corefs) as [Hboxes Hinst]; [done..|].
    destruct (replace_in_figure_returns figure result corefs Hboxes Hinst) as [r ->].
    simpl. destruct (IH results coref_results) as [rs ->]; [|simpl; by eauto].
    intros i. apply (Hready (S i)).
Qed.

End FigureRGroupsReturns.

(** ** When [backout] returns *)

Lemma for_returns {S A} (P : A -> Prop) (l : list A) (body : S -> A -> outcome S) :
  (forall st a, P a -> exists st', body st a = Ok st') ->
  Forall P l -> forall st, exists st', for_ l st body = Ok st'.
Proof.
  intros Hbody Hall. induction Hall as [|a l Ha _ IH]; intros st; simpl; [by eauto|].
  destruct (Hbody st a Ha) as [st1 ->]. simpl. apply IH.
Qed.

Lemma comprehension_returns {A B} (f : A -> outcome B) (l : list A) :
  Forall (fun a => exists b, f a = Ok b) l -> exists bs, comprehension f l = Ok bs.
Proof.
  induction 1 as [|a l [b Hb] _ [bs IH]]; simpl; [by eauto|].
  rewrite Hb. simpl. rewrite IH. simpl. by eauto.
Qed.

Lemma clean_corefs_returns coref_results idx :
  Forall usable_record coref_results -> exists r, clean_corefs coref_results idx = Ok r.
Proof.
  intros Hall. unfold clean_corefs. case_decide as Hlen; [by eauto|].
  destruct (lookup_lt_is_Some_2 coref_results idx) as [res Hres]; [lia|].
  unfold index. rewrite Hres. cbn [mbind outcome_bind].
  rewrite Forall_forall in Hall.
  pose proof (Hall res (list_elem_of_lookup_2 _ _ _ Hres)) as Hres'.
  unfold usable_record in Hres'.
  destruct (cr_mol_bboxes res) as [mol_bboxes|]; [|by eauto].
  destruct Hres' as [(first & rest & -> & Hsmiles) Hidt].
  change ((first :: rest) !! 0) with (Some first). cbn [mbind outcome_bind].
  assert (Htext : exists mbt,
            match mb_smiles first with
            | Some _ => comprehension (fun b => s ← getitem (mb_smiles b); Ok (b, s))
                          (first :: rest)
            | None => Ok []
            end = Ok mbt).
  { destruct (mb_smiles first) as [s|] eqn:Hs; [|by eauto].
    destruct Hsmiles as [?|Hsmiles]; [done|].
    apply comprehension_returns. eapply Forall_impl; [exact Hsmiles|].
    intros b [s' ->]. simpl. by eauto. }
  destruct Htext as [mbt ->]. cbn [mbind outcome_bind].
  destruct (cr_idt_bboxes res) as [|idt_bboxes|]; [by eauto| |by eauto].
  destruct Hidt as [Htexts [bboxes ->]].
  destruct (comprehension_returns (fun b => getitem (ib_text b)) idt_bboxes) as [texts ->].
  { eapply Forall_impl; [exact Htexts|]. intros b [t ->]. simpl. by eauto. }
  simpl. by eauto.
Qed.

Lemma first_product_smiles_returns rxn :
  readable_reaction rxn -> exists s, first_product_smiles rxn = Ok s.
Proof.
  intros [(p & rest & Hp) _]. unfold first_product_smiles. rewrite Hp. simpl. by eauto.
Qed.

Lemma build_new_rxn_returns csg rxn :
  readable_reaction rxn -> exists new_rxn, build_new_rxn csg rxn = Ok new_rxn.
Proof.
  intros [(p & rest & Hp) (reactants & Hr & Hall)]. unfold build_new_rxn.
  rewrite Hp, Hr. cbn [getitem mbind outcome_bind]. clear Hr.
  enough (Hgen : forall acc : list item,
            exists new_rxn,
              for_ reactants [("reactants", acc); ("products", Dict p :: rest)]
                (fun new_rxn reactant =>
                   r ← relabel csg reactant;
                   old ← getitem (dict_get "reactants" new_rxn);
                   Ok (dict_set "reactants" (old ++ [r]) new_rxn)) = Ok new_rxn)
    by apply Hgen.
  induction Hall as [|r reactants [e ->] _ IH]; intros acc; cbn [for_]; [by eauto|].
  assert (Hrel : exists r', relabel csg (Dict e) = Ok r').
  { simpl. destruct (e_smiles e) as [[s|]|]; [|by eauto..].
    destruct (csg !! s); by eauto. }
  destruct Hrel as [r' ->]. simpl. apply IH.
Qed.

Section BackoutReturns.
Context {Mol : Type}.
Variable MolFromSmiles : string -> option Mol.
Variable HasSubstructMatch : Mol -> Mol -> bool.

Lemma backout_rxn_returns csg results final rxn :
  Forall (fun res => Forall readable_reaction (reactions res)) results ->
  readable_reaction rxn ->
  exists final',
    backout_rxn MolFromSmiles HasSubstructMatch csg results final rxn = Ok final'.
Proof.
  intros Hresults Hrxn. unfold backout_rxn.
  destruct (first_product_smiles_returns rxn Hrxn) as [s ->]. simpl.
  destruct s as [[prod_smiles|]|]; [|by eauto..].
  destruct (contains "*" prod_smiles); [|by eauto].
  revert final. eapply for_returns; [|exact Hresults].
  intros st other_res Hother. simpl in Hother.
  revert st. eapply for_returns; [|exact Hother].
  intros st other_rxn Hother_rxn. unfold backout_other.
  destruct (first_product_smiles_returns other_rxn Hother_rxn) as [o ->]. simpl.
  destruct o as [[other_prod_smiles|]|]; [|by eauto..].
  destruct (negb _ && _); [|by eauto].
  destruct (build_new_rxn_returns csg rxn Hrxn) as [new_rxn ->]. simpl. by eauto.
Qed.

(** [backout] returns when the first product and the reactants of every
    reaction are dictionaries and every coreference record can be read: in
    particular when every list of molecule boxes has a first element. *)
Theorem backout_returns results coref_results :
  Forall (fun res => Forall readable_reaction (reactions res)) results ->
  Forall usable_record coref_results ->
  exists final, backout MolFromSmiles HasSubstructMatch results coref_results = Ok final.
Proof.
  intros Hresults Hcorefs. unfold backout.
  destruct (comprehension_returns without_rgroups results) as [final0 ->].
  { eapply Forall_impl; [exact Hresults|]. intros res Hres. unfold without_rgroups.
    eapply for_returns; [|exact Hres]. intros st rxn Hrxn. unfold no_rgroup.
    destruct (first_product_smiles_returns rxn Hrxn) as [s ->]. simpl. by eauto. }
  simpl.
  assert (Henum : Forall (fun ires : nat * figure_result =>
                            Forall readable_reaction (reactions ires.2))
                    (enumerate results)).
  { apply Forall_forall. intros [i res] Hin. apply enumerate_lookup in Hin.
    rewrite Forall_forall in Hresults. apply Hresults. by eapply list_elem_of_lookup_2. }
  eapply for_returns; [|exact Henum].
  intros st [i res] Hres. simpl in Hres. unfold backout_res. simpl.
  destruct (clean_corefs_returns coref_results i Hcorefs) as [coref_res ->]. simpl.
  destruct coref_res as [[[mol_bboxes_text coref_smiles] bboxes]|]; [|by eauto].
  revert st. eapply for_returns; [|exact Hres].
  intros st rxn Hrxn. by apply backout_rxn_returns.
Qed.

End BackoutReturns.

(** ** The walk that collects a fragment *)

Section ComponentFacts.
Import Component.
Variable neighbors : nat -> list nat.
Variable excluded : gset nat.
Variable start : nat.
Variable bound : nat.
Hypothesis neighbors_bound : forall a, Forall (fun b => b < bound) (neighbors a).
Hypothesis start_bound : start < bound.

Abbreviation step' := (step neighbors excluded).
Abbreviation reachable' := (reachable neighbors excluded start).
Abbreviation visit' := (visit excluded).

Abbreviation queue_ok' := (queue_ok neighbors excluded start bound).
Abbreviation closed_below' := (closed_below neighbors excluded).

Lemma queue_ok_length st : queue_ok' st -> length st.1 <= bound.
Proof.
  intros (Hnd & _ & Hall).
  assert (Hsub : st.1 ⊆+ seq 0 bound).
  { apply NoDup_submseteq; [done|]. intros x Hx. apply elem_of_seq.
    destruct (Hall x Hx). lia. }
  apply submseteq_length in Hsub. by rewrite length_seq in Hsub.
Qed.

Lemma visit_fold cur (l : list nat) : forall st,
  queue_ok' st -> reachable' cur -> (forall n, n ∈ l -> n ∈ neighbors cur) ->
  let st' := foldl visit' st l in
  queue_ok' st' /\ st.1 `prefix_of` st'.1 /\
  forall n, n ∈ l -> n ∉ excluded -> n ∈ st'.1.
Proof.
  induction l as [|n l IH]; intros st Hok Hcur Hl; cbv zeta; cbn [foldl].
  - split; [done|]. split; [done|]. intros n Hn. by apply elem_of_nil in Hn.
  - assert (Hn : n ∈ neighbors cur) by (apply Hl; by left).
    assert (Hstep : queue_ok' (visit' st n) /\ st.1 `prefix_of` (visit' st n).1 /\
                    (n ∉ excluded -> n ∈ (visit' st n).1)).
    { unfold visit. destruct Hok as (Hnd & Hseen & Hall). case_decide as Hnew.
      - destruct Hnew as [Hns Hne]. split; [|split].
        + split; [|split]; cbn [fst snd].
          * apply NoDup_app. split; [done|]. split; [|apply NoDup_singleton].
            intros x Hx Hx'. apply list_elem_of_singleton in Hx' as ->.
            by apply Hns, Hseen.
          * intros x. rewrite elem_of_union, elem_of_singleton, elem_of_app,
              list_elem_of_singleton, Hseen. tauto.
          * intros x Hx. apply elem_of_app in Hx as [Hx|Hx]; [by apply Hall|].
            apply list_elem_of_singleton in Hx as ->. split.
            -- eapply rtc_r; [exact Hcur|]. by split.
            -- pose proof (neighbors_bound cur) as Hb. rewrite Forall_forall in Hb.
               by apply Hb.
        + by apply prefix_app_r.
        + intros _. cbn [fst]. apply elem_of_app. right. by left.
      - split; [done|]. split; [done|]. intros Hne.
        apply not_and_l in Hnew as [Hin|Hin]; [|done].
        apply Hseen. by apply dec_stable. }
    destruct Hstep as (Hok1 & Hpre1 & Hn1).
    pose proof (IH (visit' st n) Hok1 Hcur) as IH'. cbv zeta in IH'.
    destruct IH' as (Hok' & Hpre' & Hall'); [intros m Hm; apply Hl; by right|].
    split; [done|]. split; [by etrans|].
    intros m Hm Hne. apply elem_of_cons in Hm as [->|Hm]; [|by apply Hall'].
    destruct Hpre' as [k ->]. apply elem_of_app. left. by apply Hn1.
Qed.

Lemma while_returns fuel : forall q seen head,
  queue_ok' (q, seen) -> q !! 0 = Some start -> head <= length q ->
  closed_below' q head -> bound - head < fuel ->
  exists q',
    while neighbors excluded fuel q seen head = Some q' /\
    NoDup q' /\ q' !! 0 = Some start /\
    (forall x, x ∈ q' -> reachable' x) /\
    closed_below' q' (length q').
Proof.
  induction fuel as [|fuel IH]; intros q seen head Hok Hstart Hhead Hclosed Hfuel; [lia|].
  cbn [while]. destruct (q !! head) as [cur|] eqn:Hcur.
  - cbv zeta.
    assert (Hreach : reachable' cur).
    { destruct Hok as (_ & _ & Hall). apply Hall. cbn [fst].
      by eapply list_elem_of_lookup_2. }
    pose proof (visit_fold cur (neighbors cur) (q, seen) Hok Hreach (fun n Hn => Hn))
      as Hfold. cbv zeta in Hfold.
    destruct (foldl visit' (q, seen) (neighbors cur)) as [q1 seen1] eqn:Hst.
    cbn [fst snd] in *. destruct Hfold as (Hok1 & Hpre & Hall).
    apply (IH q1 seen1 (S head)); [done| | | |].
    + destruct Hpre as [k ->]. by apply lookup_app_l_Some.
    + apply lookup_lt_Some in Hcur. apply prefix_length in Hpre. lia.
    + intros i a b Hi Ha Hstep.
      assert (Hqi : q !! i = Some a).
      { assert (Hlt : i < length q) by (apply lookup_lt_Some in Hcur; lia).
        destruct Hpre as [k ->]. by rewrite lookup_app_l in Ha. }
      destruct (decide (i = head)) as [->|Hne].
      * rewrite Hcur in Hqi. injection Hqi as <-. destruct Hstep as [Hb Hne].
        by apply Hall.
      * destruct Hpre as [k ->]. apply elem_of_app. left.
        apply (Hclosed i a b); [lia|done|done].
    + apply lookup_lt_Some in Hcur. pose proof (queue_ok_length _ Hok) as Hlen.
      cbn [fst] in Hlen. lia.
  - apply lookup_ge_None in Hcur. assert (head = length q) as -> by lia.
    exists q. destruct Hok as (Hnd & _ & Hall). split; [done|]. split; [done|].
    split; [done|]. split; [|done]. intros x Hx. by apply Hall.
Qed.

(** The walk ends: with as many passes as there are atoms, and one more,
    it returns its queue. The queue starts with the start atom, holds no atom
    twice, and holds exactly the atoms that can be reached from the start atom
    by steps to neighbours that are not excluded. *)
Theorem component_reachable :
  exists q,
    component neighbors excluded (S bound) start = Some q /\
    NoDup q /\ head q = Some start /\
    forall x, x ∈ q <-> reachable' x.
Proof.
  destruct (while_returns (S bound) [start] {[start]} 0)
    as (q & Hrun & Hnd & Hstart & Hsound & Hclosed).
  - split; [apply NoDup_singleton|]. split; cbn [fst snd].
    + intros x. by rewrite elem_of_singleton, list_elem_of_singleton.
    + intros x Hx. apply list_elem_of_singleton in Hx as ->. split; [apply rtc_refl|done].
  - done.
  - simpl. lia.
  - intros i a b Hi. lia.
  - lia.
  - exists q. split; [done|]. split; [done|]. split.
    { destruct q; [done|]. by injection Hstart as ->. }
    intros x. split; [apply Hsound|]. revert x. unfold reachable.
    apply (rtc_ind_r (fun x => x ∈ q)).
    + by eapply list_elem_of_lookup_2.
    + intros a b Ha Hstep IH. apply list_elem_of_lookup in IH as [i Hi].
      apply (Hclosed i a b); [by eapply lookup_lt_Some|done|done].
Qed.

End ComponentFacts.

(** ** [associate_corefs] does not return from a reaction with a wildcard product *)

Lemma contains_app c (s1 s2 : string) :
  contains c (s1 +:+ s2) = contains c s1 || contains c s2.
Proof. unfold contains. by rewrite list_ascii_of_string_app, existsb_app. Qed.

(** Where the entries of the parsed assignments come from. *)
Lemma parse_assignments_provenance (idt_bboxes_text : list string) label value :
  (label, value) ∈ parse_assignments idt_bboxes_text ->
  exists text f,
    text ∈ idt_bboxes_text /\ f ∈ Re.finditer Re.coref_pattern text /\
    label = group "label" f /\ value = group "group" f.
Proof.
  unfold parse_assignments.
  enough (Hgen : forall acc : pydict string,
            (label, value) ∈
              foldl
                (fun coref_smiles text =>
                   foldl (fun coref_smiles f =>
                            dict_set (group "label" f) (group "group" f) coref_smiles)
                     coref_smiles (Re.finditer Re.coref_pattern text))
                acc idt_bboxes_text ->
            (label, value) ∈ acc \/
            exists text f,
              text ∈ idt_bboxes_text /\ f ∈ Re.finditer Re.coref_pattern text /\
              label = group "label" f /\ value = group "group" f).
  { intros Hin. destruct (Hgen [] Hin) as [Hnil|?]; [by apply elem_of_nil in Hnil|done]. }
  induction idt_bboxes_text as [|text texts IH]; intros acc Hin; cbn [foldl] in Hin;
    [by left|].
  apply IH in Hin as [Hin|(t & f & Ht & ?)]; [|right; exists t, f; split; [by right|done]].
  assert (Hinner : forall (fs : list Re.groups) (acc0 : pydict string),
            (label, value) ∈
              foldl (fun coref_smiles f =>
                       dict_set (group "label" f) (group "group" f) coref_smiles)
                acc0 fs ->
            (label, value) ∈ acc0 \/
            exists f, f ∈ fs /\ label = group "label" f /\ value = group "group" f).
  { clear. induction fs as [|f fs IH]; intros acc0 Hin; cbn [foldl] in Hin; [by left|].
    apply IH in Hin as [Hin|(f' & Hf' & ?)]; [|right; exists f'; split; [by right|done]].
    apply dict_set_elem_of in Hin as [[= -> ->]|Hin]; [|by left].
    right. exists f. split; [by left|done]. }
  apply Hinner in Hin as [Hin|(f & Hf & ?)]; [by left|].
  right. exists text, f. split; [by left|done].
Qed.

Section AssociateFacts.
Import Associate.
Context {Mol : Type}.
Variable MolFromSmiles : string -> option Mol.
Variable dummy_labels : Mol -> outcome (list string).

Abbreviation associate_rxn' := (associate_rxn MolFromSmiles dummy_labels).
Abbreviation reactions_loop' := (reactions_loop MolFromSmiles dummy_labels).
Abbreviation associate_results' := (associate_results MolFromSmiles dummy_labels).

Lemma clean_corefs_plain_labels coref_results i mol_bboxes_text coref_smiles bboxes :
  clean_corefs coref_results i = Ok (Some (mol_bboxes_text, coref_smiles, bboxes)) ->
  plain_labels coref_smiles.
Proof.
  intros H. unfold clean_corefs in H. case_decide; [done|].
  ok_bind H as res Hres. destruct (cr_mol_bboxes res) as [mol_bboxes|]; [|done].
  ok_bind H as first Hfirst. ok_bind H as mbt Hmbt.
  destruct (cr_idt_bboxes res) as [|idt_bboxes|]; [done| |done].
  ok_bind H as texts Htexts. ok_bind H as bb Hbb. injection H as _ <- _.
  intros label smiles Hin.
  apply parse_assignments_provenance in Hin as (text & f & _ & Hf & -> & _).
  destruct (parsed_assignment _ _ Hf) as (_ & Hchars & _).
  unfold contains. apply not_true_is_false. intros Hex.
  apply existsb_exists in Hex as (ch & Hch & Heq). apply Ascii.eqb_eq in Heq as <-.
  rewrite Forall_forall in Hchars. apply list_elem_of_In, Hchars in Hch. done.
Qed.

Lemma keeps_refl (σ : store) : keeps σ σ.
Proof. split; [done|]. intros l rs Hl. exists []. by rewrite app_nil_r. Qed.

Lemma keeps_trans (σ1 σ2 σ3 : store) : keeps σ1 σ2 -> keeps σ2 σ3 -> keeps σ1 σ3.
Proof.
  intros [Hw1 Hl1] [Hw2 Hl2]. split; [auto|]. intros l rs Hl.
  destruct (Hl1 _ _ Hl) as [rs1 H1]. destruct (Hl2 _ _ H1) as [rs2 H2].
  exists (rs1 ++ rs2). by rewrite app_assoc.
Qed.

Lemma rewrite_reactant_keeps r_label smiles (σ σ' : store) reactant :
  contains "*" r_label = false ->
  rewrite_reactant r_label smiles σ reactant = Ok σ' -> keeps σ σ'.
Proof.
  intros Hplain H. unfold rewrite_reactant in H. ok_bind H as old Hold.
  destruct old as [[old|]|]; [|injection H as <-; apply keeps_refl..].
  case_decide as Heq; [|injection H as <-; apply keeps_refl]. injection H as <-.
  unfold entity_smiles in Hold.
  destruct (σ !! reactant) as [[| |]|] eqn:Hr; try done. injection Hold as ->.
  split.
  - intros p (s & Hp & Hs). destruct (decide (p = reactant)) as [->|Hne].
    + rewrite Hr in Hp. injection Hp as <-. subst old.
      rewrite !contains_app, Hplain in Hs. done.
    + exists s. by rewrite lookup_insert_ne.
  - intros l rs Hl. exists []. rewrite app_nil_r.
    destruct (decide (l = reactant)) as [->|Hne]; [by rewrite Hr in Hl|].
    by rewrite lookup_insert_ne.
Qed.

Lemma collect_labels coref_smiles r_labels label smiles :
  (label, smiles) ∈ collect coref_smiles r_labels ->
  exists smiles', (label, smiles') ∈ coref_smiles.
Proof.
  unfold collect.
  enough (Hgen : forall acc : pydict string,
            (label, smiles) ∈
              foldl (fun r_group_smiles r_label =>
                       match dict_get r_label coref_smiles with
                       | Some smiles => dict_set r_label smiles r_group_smiles
                       | None => r_group_smiles
                       end) acc r_labels ->
            (label, smiles) ∈ acc \/ exists smiles', (label, smiles') ∈ coref_smiles).
  { intros Hin. destruct (Hgen [] Hin) as [Hnil|?]; [by apply elem_of_nil in Hnil|done]. }
  induction r_labels as [|r_label r_labels IH]; intros acc Hin; cbn [foldl] in Hin;
    [by left|].
  apply IH in Hin as [Hin|?]; [|by right].
  destruct (dict_get r_label coref_smiles) as [v|] eqn:Hget; [|by left].
  apply dict_set_elem_of in Hin as [[= -> ->]|Hin]; [|by left].
  right. exists v. by apply dict_get_Some_elem_of.
Qed.

Lemma append_spec l new_rxn (σ σ' : store) :
  append l new_rxn σ = Ok σ' ->
  keeps σ σ' /\
  exists rs, σ !! l = Some (OReactions rs) /\ σ' !! l = Some (OReactions (rs ++ [new_rxn])).
Proof.
  unfold append. destruct (σ !! l) as [[rs| |]|] eqn:Hl; try done. intros [= <-].
  split; [|exists rs; split; [done|by rewrite lookup_insert_eq]]. split.
  - intros p (s & Hp & Hs). exists s. split; [|done].
    destruct (decide (p = l)) as [->|Hne]; [by rewrite Hl in Hp|].
    by rewrite lookup_insert_ne.
  - intros l' rs' Hl'. destruct (decide (l' = l)) as [->|Hne].
    + rewrite Hl in Hl'. injection Hl' as <-. exists [new_rxn].
      by rewrite lookup_insert_eq.
    + exists []. rewrite app_nil_r. by rewrite lookup_insert_ne.
Qed.

(** One pass of the loop keeps the wildcard dictionaries and the lists; on
    a reaction whose first product is a wildcard dictionary it appends a
    reaction with the same products to the list. *)
Lemma associate_rxn_spec coref_smiles l (σ σ' : store) (rxn : rxn) :
  plain_labels coref_smiles ->
  associate_rxn' coref_smiles l σ rxn = Ok σ' ->
  keeps σ σ' /\
  forall p ps, products rxn = Some (p :: ps) -> wild σ p ->
    exists rs new_rxn,
      σ' !! l = Some (OReactions (rs ++ [new_rxn])) /\
      (forall rs0, σ !! l = Some (OReactions rs0) -> length rs0 <= length rs) /\
      products new_rxn = Some (p :: ps).
Proof.
  intros Hplain H. unfold associate_rxn in H. ok_bind H as s Hs.
  assert (Hwild : forall p ps, products rxn = Some (p :: ps) -> wild σ p ->
            exists prod_smiles, s = Some (Some prod_smiles) /\
                                contains "*" prod_smiles = true).
  { intros p ps Hp (s0 & Hp0 & Hs0). unfold first_product in Hs. rewrite Hp in Hs.
    simpl in Hs. unfold entity_smiles in Hs. rewrite Hp0 in Hs. injection Hs as <-.
    by exists s0. }
  destruct s as [[prod_smiles|]|].
  2,3: injection H as <-; split; [apply keeps_refl|];
       intros p ps Hp Hw; by destruct (Hwild p ps Hp Hw) as (? & ? & _).
  destruct (contains "*" prod_smiles) eqn:Hstar.
  2:{ injection H as <-. split; [apply keeps_refl|]. intros p ps Hp Hw.
      destruct (Hwild p ps Hp Hw) as (? & [= <-] & ?). congruence. }
  destruct (MolFromSmiles prod_smiles) as [prod_mol|]; [|done].
  ok_bind H as r_labels Hlabels. ok_bind H as reactants Hr. ok_bind H as prods Hp.
  ok_bind H as σ1 Hrewrite.
  assert (Hkeep1 : keeps σ σ1).
  { revert Hrewrite. apply (for_inv (keeps σ)); [|apply keeps_refl].
    intros σa [r_label smiles] σb Hkv Ha. simpl.
    apply (for_inv (keeps σ)); [|done].
    intros σc reactant σd _ Hc Hd. eapply keeps_trans; [exact Hc|].
    eapply rewrite_reactant_keeps; [|exact Hd].
    apply collect_labels in Hkv as [smiles' Hin]. by eapply Hplain. }
  apply append_spec in H as (Hkeep2 & rs & Hl1 & Hl').
  split; [by eapply keeps_trans|].
  intros p ps Hprod Hw. exists rs, (Rxn (Some reactants) (Some prods)).
  split; [done|]. split.
  - intros rs0 Hl0. destruct Hkeep1 as [_ Hlists].
    destruct (Hlists _ _ Hl0) as [rs' Hrs']. rewrite Hl1 in Hrs'. injection Hrs' as ->.
    rewrite length_app. lia.
  - simpl. destruct (products rxn); [|done]. by injection Hp as ->.
Qed.

Lemma pending_keeps (σ σ' : store) l k : keeps σ σ' -> pending σ l k -> pending σ' l k.
Proof.
  intros [Hw Hlists] (rs & k' & rxn & p & ps & Hl & Hk & Hrxn & Hp & Hwild).
  destruct (Hlists _ _ Hl) as [rs' Hl'].
  exists (rs ++ rs'), k', rxn, p, ps. split; [done|]. split; [done|].
  split; [by apply lookup_app_l_Some|]. split; [done|by apply Hw].
Qed.

(** The loop over a list with a pending wildcard reaction never ends
    normally: it raises or goes on for ever. *)
Lemma reactions_loop_never_returns coref_smiles l fuel : forall k (σ : store),
  plain_labels coref_smiles -> pending σ l k ->
  forall out, reactions_loop' fuel coref_smiles l k σ <> Some (Ok out).
Proof.
  induction fuel as [|fuel IH]; intros k σ Hplain Hpending out; [done|].
  cbn [reactions_loop].
  destruct Hpending as (rs & k' & rxn & p & ps & Hl & Hk & Hrxn & Hp & Hwild).
  rewrite Hl.
  destruct (rs !! k) as [rxn_k|] eqn:Hrk.
  2:{ apply lookup_ge_None in Hrk. apply lookup_lt_Some in Hrxn. lia. }
  destruct (associate_rxn' coref_smiles l σ rxn_k) as [σ'|e] eqn:Hbody; [|done].
  destruct (associate_rxn_spec _ _ _ _ _ Hplain Hbody) as [Hkeeps Hadds].
  apply IH; [done|].
  destruct (decide (k = k')) as [<-|Hne].
  - rewrite Hrk in Hrxn. injection Hrxn as ->.
    destruct (Hadds p ps Hp Hwild) as (rs1 & new_rxn & Hl' & Hlen & Hnew).
    exists (rs1 ++ [new_rxn]), (length rs1), new_rxn, p, ps.
    split; [done|]. split.
    { specialize (Hlen rs Hl). apply lookup_lt_Some in Hrk. lia. }
    split; [by rewrite lookup_app_r, Nat.sub_diag by lia|].
    split; [done|]. destruct Hkeeps as [Hw _]. by apply Hw.
  - eapply pending_keeps; [exact Hkeeps|].
    exists rs, k', rxn, p, ps. repeat (split; [done|]). split; [lia|done].
Qed.

Lemma reactions_loop_keeps coref_smiles l fuel : forall k (σ σ' : store),
  plain_labels coref_smiles ->
  reactions_loop' fuel coref_smiles l k σ = Some (Ok σ') -> keeps σ σ'.
Proof.
  induction fuel as [|fuel IH]; intros k σ σ' Hplain H; [done|].
  cbn [reactions_loop] in H.
  destruct (σ !! l) as [[rs| |]|]; try done.
  destruct (rs !! k) as [rxn_k|]; [|injection H as <-; apply keeps_refl].
  destruct (associate_rxn' coref_smiles l σ rxn_k) as [σ1|e] eqn:Hbody; [|done].
  destruct (associate_rxn_spec _ _ _ _ _ Hplain Hbody) as [Hkeeps _].
  eapply keeps_trans; [exact Hkeeps|]. by eapply IH.
Qed.

(** [associate_corefs] never returns normally when some result with
    usable coreference data has, in its list of reactions, a reaction whose
    first product is a dictionary with a ["*"] in its structure string: the
    instance it appends for that reaction has the same product, so the loop
    over the list, which takes in what is appended, finds another such
    reaction each time. With any bound on the number of passes the function
    either hits the bound or raises. *)
Theorem associate_corefs_never_returns fuel results results_coref (σ : store)
    i l c rs rxn p ps :
  results !! i = Some (Some l) ->
  clean_corefs results_coref i = Ok (Some c) ->
  σ !! l = Some (OReactions rs) -> rxn ∈ rs ->
  products rxn = Some (p :: ps) -> wild σ p ->
  forall out,
    associate_corefs MolFromSmiles dummy_labels fuel results results_coref σ
    <> Some (Ok out).
Proof.
  intros Hi Hc Hl Hrxn Hp Hwild. unfold associate_corefs.
  assert (Hpending : pending σ l 0).
  { apply list_elem_of_lookup in Hrxn as [k' Hk'].
    exists rs, k', rxn, p, ps. repeat (split; [done|]). split; [lia|done]. }
  clear Hl Hrxn Hp Hwild.
  enough (Hgen : forall results i j (σ : store),
            results !! i = Some (Some l) ->
            clean_corefs results_coref (j + i) = Ok (Some c) ->
            pending σ l 0 ->
            forall out, associate_results' fuel results_coref j results σ <> Some (Ok out))
    by (by apply (Hgen results i 0 σ)).
  clear. intros results. induction results as [|res results IH];
    intros i j σ Hi Hc Hpending out; [done|].
  cbn [associate_results].
  destruct i as [|i].
  - simpl in Hi. injection Hi as ->. rewrite Nat.add_0_r in Hc. rewrite Hc.
    destruct c as [[mol_bboxes_text coref_smiles] bboxes].
    pose proof (clean_corefs_plain_labels _ _ _ _ _ Hc) as Hplain.
    pose proof (reactions_loop_never_returns coref_smiles l fuel 0 σ Hplain Hpending)
      as Hnever.
    destruct (reactions_loop' fuel coref_smiles l 0 σ) as [[σ'|e]|]; [|done..].
    by destruct (Hnever σ').
  - simpl in Hi.
    destruct (clean_corefs results_coref j) as [[[[mbt coref_smiles] bboxes]|]|e] eqn:Hj;
      [| |done].
    + destruct res as [l0|]; [|done].
      destruct (reactions_loop' fuel coref_smiles l0 0 σ) as [[σ'|e]|] eqn:Hloop; [|done..].
      apply (IH i (S j)); [done| |].
      * by replace (S j + i) with (j + S i) by lia.
      * eapply pending_keeps; [|exact Hpending].
        eapply reactions_loop_keeps; [|exact Hloop].
        by eapply clean_corefs_plain_labels.
    + apply (IH i (S j)); [done| |done]. by replace (S j + i) with (j + S i) by lia.
Qed.

End AssociateFacts.

(** ** The locator and the substitution engine together *)

Section LocatedSubstitution.
Context {Image : Type}.

Lemma find_relevant_groups_elem (graphs : list (graph Image)) columns gi g atoms sym idx :
  (gi, atoms) ∈ find_relevant_groups graphs columns -> graphs !! gi = Some g ->
  (sym, idx) ∈ atoms ->
  exists atom,
    g_symbols g !! idx = Some atom /\ sym = strip_ends atom /\
    atom ∈ (fun col => "[" +:+ col_text col +:+ "]")
             <$> filter (fun col => col_tag col = "alkyl group") columns.
Proof.
  intros Hin Hg Ha. unfold find_relevant_groups in Hin.
  apply elem_of_lookup_imap in Hin as (i & g' & [= -> ->] & Hg').
  assert (g' = g) as -> by congruence.
  apply list_elem_of_omap in Ha as ([j atom] & Hj & Hf). simpl in Hf.
  case_decide as Hset; [|done]. injection Hf as <- <-.
  apply elem_of_lookup_imap in Hj as (j' & atom' & [= -> ->] & Hlook).
  exists atom'. split; [done|]. split; [done|]. by apply elem_of_list_to_set in Hset.
Qed.

Lemma find_relevant_groups_intro (graphs : list (graph Image)) columns gi g atom idx :
  graphs !! gi = Some g -> g_symbols g !! idx = Some atom ->
  atom ∈ (fun col => "[" +:+ col_text col +:+ "]")
           <$> filter (fun col => col_tag col = "alkyl group") columns ->
  exists atoms,
    (gi, atoms) ∈ find_relevant_groups graphs columns /\ (strip_ends atom, idx) ∈ atoms.
Proof.
  intros Hg Hatom Hset. unfold find_relevant_groups. eexists. split.
  - apply elem_of_lookup_imap. by exists gi, g.
  - apply list_elem_of_omap. exists (idx, atom). split.
    + apply elem_of_lookup_imap. by exists idx, atom.
    + simpl. rewrite decide_True; [done|]. by apply elem_of_list_to_set.
Qed.

(** The table expansion, from the graphs to the graph copies: when the
    substitution engine is given the positions that the locator finds in the
    graphs, the symbol list of every copy is the symbol list of its graph
    with every bracketed alkyl group header replaced by the value that the
    mapping has for the header, and with every other symbol as it was. *)
Theorem replaced_graphs_of_located (graphs : list (graph Image))
    (refs : list (graph_ref Image)) columns mappings (σ : store) graph_copy σ' :
  Forall2 (fun g r => σ !! r_symbols r = Some (OSymbols (g_symbols g))) graphs refs ->
  replaced_graphs refs (find_relevant_groups graphs columns) mappings σ
    = Ok (graph_copy, σ') ->
  Forall2 (fun g gc => σ' !! r_symbols gc
                       = Some (OSymbols (substituted columns mappings <$> g_symbols g)))
    graphs graph_copy.
Proof.
  intros Hrefs H.
  pose proof (replaced_graphs_spec _ _ _ _ _ _ H) as (_ & Hlen & Hcopies).
  unfold replaced_graphs in H.
  ok_bind H as acc Hcopy. ok_bind H as σ2 Hrel. injection H as <- <-.
  apply copy_loop_spec in Hcopy as (_ & new & Hnew & _ & Hnd).
  simpl in Hnew. subst new.
  apply Forall2_same_length_lookup. split.
  { apply Forall2_length in Hrefs. lia. }
  intros gi g gc Hg Hgc.
  destruct (Forall2_lookup_l _ _ _ _ _ Hrefs Hg) as (r & Hr & Hsym).
  destruct (Hcopies gi r _ Hr Hsym) as (gc' & syms' & Hgc' & _ & Hs' & Hlen' & Hkeep).
  assert (gc' = gc) as -> by congruence.
  rewrite Hs'. do 2 f_equal. apply list_eq. intros idx. rewrite list_lookup_fmap.
  destruct (g_symbols g !! idx) as [atom|] eqn:Hatom; simpl.
  2:{ apply lookup_ge_None. apply lookup_ge_None in Hatom. lia. }
  unfold substituted. case_decide as Hset.
  - destruct (mappings !! strip_ends atom) as [v|] eqn:Hmap; simpl.
    + assert (Hagree : forall atoms' sym' v',
                (gi, atoms') ∈ find_relevant_groups graphs columns ->
                (sym', idx) ∈ atoms' -> mappings !! sym' = Some v' -> v' = v).
      { intros atoms' sym' v' Hin Ha Hv'.
        destruct (find_relevant_groups_elem _ _ _ _ _ _ _ Hin Hg Ha)
          as (atom' & Hlook & -> & _).
        congruence. }
      destruct (relabel_locs_written mappings acc.1 Hnd gi idx gc v Hgc
                  (find_relevant_groups graphs columns) _ _ Hagree Hrel)
        as [_ Hwrite].
      destruct Hwrite as (syms & Hs & Hidx).
      { destruct (find_relevant_groups_intro graphs columns gi g atom idx Hg Hatom Hset)
          as (atoms & Hin & Ha).
        exists atoms, (strip_ends atom). by rewrite Hmap. }
      congruence.
    + rewrite Hkeep; [done|]. intros atoms sym Hin Ha.
      destruct (find_relevant_groups_elem _ _ _ _ _ _ _ Hin Hg Ha)
        as (atom' & Hlook & -> & _).
      congruence.
  - rewrite Hkeep; [done|]. intros atoms sym Hin Ha.
    destruct (find_relevant_groups_elem _ _ _ _ _ _ _ Hin Hg Ha)
      as (atom' & Hlook & _ & Hset').
    congruence.
Qed.

End LocatedSubstitution.

(** ** Properties of the figure extraction *)

Section PageFiguresFacts.
Import PageFigures.
Context {Page Array Block Picture : Type}.
Variable asarray : Page -> Array.
Variable detect : Array -> list Block.
Variable block_type : Block -> string.
Variable crop_image : Block -> Array -> Array.
Variable fromarray : Array -> Picture.

Abbreviation crops' := (crops asarray detect block_type crop_image fromarray).

Lemma append_blocks_spec i img (blocks : list Block) : forall figures : list (page_figure Picture),
  foldl (fun figures block => figures ++ [PageFigure (fromarray (crop_image block img)) i])
    figures blocks
  = figures ++ ((fun b => PageFigure (fromarray (crop_image b img)) i) <$> blocks).
Proof.
  induction blocks as [|b blocks IH]; intros figures; simpl.
  - by rewrite app_nil_r.
  - by rewrite IH, <- app_assoc.
Qed.

Lemma pages_loop_spec (rest : list Page) : forall (pre : list Page) figures,
  for_ (seq (length pre) (length rest)) figures
    (fun figures i =>
       page_i ← index (pre ++ rest) i;
       let img := asarray page_i in
       let layout := detect img in
       let blocks := filter (fun b => block_type b = "Figure") layout in
       Ok (foldl (fun figures block =>
                    let figure := fromarray (crop_image block img) in
                    figures ++ [PageFigure figure i])
             figures blocks))
  = Ok (figures ++
        concat (imap (fun j p => (fun c => PageFigure c (length pre + j)) <$> crops' p) rest)).
Proof.
  induction rest as [|p rest IH]; intros pre figures.
  - simpl. by rewrite app_nil_r.
  - assert (Hidx : index (pre ++ p :: rest) (length pre) = Ok p).
    { unfold index. by rewrite list_lookup_middle. }
    cbn [length seq for_]. rewrite Hidx. cbn [mbind outcome_bind].
    cbv zeta. rewrite append_blocks_spec.
    pose proof (IH (pre ++ [p])) as IH'. rewrite length_app in IH'. simpl in IH'.
    rewrite <- app_assoc in IH'. simpl in IH'.
    replace (S (length pre)) with (length pre + 1) by lia.
    rewrite IH'. rewrite imap_cons. cbn [concat]. rewrite <- app_assoc. do 2 f_equal.
    f_equal.
    + unfold crops. rewrite <- list_fmap_compose. rewrite Nat.add_0_r. done.
    + f_equal. apply imap_ext. intros j q _. simpl. f_equal.
      replace (length pre + 1 + j) with (length pre + S j) by lia. done.
Qed.

Lemma page_figures_sorted (rest : list Page) : forall start,
  let figures :=
    concat (imap (fun j p => (fun c => PageFigure c (start + j)) <$> crops' p) rest) in
  StronglySorted le (page <$> figures) /\
  Forall (fun f => start <= page f) figures /\
  forall i,
    image <$> filter (fun f => page f = i) figures
    = if decide (start <= i) then default [] (crops' <$> rest !! (i - start)) else [].
Proof.
  induction rest as [|p rest IH]; intros start; cbv zeta.
  - simpl. split; [constructor|]. split; [constructor|]. intros i.
    case_decide; [|done]. by destruct (i - start).
  - rewrite imap_cons. cbn [concat].
    pose proof (IH (S start)) as IH'. cbv zeta in IH'.
    assert (Hext : imap ((fun j p => (fun c => PageFigure c (start + j)) <$> crops' p) ∘ S) rest
                   = imap (fun j p => (fun c => PageFigure c (S start + j)) <$> crops' p) rest).
    { apply imap_ext. intros j q _. simpl. f_equal.
      replace (start + S j) with (S (start + j)) by lia. done. }
    rewrite Hext. destruct IH' as (Hsorted & Hge & Hfilter).
    set (tail := concat _) in *.
    assert (Hhead : Forall (fun f : page_figure Picture => page f = start)
                      ((fun c => PageFigure c (start + 0)) <$> crops' p)).
    { apply Forall_fmap, Forall_forall. intros c _. simpl. lia. }
    split; [|split].
    + rewrite fmap_app. apply StronglySorted_app_2.
      * intros x1 x2 Hx1 Hx2.
        apply list_elem_of_fmap in Hx1 as (f1 & -> & Hf1).
        apply list_elem_of_fmap in Hx2 as (f2 & -> & Hf2).
        rewrite Forall_forall in Hhead, Hge.
        rewrite (Hhead _ Hf1). pose proof (Hge _ Hf2). lia.
      * clear -Hhead. induction Hhead as [|f l Hf Hl IH]; simpl; constructor; [done|].
        apply Forall_fmap. eapply Forall_impl; [exact Hl|]. intros g Hg.
        unfold compose. simpl in *. lia.
      * done.
    + apply Forall_app. split.
      * eapply Forall_impl; [exact Hhead|]. intros f Hf. simpl in *. lia.
      * eapply Forall_impl; [exact Hge|]. intros f Hf. simpl in *. lia.
    + intros i. rewrite filter_app, fmap_app, Hfilter.
      destruct (decide (i = start)) as [->|Hne].
      * rewrite (decide_True (P := start <= start)) by lia.
        rewrite (decide_False (P := S start <= start)) by lia. rewrite Nat.sub_diag.
        rewrite app_nil_r. cbn [lookup list_lookup fmap option_fmap option_map default].
        assert (Hall : filter (fun f : page_figure Picture => page f = start)
                         ((fun c => PageFigure c (start + 0)) <$> crops' p)
                       = (fun c => PageFigure c (start + 0)) <$> crops' p).
        { clear -Hhead. induction Hhead as [|f l Hf Hl IH]; [done|].
          rewrite filter_cons_True by done. by rewrite IH. }
        rewrite Hall, <- list_fmap_compose. simpl. apply list_fmap_id.
      * assert (Hnone : filter (fun f : page_figure Picture => page f = i)
                          ((fun c => PageFigure c (start + 0)) <$> crops' p) = []).
        { clear -Hhead Hne. induction Hhead as [|f l Hf Hl IH]; [done|].
          rewrite filter_cons_False by lia. done. }
        rewrite Hnone. simpl.
        destruct (decide (start <= i)) as [Hle|Hgt].
        -- rewrite (decide_True (P := S start <= i)) by lia.
           replace (i - start) with (S (i - S start)) by lia. done.
        -- by rewrite (decide_False (P := S start <= i)) by lia.
Qed.


End PageFiguresFacts.

(** ** More examples *)

Lemma rxn_of_well_formed reactant cond product : well_formed (rxn_of reactant cond product).
Proof.
  split; [apply (bool_decide_unpack _); by vm_compute|].
  split; [by eexists|]. split; [by eexists|]. split; [by eexists|].
  intros k v Hin. unfold rxn_of in Hin. rewrite !elem_of_cons in Hin.
  destruct Hin as [[= -> ->]|[[= -> ->]|[[= -> ->]|Hin]]];
    [repeat constructor; by eexists..|by apply elem_of_nil in Hin].
Qed.

Lemma rxn_of_readable reactant cond product :
  readable_reaction (rxn_of reactant cond product).
Proof.
  split; [by eexists _, _|]. eexists. split; [done|]. repeat constructor. by eexists.
Qed.

Lemma coref_of_usable smi text : usable_record (coref_of smi text).
Proof.
  split.
  - eexists _, _. split; [done|]. right. repeat constructor. by eexists.
  - split; [repeat constructor; by eexists|by eexists].
Qed.

(** The enumeration over a template with two sites, with a toolkit that
    never fails. *)
Lemma query_enumeration_raises_witness :
  Enumeration.query_enumeration (fun query : list nat => query)
    (fun query idx => Ok (query ++ [idx])) (fun _ => "") (fun i => Ok i) [] 2
  = Some (Raise TypeError).
Proof.
  apply (query_enumeration_raises (fun query : list nat => query)
           (fun query idx => Ok (query ++ [idx])) (fun _ => "") (fun i => Ok i) [] 2).
  - intros i _. by eexists.
  - intros query idx. by eexists.
Defined.

(** A figure output with a molecule box and a text box. *)
Lemma clean_bbox_output_spec_witness :
  let figures := [[BBox 0 0 1 1]] in
  let bboxes := [[BBoxOutput.Detection (Some "[Mol]") (Some (BBox 0 0 1 1)) (Some 1%float);
                  BBoxOutput.Detection (Some "[Txt]") None None]] in
  exists out,
    BBoxOutput.clean_bbox_output stub_crop figures bboxes = Ok out /\
    length (BBoxOutput.references out) = 1 /\
    length (BBoxOutput.results out) = length bboxes /\
    BBoxOutput.references out
      = concat (BBoxOutput.molecules <$> BBoxOutput.results out) /\
    BBoxOutput.cropped out = BBoxOutput.m_image <$> BBoxOutput.references out /\
    forall i output, bboxes !! i = Some output ->
      exists data,
        BBoxOutput.results out !! i = Some data /\
        figures !! i = Some (BBoxOutput.image data) /\
        Forall2 (BBoxOutput.molecule_of stub_crop (BBoxOutput.image data))
          (filter (fun elt => BBoxOutput.d_category elt = Some "[Mol]") output)
          (BBoxOutput.molecules data).
Proof.
  intros figures bboxes.
  eexists. split; [vm_compute; reflexivity|]. split; [reflexivity|].
  apply (clean_bbox_output_spec stub_crop figures bboxes).
  vm_compute. reflexivity.
Defined.

(** One figure output and no figure. *)
Lemma clean_bbox_output_needs_figures_witness :
  exists e, BBoxOutput.clean_bbox_output stub_crop [] [[]] = Raise e.
Proof.
  apply (clean_bbox_output_needs_figures stub_crop [] [[]]). simpl. lia.
Defined.

(** A result with an ambiguous and a concrete reaction, and a helper that
    hands the concrete reaction back. *)
Lemma expand_reactions_with_backout_spec_witness :
  let helper := fun (res : reaction) (_ : pydict string) (_ : string) => Ok (Some res) in
  let initial_results := [Result [rxn_of "A" "heat" "C*"; rxn_of "B" "cold" "CC"] (Some 1)] in
  let results_coref := [coref_of "A" "3a, R = Cl"] in
  exists out,
    expand_reactions_with_backout stub_MolFromSmiles stub_HasSubstructMatch helper
      initial_results results_coref = Ok out /\
    length ∘ reactions <$> out = [3] /\
    length out = length initial_results /\
    forall i res, initial_results !! i = Some res ->
      exists added,
        out !! i = Some (Result (reactions res ++ added) (page res)) /\
        (clean_corefs results_coref i = Ok None -> added = []) /\
        Forall (expanded_from helper results_coref i res) added.
Proof.
  intros helper initial_results results_coref.
  eexists. split; [vm_compute; reflexivity|]. split; [reflexivity|].
  apply (expand_reactions_with_backout_spec stub_MolFromSmiles stub_HasSubstructMatch
           helper initial_results results_coref).
  vm_compute. reflexivity.
Defined.



(** A figure with a table and a result with one well-formed instance. *)
Lemma process_tables_returns_witness :
  exists out,
    stub_process_tables [figure_of [[Cell "Me"; Cell "85%"]]]
      [Result [rxn_of "A" "heat" "C*"] None] = Ok out.
Proof.
  apply (process_tables_returns stub_crop stub_predict_images stub_convert
           [figure_of [[Cell "Me"; Cell "85%"]]] [Result [rxn_of "A" "heat" "C*"] None]).
  intros i figure result content orig_reaction others Hf Hr Hc Hreact.
  destruct i as [|i]; [|done]. simpl in Hf, Hr. injection Hf as <-. injection Hr as <-.
  simpl in Hreact. injection Hreact as <- <-.
  split; [apply rxn_of_well_formed|]. eexists. vm_compute. reflexivity.
Defined.

(** A figure whose identifier box names an assignment, and a result with
    one well-formed instance. *)
Lemma replace_rgroups_in_figure_returns_witness :
  exists out,
    FigureRGroups.replace_rgroups_in_figure stub_crop stub_predict_images stub_convert
      [figure_of []] [Result [rxn_of "A" "heat" "C*"] None]
      [FigureRGroups.Corefs
         (Some [FigureRGroups.CorefBBox (Some "[Idt]")
                  (Some (FigureRGroups.Lines ["R = Me"]))])]
    = Ok out.
Proof.
  apply (replace_rgroups_in_figure_returns stub_crop stub_predict_images stub_convert).
  intros i figure result corefs Hf Hr Hc.
  destruct i as [|i]; [|done]. simpl in Hf, Hr, Hc.
  injection Hf as <-. injection Hr as <-. injection Hc as <-. split.
  - eexists. split; [done|]. repeat constructor. eexists. split; [done|]. by eexists.
  - intros orig_reaction others Hreact. simpl in Hreact. injection Hreact as <- <-.
    split; [apply rxn_of_well_formed|]. eexists. vm_compute. reflexivity.
Defined.

(** Two results and a coreference record with a molecule box. *)
Lemma backout_returns_witness :
  exists final,
    stub_backout [Result [rxn_of "A" "heat" "C*"] None; Result [rxn_of "B" "cold" "CC"] None]
      [coref_of "A" "3a, R = Cl"] = Ok final.
Proof.
  apply (backout_returns stub_MolFromSmiles stub_HasSubstructMatch).
  - repeat first [apply Forall_nil_2 | apply Forall_cons_2 | progress simpl
                  | apply rxn_of_readable].
  - apply Forall_cons_2; [apply coref_of_usable|apply Forall_nil_2].
Defined.

(** The walk on a chain of four atoms, from atom 0 with atom 2 excluded. *)
Lemma component_reachable_witness :
  let neighbors := fun a => match a with
                            | 0 => [1] | 1 => [0; 2] | 2 => [1; 3] | 3 => [2] | _ => []
                            end in
  exists q,
    Component.component neighbors {[2]} 5 0 = Some q /\
    q = [0; 1] /\
    NoDup q /\ head q = Some 0 /\
    forall x, x ∈ q <-> Component.reachable neighbors {[2]} 0 x.
Proof.
  intros neighbors.
  destruct (component_reachable neighbors {[2]} 0 4) as (q & Hrun & Hrest).
  - intros a. unfold neighbors. destruct a as [|[|[|[|a]]]]; repeat constructor; lia.
  - lia.
  - exists q. split; [exact Hrun|]. split; [|exact Hrest].
    vm_compute in Hrun. by injection Hrun as <-.
Defined.

(** A result whose only reaction has the product ["C*"]: with a toolkit
    that never fails, five passes are not enough, and no number of passes
    ends normally. *)
Lemma associate_corefs_never_returns_witness :
  let σ : Associate.store :=
    {[ 0 := Associate.OReactions [Associate.Rxn (Some [1]) (Some [2])];
       1 := Associate.OEntity (Some (Some "[R]"));
       2 := Associate.OEntity (Some (Some "C*")) ]} in
  let dummy_labels := fun _ : string => Ok ["R"] in
  let results_coref := [coref_of "A" "R Me"] in
  Associate.associate_corefs stub_MolFromSmiles dummy_labels 5 [Some 0] results_coref σ
    = None /\
  forall fuel out,
    Associate.associate_corefs stub_MolFromSmiles dummy_labels fuel [Some 0]
      results_coref σ <> Some (Ok out).
Proof.
  intros σ dummy_labels results_coref. split; [by vm_compute|]. intros fuel.
  eapply (associate_corefs_never_returns stub_MolFromSmiles dummy_labels fuel [Some 0]
            results_coref σ 0 0 _ _ (Associate.Rxn (Some [1]) (Some [2])) 2 []).
  - reflexivity.
  - vm_compute. reflexivity.
  - vm_compute. reflexivity.
  - by left.
  - reflexivity.
  - exists "C*". split; by vm_compute.
Defined.

(** Two graphs with the atom ["[R]"], a table with the alkyl group column
    ["R"], and a row that maps it to a methyl group. *)
Lemma replaced_graphs_of_located_witness :
  let graphs := [graph_of ("reactants", 0); graph_of ("products", 0)] in
  let refs := alloc_graphs ∅ graphs in
  let columns := columns (table_of []) in
  let mappings : gmap string string := {["R" := "Me"]} in
  (substituted columns mappings <$> ["C"; "[R]"; "O"]) = ["C"; "Me"; "O"] /\
  exists graph_copy σ',
    replaced_graphs refs.1 (find_relevant_groups graphs columns) mappings refs.2
      = Ok (graph_copy, σ') /\
    Forall2 (fun g gc => σ' !! r_symbols gc
                         = Some (OSymbols (substituted columns mappings <$> g_symbols g)))
      graphs graph_copy.
Proof.
  intros graphs refs columns mappings. split; [by vm_compute|].
  eexists _, _. split; [vm_compute; reflexivity|].
  apply (replaced_graphs_of_located graphs refs.1 columns mappings refs.2).
  - constructor; [by vm_compute|]. constructor; [by vm_compute|]. constructor.
  - vm_compute. reflexivity.
Defined.
